(** * DCC Custom Class Sheet: skill-name parsing, grouping and naming-record
      resolution

    A shallow embedding of [scripts/init.js] (the constants and the two
    regular expressions), [scripts/utils.js] (the parsers, [groupActorSkills],
    [getCustomClassLabel], [parseCustomClassIcon], [getCustomClassIcon],
    [purgeNamingItems]), of the custom sheet ([_getTabsConfig] and
    [_prepareContext] of [DCCActorSheetCustom]) and of the wizard of
    [scripts/class-builder.js] (its state, its actions and what
    [_createClass] composes).

    JavaScript strings are sequences of UTF-16 code units; a code unit is
    modelled as a number in [N].  Host facilities whose result depends on
    Unicode tables or on the runtime's locale ([String.prototype.toLowerCase],
    [String.prototype.localeCompare]) are an interface, [Host], with the laws
    the program relies on. *)

From Stdlib Require Import String Ascii List NArith ZArith Bool Lia.
From Stdlib Require Import Permutation Sorted.
Import ListNotations.

Set Implicit Arguments.

(* ------------------------------------------------------------------ *)
(** ** Strings *)

Definition char := N.
Definition jsstring := list char.

(** A string literal of the source, as code units. *)
Definition js (s : string) : jsstring :=
  map N_of_ascii (list_ascii_of_string s).

Definition char_eqb (a b : char) : bool := N.eqb a b.

Fixpoint jseqb (a b : jsstring) : bool :=
  match a, b with
  | [], [] => true
  | x :: a', y :: b' => char_eqb x y && jseqb a' b'
  | _, _ => false
  end.

Module Chars.
Local Open Scope N_scope.

(** WhiteSpace and LineTerminator of ECMAScript: what [\s] matches and
    what [trim] strips. *)
Definition is_space (c : char) : bool :=
  ((9 <=? c) && (c <=? 13)) || (c =? 32) || (c =? 160) || (c =? 5760)
  || ((8192 <=? c) && (c <=? 8202)) || (c =? 8232) || (c =? 8233)
  || (c =? 8239) || (c =? 8287) || (c =? 12288) || (c =? 65279).

(** LineTerminator: LF, CR, LS, PS.  [.] matches everything else. *)
Definition is_line_terminator (c : char) : bool :=
  (c =? 10) || (c =? 13) || (c =? 8232) || (c =? 8233).

Definition dot (c : char) : bool := negb (is_line_terminator c).

(** [\d] *)
Definition is_digit (c : char) : bool := (48 <=? c) && (c <=? 57).

Definition lparen : char := 40.
Definition rparen : char := 41.
Definition caret : char := 94.
Definition langle : char := 60.

(** [[^)]] *)
Definition not_rparen (c : char) : bool := negb (c =? rparen).

Definition is_ascii (c : char) : bool := c <? 128.

Definition ascii_lower (c : char) : char :=
  if (65 <=? c) && (c <=? 90) then c + 32 else c.

(** A pattern character [p] (ASCII) under the [i] flag without [u]:
    Canonicalize never maps a code unit above 127 to one below 128, so
    only the two ASCII cases of a letter match it. *)
Definition lit_i (p c : char) : bool := ascii_lower c =? ascii_lower p.

(** A pattern character without the [i] flag. *)
Definition lit (p c : char) : bool := c =? p.

(** [[a-z0-9\-]] under the [i] flag. *)
Definition icon_char (c : char) : bool :=
  let l := ascii_lower c in
  ((97 <=? l) && (l <=? 122)) || is_digit c || (c =? 45).
End Chars.
Export Chars.

(** [String.prototype.trim] *)
Fixpoint trimStart (s : jsstring) : jsstring :=
  match s with
  | c :: s' => if is_space c then trimStart s' else s
  | [] => []
  end.

Definition trimEnd (s : jsstring) : jsstring := rev (trimStart (rev s)).

Definition trim (s : jsstring) : jsstring := trimEnd (trimStart s).

(** [String.prototype.startsWith] *)
Fixpoint startsWith (s p : jsstring) {struct p} : bool :=
  match p, s with
  | [], _ => true
  | x :: p', y :: s' => char_eqb x y && startsWith s' p'
  | _ :: _, [] => false
  end.

(* ------------------------------------------------------------------ *)
(** ** Regular expressions

    The fragment of ECMAScript regular expressions the program uses, with
    the backtracking order of the language: a greedy quantifier tries the
    longest repetition first, a lazy one the shortest, an optional group is
    tried before it is skipped, and the search tries every start position
    from the left. *)

Inductive regex : Type :=
| Eps                                   (* the empty pattern *)
| Bol                                   (* ^ *)
| Eol                                   (* $ *)
| Chr (p : char -> bool)                (* one code unit of a set *)
| Star (greedy : bool) (p : char -> bool) (* p* and p*? *)
| Opt (r : regex)                       (* (?:r)? *)
| Group (n : nat) (r : regex)           (* the n-th capturing group *)
| Seq (r1 r2 : regex).

Declare Scope regex_scope.
Delimit Scope regex_scope with regex.
Bind Scope regex_scope with regex.
Infix ";;" := Seq (at level 61, right associativity) : regex_scope.

(** [p+] is [p p*], [p+?] is [p p*?]: same matches in the same order. *)
Definition Plus (greedy : bool) (p : char -> bool) : regex :=
  (Chr p ;; Star greedy p)%regex.

(** A literal word, one character after the other. *)
Fixpoint word (eq : char -> char -> bool) (w : jsstring) (r : regex) : regex :=
  match w with
  | [] => r
  | p :: w' => (Chr (eq p) ;; word eq w' r)%regex
  end.

(** Captures: the most recent binding of a group comes first. *)
Definition caps := list (nat * jsstring).

Fixpoint capture (m : caps) (n : nat) : option jsstring :=
  match m with
  | [] => None
  | (k, v) :: m' => if Nat.eqb k n then Some v else capture m' n
  end.

Section Matcher.
(** A continuation receives the position, the rest of the input and the
    captures. *)
Definition cont := nat -> jsstring -> caps -> option caps.

Fixpoint star_greedy (p : char -> bool) (i : nat) (s : jsstring) (c : caps)
         (k : cont) : option caps :=
  match s with
  | x :: s' =>
      if p x then
        match star_greedy p (S i) s' c k with
        | Some m => Some m
        | None => k i s c
        end
      else k i s c
  | [] => k i s c
  end.

Fixpoint star_lazy (p : char -> bool) (i : nat) (s : jsstring) (c : caps)
         (k : cont) : option caps :=
  match k i s c with
  | Some m => Some m
  | None =>
      match s with
      | x :: s' => if p x then star_lazy p (S i) s' c k else None
      | [] => None
      end
  end.

Fixpoint run (r : regex) (i : nat) (s : jsstring) (c : caps) (k : cont)
  : option caps :=
  match r with
  | Eps => k i s c
  | Bol => if Nat.eqb i 0 then k i s c else None
  | Eol => match s with [] => k i s c | _ :: _ => None end
  | Chr p =>
      match s with
      | x :: s' => if p x then k (S i) s' c else None
      | [] => None
      end
  | Star true p => star_greedy p i s c k
  | Star false p => star_lazy p i s c k
  | Opt r' =>
      match run r' i s c k with
      | Some m => Some m
      | None => k i s c
      end
  | Group n r' =>
      run r' i s c (fun i' s' c' => k i' s' ((n, firstn (i' - i) s) :: c'))
  | Seq r1 r2 =>
      run r1 i s c (fun i' s' c' => run r2 i' s' c' k)
  end.

Definition accept : cont := fun _ _ c => Some c.

(** The search of [RegExp.prototype.exec] from [lastIndex = 0]. *)
Fixpoint search (r : regex) (i : nat) (s : jsstring) : option caps :=
  match run r i s [] accept with
  | Some m => Some m
  | None =>
      match s with
      | [] => None
      | _ :: s' => search r (S i) s'
      end
  end.

(** [str.match(re)] for a regular expression without the [g] flag:
    [None] is [null]. *)
Definition exec (r : regex) (s : jsstring) : option caps := search r 0 s.

(** [re.test(str)] *)
Definition test (r : regex) (s : jsstring) : bool :=
  match exec r s with Some _ => true | None => false end.
End Matcher.

(* ------------------------------------------------------------------ *)
(** ** [scripts/init.js] *)

Definition NAMING_TOKEN : jsstring := js "CUSTOMCLASS".

(** [REGEX_NAMING_ITEM], flag [i]: start of input, an opening parenthesis,
    whitespace, [customclass], whitespace, the closing parenthesis,
    whitespace, group 1 (one or more characters but line terminators,
    greedy), end of input. *)
Definition REGEX_NAMING_ITEM : regex :=
  (Bol ;; Chr (lit_i lparen) ;; Star true is_space ;;
   word lit_i (js "customclass")
     (Star true is_space ;; Chr (lit_i rparen) ;; Star true is_space ;;
      Group 1 (Plus true dot) ;; Eol))%regex.

(** [REGEX_PREFIXED_SKILL]: start of input, an opening parenthesis,
    whitespace, group 1 (one or more characters other than the closing
    parenthesis, lazy), whitespace, optionally a caret and group 2 (one or
    more digits), the closing parenthesis, whitespace, group 3 (any
    characters but line terminators, greedy), end of input.  No flags. *)
Definition REGEX_PREFIXED_SKILL : regex :=
  (Bol ;; Chr (lit lparen) ;; Star true is_space ;;
   Group 1 (Plus false not_rparen) ;; Star true is_space ;;
   Opt (Chr (lit caret) ;; Group 2 (Plus true is_digit)) ;;
   Chr (lit rparen) ;; Star true is_space ;;
   Group 3 (Star true dot) ;; Eol)%regex.

(** The unanchored pattern of [parseCustomClassIcon], flag [i]:
    [<p>], whitespace, [icon:], whitespace, group 1 (one or more of
    [a-z0-9-]), whitespace, [</p>]. *)
Definition REGEX_ICON_LINE : regex :=
  word lit_i (js "<p>")
    (Star true is_space ;;
     word lit_i (js "icon:")
       (Star true is_space ;; Group 1 (Plus true icon_char) ;;
        Star true is_space ;; word lit_i (js "</p>") Eps))%regex.

(** The validation pattern of [parseCustomClassIcon], flag [i]: start of
    input, [fa-], one or more of [a-z0-9-], end of input. *)
Definition REGEX_ICON_CLASS : regex :=
  (Bol ;; word lit_i (js "fa-") (Plus true icon_char ;; Eol))%regex.

(* ------------------------------------------------------------------ *)
(** ** Numbers

    A weight is a JavaScript Number.  The values that occur are the
    non-negative integers a double represents, [Infinity] for a digit
    string beyond the double range, and [NaN] where [parseInt] finds no
    digit. *)

Inductive number : Type :=
| Finite (z : Z)
| Infinity
| NaN.

Module Number.
Local Open Scope Z_scope.

(** The double nearest to a non-negative integer, ties to even. *)
Definition of_integer (n : Z) : number :=
  if n <? 2 ^ 53 then Finite n
  else
    let e := Z.log2 n - 52 in
    let q := n / 2 ^ e in
    let r := n mod 2 ^ e in
    let half := 2 ^ (e - 1) in
    let q' := if r <? half then q
              else if r =? half then (if Z.even q then q else q + 1)
              else q + 1 in
    let v := q' * 2 ^ e in
    if 2 ^ 1024 <=? v then Infinity else Finite v.

(** The value of the longest prefix of decimal digits. *)
Fixpoint digits_value (acc : Z) (s : jsstring) : Z :=
  match s with
  | c :: s' =>
      if is_digit c then digits_value (10 * acc + (Z.of_N c - 48)) s'
      else acc
  | [] => acc
  end.

(** [parseInt(s, 10)] on a string that starts with neither whitespace
    nor a sign (it is applied to what [\d+] captured).  ECMAScript lets an
    implementation replace the digits after the twentieth by zeros; this
    model rounds the exact value. *)
Definition parseInt10 (s : jsstring) : number :=
  match s with
  | c :: _ => if is_digit c then of_integer (digits_value 0 s) else NaN
  | [] => NaN
  end.

(** [a !== b] *)
Definition strict_neq (a b : number) : bool :=
  match a, b with
  | Finite x, Finite y => negb (x =? y)
  | Infinity, Infinity => false
  | _, _ => true
  end.

(** The sign of [a - b], as [Array.prototype.sort] reads a comparator's
    result: [NaN] counts as zero. *)
Definition sub_sign (a b : number) : Z :=
  match a, b with
  | Finite x, Finite y => Z.sgn (x - y)
  | Infinity, Finite _ => 1
  | Finite _, Infinity => -1
  | _, _ => 0
  end.
End Number.

(* ------------------------------------------------------------------ *)
(** ** Exceptions *)

Inductive exn : Type := TypeError.

Inductive result (A : Type) : Type :=
| Ok (a : A)
| Throw (e : exn).
Arguments Ok {A} a.
Arguments Throw {A} e.

Definition bind {A B : Type} (x : result A) (f : A -> result B) : result B :=
  match x with
  | Ok a => f a
  | Throw e => Throw e
  end.

Notation "x <- e1 ';;;' e2" := (bind e1 (fun x => e2))
  (at level 100, e1 at next level, right associativity).

(** Reading a property or calling a method on [undefined] throws. *)
Definition the_string (v : option jsstring) : result jsstring :=
  match v with
  | Some s => Ok s
  | None => Throw TypeError
  end.

Fixpoint filterM {A : Type} (f : A -> result bool) (l : list A)
  : result (list A) :=
  match l with
  | [] => Ok []
  | x :: l' =>
      b <- f x ;;;
      r <- filterM f l' ;;;
      Ok (if b then x :: r else r)
  end.

Fixpoint foldM {A S : Type} (f : S -> A -> result S) (l : list A) (s : S)
  : result S :=
  match l with
  | [] => Ok s
  | x :: l' => s' <- f s x ;;; foldM f l' s'
  end.

(** A string or [null] used as a condition. *)
Definition truthy (v : option jsstring) : bool :=
  match v with
  | Some (_ :: _) => true
  | _ => false
  end.

(** [v || ""] and [v ?? ""] on a string or [undefined]. *)
Definition or_empty (v : option jsstring) : jsstring :=
  match v with
  | Some s => s
  | None => []
  end.

(* ------------------------------------------------------------------ *)
(** ** [Array.prototype.sort]

    The sort is stable, and for a consistent comparator its result is the
    one stable sorted arrangement; insertion from the right computes it. *)

Section Sort.
Local Open Scope Z_scope.
Context {A : Type} (cmp : A -> A -> Z).

Fixpoint insert (x : A) (l : list A) : list A :=
  match l with
  | [] => [x]
  | y :: l' => if cmp x y <=? 0 then x :: l else y :: insert x l'
  end.

Fixpoint sort (l : list A) : list A :=
  match l with
  | [] => []
  | x :: l' => insert x (sort l')
  end.
End Sort.

(* ------------------------------------------------------------------ *)
(** ** The host *)

Class Host : Type := {
  (** [String.prototype.toLowerCase] *)
  toLowerCase : jsstring -> jsstring;
  (** [a.localeCompare(b, undefined, { sensitivity: "base" })] *)
  localeCompare : jsstring -> jsstring -> Z;
  toLowerCase_ascii :
    forall s, forallb is_ascii s = true -> toLowerCase s = map ascii_lower s;
  localeCompare_antisym :
    forall a b, Z.sgn (localeCompare b a) = (- Z.sgn (localeCompare a b))%Z;
  localeCompare_trans :
    forall a b c,
      (localeCompare a b <= 0)%Z -> (localeCompare b c <= 0)%Z ->
      (localeCompare a c <= 0)%Z
}.

(* ------------------------------------------------------------------ *)
(** ** Data *)

(** What the program reads of a Foundry Item.  A property the document
    lacks is [None]. *)
Record Item : Type := {
  _id : jsstring;
  type : option jsstring;
  name : option jsstring;
  updateTime : option Z;
  description : option jsstring   (* system?.description?.value *)
}.

(** The object [parsePrefixedSkillName] returns. *)
Record Parsed : Type := {
  className : jsstring;
  weight : number;
  skillName : jsstring
}.

(** An entry [{ item, parsed }] of a group. *)
Record Member : Type := {
  item : Item;
  parsed : Parsed
}.

(** The own properties of the object [grouped], in creation order. *)
Definition object := list (jsstring * list Member).

Record Grouping : Type := {
  grouped : object;
  occupational : list Item
}.

(** The token of the specification's [parseName]. *)
Inductive ParsedToken : Type :=
| NamingToken (label : jsstring)
| PrefixedSkill (p : Parsed)
| Plain.

(* ------------------------------------------------------------------ *)
(** ** Plain objects used as maps *)

(** The properties every plain object inherits from [Object.prototype]:
    all of them are truthy and none is an array. *)
Definition Object_prototype_keys : list jsstring :=
  map js
    ["constructor"; "hasOwnProperty"; "isPrototypeOf";
     "propertyIsEnumerable"; "toLocaleString"; "toString"; "valueOf";
     "__proto__"; "__defineGetter__"; "__defineSetter__";
     "__lookupGetter__"; "__lookupSetter__"]%string.

Inductive property : Type :=
| Own (ms : list Member)
| Inherited
| Undefined.

Fixpoint own (g : object) (key : jsstring) : option (list Member) :=
  match g with
  | [] => None
  | (k, v) :: g' => if jseqb k key then Some v else own g' key
  end.

(** [grouped[key]] *)
Definition get_property (g : object) (key : jsstring) : property :=
  match own g key with
  | Some ms => Own ms
  | None =>
      if existsb (jseqb key) Object_prototype_keys then Inherited
      else Undefined
  end.

(** Assignment to an own property that exists keeps its place. *)
Fixpoint set_own (g : object) (key : jsstring) (v : list Member) : object :=
  match g with
  | [] => []
  | (k, w) :: g' =>
      if jseqb k key then (k, v) :: g' else (k, w) :: set_own g' key v
  end.

(** [if (!grouped[key]) grouped[key] = []; grouped[key].push(m)]: an
    inherited property is truthy, so no array is created, and it has no
    [push]. *)
Definition push_member (g : object) (key : jsstring) (m : Member)
  : result object :=
  match get_property g key with
  | Undefined => Ok (g ++ [(key, [m])])
  | Own ms => Ok (set_own g key (ms ++ [m]))
  | Inherited => Throw TypeError
  end.

(** An array index: the canonical decimal form of an integer below
    [2^32 - 1]. *)
Definition array_index (k : jsstring) : option Z :=
  match k with
  | [] => None
  | c :: k' =>
      if forallb is_digit k
         && (negb (N.eqb c 48) || match k' with [] => true | _ => false end)
      then
        let v := Number.digits_value 0 k in
        if (v <=? 4294967294)%Z then Some v else None
      else None
  end.

Definition is_array_index (k : jsstring) : bool :=
  match array_index k with Some _ => true | None => false end.

(** [Object.keys]: the array indices in ascending order, then the other
    keys in creation order. *)
Definition Object_keys (g : object) : list jsstring :=
  let ks := map fst g in
  sort (fun a b =>
          (match array_index a, array_index b with
           | Some x, Some y => x - y
           | _, _ => 0
           end)%Z)
       (filter is_array_index ks)
  ++ filter (fun k => negb (is_array_index k)) ks.

(* ------------------------------------------------------------------ *)
(** ** [scripts/utils.js] *)

(** [m[n]] for a group that takes part in every match. *)
Definition group (m : caps) (n : nat) : jsstring := or_empty (capture m n).

Definition parsePrefixedSkillName (name : jsstring) : option Parsed :=
  match exec REGEX_PREFIXED_SKILL name with
  | None => None
  | Some m =>
      Some {| className := trim (group m 1);
              weight := (if truthy (capture m 2)
                         then Number.parseInt10 (group m 2)
                         else Finite 0);
              skillName := trim (group m 3) |}
  end.

Definition parseNamingItem (name : jsstring) : option jsstring :=
  match exec REGEX_NAMING_ITEM name with
  | None => None
  | Some m => Some (trim (group m 1))
  end.

(** The classification [groupActorSkills] makes of a name, in its order:
    the naming test first, then the prefix. *)
Definition parseName (name : jsstring) : ParsedToken :=
  match parseNamingItem name with
  | Some (c :: l) => NamingToken (c :: l)
  | _ =>
      match parsePrefixedSkillName name with
      | Some p => PrefixedSkill p
      | None => Plain
      end
  end.

Definition DEFAULT_ICON : jsstring := js "fa-solid fa-circle-exclamation".

Definition parseCustomClassIcon (descriptionHTML : jsstring)
  : option jsstring :=
  match descriptionHTML with
  | [] => None
  | _ :: _ =>
      match exec REGEX_ICON_LINE descriptionHTML with
      | None => None
      | Some m =>
          let iconClass := trim (group m 1) in
          if test REGEX_ICON_CLASS iconClass then Some iconClass else None
      end
  end.

Section Program.
Context {host : Host}.
Local Open Scope Z_scope.

(** [(item.type ?? "").toLowerCase() === "skill"] *)
Definition is_skill (it : Item) : bool :=
  jseqb (toLowerCase (or_empty (type it))) (js "skill").

(** [parsed.className.trim().toLowerCase() === NAMING_TOKEN.toLowerCase()] *)
Definition is_reserved (p : Parsed) : bool :=
  jseqb (toLowerCase (trim (className p))) (toLowerCase NAMING_TOKEN).

(** One turn of the loop of [groupActorSkills]. *)
Definition classify_item (acc : Grouping) (it : Item) : result Grouping :=
  if negb (is_skill it) then Ok acc
  else
    n <- the_string (name it) ;;;
    if truthy (parseNamingItem n) then Ok acc
    else
      match parsePrefixedSkillName n with
      | None =>
          Ok {| grouped := grouped acc;
                occupational := occupational acc ++ [it] |}
      | Some p =>
          if is_reserved p then Ok acc
          else
            g <- push_member (grouped acc) (className p)
                   {| item := it; parsed := p |} ;;;
            Ok {| grouped := g; occupational := occupational acc |}
      end.

(** High weight first, then by skill name. *)
Definition compareMembers (a b : Member) : Z :=
  if Number.strict_neq (weight (parsed b)) (weight (parsed a))
  then Number.sub_sign (weight (parsed b)) (weight (parsed a))
  else localeCompare (skillName (parsed a)) (skillName (parsed b)).

Definition compareItemNames (a b : Item) : Z :=
  localeCompare (or_empty (name a)) (or_empty (name b)).

Definition groupActorSkills (items : list Item) : result Grouping :=
  acc <- foldM classify_item items {| grouped := []; occupational := [] |} ;;;
  Ok {| grouped := map (fun kv => (fst kv, sort compareMembers (snd kv)))
                       (grouped acc);
        occupational := sort compareItemNames (occupational acc) |}.

(** The predicate of the [filter] of [getCustomClassLabel],
    [getCustomClassIcon] and [purgeNamingItems]. *)
Definition is_naming_skill (it : Item) : result bool :=
  if is_skill it then
    n <- the_string (name it) ;;; Ok (truthy (parseNamingItem n))
  else Ok false.

(** [(a.updateTime || 0) - (b.updateTime || 0)] *)
Definition time (it : Item) : Z :=
  match updateTime it with Some t => t | None => 0 end.

Definition compareUpdateTime (a b : Item) : Z := time a - time b.

(** The naming skill the label and the icon are read from:
    [namingSkills.at(-1)] after the sort; [None] when there is no naming
    skill. *)
Definition namingSkill (items : list Item) : result (option Item) :=
  namingSkills <- filterM is_naming_skill items ;;;
  match namingSkills with
  | [] => Ok None
  | _ :: _ =>
      match rev (sort compareUpdateTime namingSkills) with
      | last :: _ => Ok (Some last)
      | [] => Throw TypeError
      end
  end.

Definition getCustomClassLabel (items : list Item)
  : result (option jsstring) :=
  found <- namingSkill items ;;;
  match found with
  | None => Ok None
  | Some last => n <- the_string (name last) ;;; Ok (parseNamingItem n)
  end.

Definition getCustomClassIcon (items : list Item) : result jsstring :=
  found <- namingSkill items ;;;
  match found with
  | None => Ok DEFAULT_ICON
  | Some namingSkill =>
      let descriptionHTML := or_empty (description namingSkill) in
      match parseCustomClassIcon descriptionHTML with
      | Some (c :: t) =>
          let iconClass := c :: t in
          if startsWith iconClass (js "fa-")
             && negb (startsWith iconClass (js "fa-solid"))
             && negb (startsWith iconClass (js "fa-regular"))
             && negb (startsWith iconClass (js "fa-brands"))
          then Ok (js "fa-solid " ++ iconClass)
          else Ok iconClass
      | _ => Ok DEFAULT_ICON   (* if (!iconClass) *)
      end
  end.

(** The comparator of [sortedGroupNames] in [_prepareContext]. *)
Definition compareGroupNames (classLabel : option jsstring)
           (a b : jsstring) : Z :=
  let aMatches := jseqb (toLowerCase a) (toLowerCase (or_empty classLabel)) in
  let bMatches := jseqb (toLowerCase b) (toLowerCase (or_empty classLabel)) in
  if truthy classLabel && (aMatches && negb bMatches) then -1
  else if truthy classLabel && (negb aMatches && bMatches) then 1
  else localeCompare a b.

(** [Object.keys(grouped).sort(...)] of [_prepareContext], as a function
    of the keys and of the class label. *)
Definition orderGroupNames (groupNames : list jsstring)
           (classLabel : option jsstring) : list jsstring :=
  sort (compareGroupNames classLabel) groupNames.

Definition sortedGroupNames (items : list Item) : result (list jsstring) :=
  classLabel <- getCustomClassLabel items ;;;
  g <- groupActorSkills items ;;;
  Ok (orderGroupNames (Object_keys (grouped g)) classLabel).
End Program.

(* ------------------------------------------------------------------ *)
(** ** A reference host

    Lower-casing of the ASCII letters, and the comparison of the
    lower-cased code units in lexical order: a collation that ignores case.
    It instantiates [Host] for the concrete runs below. *)

Module AsciiHost.
Local Open Scope Z_scope.

Definition lower (s : jsstring) : jsstring := map ascii_lower s.

Fixpoint compare_units (a b : jsstring) : Z :=
  match a, b with
  | [], [] => 0
  | [], _ :: _ => -1
  | _ :: _, [] => 1
  | x :: a', y :: b' =>
      if N.eqb x y then compare_units a' b'
      else if N.ltb x y then -1 else 1
  end.

Definition compare (a b : jsstring) : Z :=
  compare_units (lower a) (lower b).
End AsciiHost.

Definition ascii_host : Host.
Proof.
  refine {| toLowerCase := AsciiHost.lower;
            localeCompare := AsciiHost.compare;
            toLowerCase_ascii := fun s _ => eq_refl;
            localeCompare_antisym := _;
            localeCompare_trans := _ |}.
  - intros a b. unfold AsciiHost.compare.
    generalize (AsciiHost.lower a) (AsciiHost.lower b). clear a b.
    intros a. induction a as [|x a IH]; intros [|y b]; simpl; try reflexivity.
    rewrite (N.eqb_sym y x).
    destruct (N.eqb x y) eqn:E; [apply IH|].
    apply N.eqb_neq in E.
    destruct (N.ltb x y) eqn:L1, (N.ltb y x) eqn:L2; try reflexivity;
      [apply N.ltb_lt in L1, L2 | apply N.ltb_ge in L1, L2]; lia.
  - intros a b c. unfold AsciiHost.compare.
    generalize (AsciiHost.lower a) (AsciiHost.lower b) (AsciiHost.lower c).
    clear a b c.
    intros a. induction a as [|x a IH]; intros [|y b] [|z c]; simpl;
      try lia.
    destruct (N.eqb x y) eqn:E1.
    + apply N.eqb_eq in E1; subst y.
      destruct (N.eqb x z) eqn:E2; [apply IH|].
      destruct (N.ltb x z); lia.
    + apply N.eqb_neq in E1.
      destruct (N.ltb x y) eqn:L1; [|lia]. apply N.ltb_lt in L1. intros _.
      destruct (N.eqb y z) eqn:E2.
      * apply N.eqb_eq in E2; subst z.
        apply N.eqb_neq in E1. rewrite E1.
        apply N.ltb_lt in L1. rewrite L1. lia.
      * destruct (N.ltb y z) eqn:L2; [|lia]. apply N.ltb_lt in L2. intros _.
        assert (N.eqb x z = false) as -> by (apply N.eqb_neq; lia).
        assert (N.ltb x z = true) as -> by (apply N.ltb_lt; lia).
        lia.
Defined.

(* ------------------------------------------------------------------ *)
(** ** [scripts/utils.js]: purging the naming items *)

(** [actor.deleteEmbeddedDocuments("Item", ids)] of Foundry: the items
    whose id is listed leave the collection. *)
Definition deleteEmbeddedDocuments (ids : list jsstring) (items : list Item)
  : list Item :=
  filter (fun i => negb (existsb (jseqb (_id i)) ids)) items.

Section Purge.
Context {host : Host}.

(** The ids [purgeNamingItems] collects. *)
Definition toDelete (items : list Item) : result (list jsstring) :=
  namingSkills <- filterM is_naming_skill items ;;;
  Ok (map _id namingSkills).

(** The items of the actor once [purgeNamingItems] has run. *)
Definition purgeNamingItems (items : list Item) : result (list Item) :=
  ids <- toDelete items ;;;
  match ids with
  | [] => Ok items
  | _ :: _ => Ok (deleteEmbeddedDocuments ids items)
  end.
End Purge.

(* ------------------------------------------------------------------ *)
(** ** The sheet: [_getTabsConfig] and [_prepareContext] *)

Module View.
(** An entry of [skillWrappers] and of [occupationalWrappers]. *)
Record SkillWrapper : Type := {
  item : Item;
  displayName : option jsstring;
  tooltipContent : jsstring
}.

(** An entry of [groupsData]. *)
Record GroupData : Type := {
  className : jsstring;
  skills : list SkillWrapper
}.

(** The view model [vm]. *)
Record ViewModel : Type := {
  tabLabel : jsstring;
  groups : list GroupData;
  hasGroups : bool
}.
End View.

Fixpoint mapM {A B : Type} (f : A -> result B) (l : list A)
  : result (list B) :=
  match l with
  | [] => Ok []
  | x :: l' => y <- f x ;;; r <- mapM f l' ;;; Ok (y :: r)
  end.

(** A string or [undefined] in a template literal. *)
Definition template (v : option jsstring) : jsstring :=
  match v with
  | Some s => s
  | None => js "undefined"
  end.

Section Sheet.
Context {host : Host}.

(** [game.i18n]: absent, or an object whose [localize] gives the text of
    a key. *)
Variable i18n : option (jsstring -> jsstring).

(** [TextEditor.enrichHTML] of a description, relative to an item. *)
Variable enrichHTML : jsstring -> Item -> jsstring.

(** [label || game.i18n?.localize?.("DCCCS.TabLabel") || "Custom Class"] *)
Definition tabLabel (label : option jsstring) : jsstring :=
  match label with
  | Some (c :: l) => c :: l
  | _ =>
      match i18n with
      | Some localize =>
          match localize (js "DCCCS.TabLabel") with
          | c :: l => c :: l
          | [] => js "Custom Class"
          end
      | None => js "Custom Class"
      end
  end.

(** The label and the icon [_getTabsConfig] gives the custom tab. *)
Definition customTab (items : list Item) : result (jsstring * jsstring) :=
  label <- getCustomClassLabel items ;;;
  icon <- getCustomClassIcon items ;;;
  Ok (tabLabel label, icon).

Definition classWrapper (m : Member) : View.SkillWrapper :=
  {| View.item := item m;
     View.displayName := Some (skillName (parsed m));
     View.tooltipContent :=
       js "<h3>" ++ skillName (parsed m) ++ js "</h3>"
       ++ enrichHTML (or_empty (description (item m))) (item m) |}.

Definition occupationalWrapper (it : Item) : View.SkillWrapper :=
  {| View.item := it;
     View.displayName := name it;
     View.tooltipContent :=
       js "<h3>" ++ template (name it) ++ js "</h3>"
       ++ enrichHTML (or_empty (description it)) it |}.

(** One turn of the loop over [sortedGroupNames]: what is not an array
    cannot be iterated. *)
Definition classGroup (g : object) (className : jsstring)
  : result View.GroupData :=
  match get_property g className with
  | Own ms =>
      Ok {| View.className := className;
            View.skills := map classWrapper ms |}
  | _ => Throw TypeError
  end.

(** The group of the occupational skills, when there are any. *)
Definition occupationalGroup (occ : list Item) : result (list View.GroupData) :=
  match occ with
  | [] => Ok []
  | _ :: _ =>
      match i18n with
      | Some localize =>
          Ok [ {| View.className := localize (js "DCCCS.OccupationalSkills");
                  View.skills := map occupationalWrapper occ |} ]
      | None => Throw TypeError
      end
  end.

Definition _prepareContext (items : list Item) : result View.ViewModel :=
  label <- getCustomClassLabel items ;;;
  g <- groupActorSkills items ;;;
  classLabel <- getCustomClassLabel items ;;;
  classGroups <- mapM (classGroup (grouped g))
                   (orderGroupNames (Object_keys (grouped g)) classLabel) ;;;
  occ <- occupationalGroup (occupational g) ;;;
  let groupsData := classGroups ++ occ in
  Ok {| View.tabLabel := tabLabel label;
        View.groups := groupsData;
        View.hasGroups := match groupsData with
                          | [] => false
                          | _ :: _ => true
                          end |}.
End Sheet.

(** The click handler of [_onRender]: the first wrapper of the view model
    whose item has the id of the button. *)
Fixpoint findWrapper (groups : list View.GroupData) (itemId : jsstring)
  : option View.SkillWrapper :=
  match groups with
  | [] => None
  | group :: groups' =>
      match find (fun s => jseqb (_id (View.item s)) itemId)
                 (View.skills group) with
      | Some skillWrapper => Some skillWrapper
      | None => findWrapper groups' itemId
      end
  end.

(** The [displayName] the click handler passes to [postSkillToChat] for
    an item of the actor. *)
Definition clickedDisplayName (vm : View.ViewModel) (it : Item)
  : option jsstring :=
  match findWrapper (View.groups vm) (_id it) with
  | Some skillWrapper => View.displayName skillWrapper
  | None => name it
  end.

(** [postSkillToChat]: [displayName || item.name], the title of the
    message. *)
Definition chatName (it : Item) (displayName : option jsstring)
  : option jsstring :=
  match displayName with
  | Some (c :: l) => Some (c :: l)
  | _ => name it
  end.

(* ------------------------------------------------------------------ *)
(** ** [scripts/class-builder.js] *)

(** An entry of [this.skills]; a weight is the integer the form's text
    reads as, or [0]. *)
Module Skill.
Record t : Type := {
  id : Z;
  name : jsstring;
  description : jsstring;
  weight : Z
}.
End Skill.

(** What the sheet reads of the data of an item the wizard creates. *)
Module ItemData.
Record t : Type := {
  name : jsstring;
  type : jsstring;
  description : jsstring
}.
End ItemData.

(** [Array.prototype.findIndex]; [None] is [-1]. *)
Fixpoint findIndex {A : Type} (p : A -> bool) (l : list A) : option nat :=
  match l with
  | [] => None
  | x :: l' => if p x then Some 0 else option_map S (findIndex p l')
  end.

(** [l[i] = v] within the bounds of the array. *)
Fixpoint update {A : Type} (i : nat) (v : A) (l : list A) : list A :=
  match l, i with
  | [], _ => []
  | _ :: l', O => v :: l'
  | x :: l', S i' => x :: update i' v l'
  end.

(** [[l[i], l[j]] = [l[j], l[i]]] within the bounds of the array. *)
Definition swap {A : Type} (i j : nat) (l : list A) : list A :=
  match nth_error l j, nth_error l i with
  | Some y, Some x => update j x (update i y l)
  | _, _ => l
  end.

(** The decimal digits of a non-negative integer, before [acc]. *)
Fixpoint digits (fuel : nat) (n : Z) (acc : jsstring) : jsstring :=
  match fuel with
  | O => acc
  | S fuel' =>
      let acc' := Z.to_N (48 + n mod 10) :: acc in
      if (n <? 10)%Z then acc' else digits fuel' (n / 10) acc'
  end.

Module CustomClassBuilder.
Local Open Scope Z_scope.

(** The state of the wizard. *)
Record state : Type := {
  step : Z;
  className : jsstring;
  iconClass : jsstring;
  skills : list Skill.t;
  parentFolder : option jsstring;
  nextSkillId : Z
}.

Definition constructor : state :=
  {| step := 1;
     className := [];
     iconClass := js "fa-circle-exclamation";
     skills := [];
     parentFolder := None;
     nextSkillId := 1 |}.

Definition set_step (s : state) (n : Z) : state :=
  {| step := n;
     className := className s;
     iconClass := iconClass s;
     skills := skills s;
     parentFolder := parentFolder s;
     nextSkillId := nextSkillId s |}.

Definition set_skills (s : state) (l : list Skill.t) : state :=
  {| step := step s;
     className := className s;
     iconClass := iconClass s;
     skills := l;
     parentFolder := parentFolder s;
     nextSkillId := nextSkillId s |}.

(** The handler of the class-name field: [this.className = value.trim()] *)
Definition inputClassName (s : state) (value : jsstring) : state :=
  {| step := step s;
     className := trim value;
     iconClass := iconClass s;
     skills := skills s;
     parentFolder := parentFolder s;
     nextSkillId := nextSkillId s |}.

(** [!str.trim()] *)
Definition blank (str : jsstring) : bool :=
  match trim str with
  | [] => true
  | _ :: _ => false
  end.




Definition _nextStep (s : state) : state :=
  if step s =? 1 then
    if blank (className s) then s else set_step s (step s + 1)
  else if step s =? 2 then
    match skills s with
    | [] => s
    | _ :: _ =>
        match filter (fun sk => blank (Skill.name sk)) (skills s) with
        | _ :: _ => s
        | [] => set_step s (step s + 1)
        end
    end
  else set_step s (step s + 1).

Definition _prevStep (s : state) : state := set_step s (step s - 1).

Definition _addSkill (s : state) : state :=
  {| step := step s;
     className := className s;
     iconClass := iconClass s;
     skills := skills s ++ [ {| Skill.id := nextSkillId s;
                                Skill.name := [];
                                Skill.description := [];
                                Skill.weight := 0 |} ];
     parentFolder := parentFolder s;
     nextSkillId := nextSkillId s + 1 |}.

Definition _removeSkill (s : state) (skillId : Z) : state :=
  set_skills s (filter (fun sk => negb (Skill.id sk =? skillId)) (skills s)).

Definition _moveSkillUp (s : state) (skillId : Z) : state :=
  match findIndex (fun sk => Skill.id sk =? skillId) (skills s) with
  | None => s
  | Some O => s
  | Some (S i) => set_skills s (swap i (S i) (skills s))
  end.

Definition _moveSkillDown (s : state) (skillId : Z) : state :=
  match findIndex (fun sk => Skill.id sk =? skillId) (skills s) with
  | None => s
  | Some index =>
      if Nat.eqb index (length (skills s) - 1) then s
      else set_skills s (swap index (index + 1) (skills s))
  end.

Section Preview.
(** [a.localeCompare(b)] with the default options. *)
Variable collate : jsstring -> jsstring -> Z.

(** The comparator of [sortedSkills]: high weight first, then by name. *)
Definition compareSkills (a b : Skill.t) : Z :=
  if negb (Skill.weight b =? Skill.weight a)
  then Skill.weight b - Skill.weight a
  else collate (Skill.name a) (Skill.name b).

(** [sortedSkills] of [_prepareContext]: a sorted copy of the entries. *)
Definition sortedSkills (s : state) : list Skill.t :=
  sort compareSkills (skills s).
End Preview.

(** The actions of the table [DEFAULT_OPTIONS.actions] that work on the
    state alone. *)
Inductive action : Type :=
| nextStep
| prevStep
| addSkill
| removeSkill (skillId : Z)
| moveSkillUp (skillId : Z)
| moveSkillDown (skillId : Z).

Definition act (s : state) (a : action) : state :=
  match a with
  | nextStep => _nextStep s
  | prevStep => _prevStep s
  | addSkill => _addSkill s
  | removeSkill skillId => _removeSkill s skillId
  | moveSkillUp skillId => _moveSkillUp s skillId
  | moveSkillDown skillId => _moveSkillDown s skillId
  end.

(** [_createClass]: the line of the icon. *)
Definition iconLine (s : state) : jsstring :=
  match iconClass s with
  | [] => []
  | _ :: _ => js "<p>icon: " ++ iconClass s ++ js "</p>"
  end.

(** [_createClass]: the data of the naming skill. *)
Definition namingSkill (s : state) : ItemData.t :=
  {| ItemData.name := js "(CUSTOMCLASS)" ++ className s;
     ItemData.type := js "skill";
     ItemData.description :=
       iconLine s ++ js "<h3>" ++ className s
       ++ js "</h3><p>Custom class created with "
       ++ js "DCC Custom Class Builder.</p>" |}.

(** [s.weight > 0 ? `^${s.weight}` : ""].  An integer Number below
    [10^21] is written with its decimal digits; from there on JavaScript
    writes an exponent, which this model leaves out: [None]. *)
Definition weightSuffix (w : Z) : option jsstring :=
  if 0 <? w then
    if w <? 10 ^ 21 then Some (js "^" ++ digits 21 w []) else None
  else Some [].

(** [_createClass]: the data of the skill made of an entry. *)
Definition prefixedSkill (s : state) (sk : Skill.t) : option ItemData.t :=
  match weightSuffix (Skill.weight sk) with
  | Some suffix =>
      Some {| ItemData.name :=
                js "(" ++ className s ++ suffix ++ js ")" ++ Skill.name sk;
              ItemData.type := js "skill";
              ItemData.description :=
                match trim (Skill.description sk) with
                | [] => js "<p>" ++ Skill.name sk ++ js "</p>"
                | c :: d => c :: d
                end |}
  | None => None
  end.


End CustomClassBuilder.

(* ================================================================== *)
(** * Vocabulary of the statements *)

Definition spaces (s : jsstring) : Prop := forallb is_space s = true.

(** A string that starts and ends with a character that is not whitespace
    is what [trim] leaves of it. *)
Inductive trimmed : jsstring -> Prop :=
| trimmed_one (x : char) : is_space x = false -> trimmed [x]
| trimmed_more (x y : char) (t : jsstring) :
    is_space x = false -> is_space y = false -> trimmed (x :: t ++ [y]).

(** A string a quantifier cannot extend into. *)
Definition stops (p : char -> bool) (b : jsstring) : Prop :=
  match b with
  | [] => True
  | y :: _ => p y = false
  end.

(** What a pattern can match, whatever the order of the attempts:
    [matches r i a rest c c'] says that [r], at position [i] and followed
    by [rest], matches [a] and turns the captures [c] into [c']. *)
Fixpoint matches (r : regex) (i : nat) (a rest : jsstring) (c c' : caps)
  : Prop :=
  match r with
  | Eps => a = [] /\ c' = c
  | Bol => i = 0 /\ a = [] /\ c' = c
  | Eol => rest = [] /\ a = [] /\ c' = c
  | Chr p => exists x, a = [x] /\ p x = true /\ c' = c
  | Star _ p => forallb p a = true /\ c' = c
  | Opt r' => (a = [] /\ c' = c) \/ matches r' i a rest c c'
  | Group n r' => exists c1, matches r' i a rest c c1 /\ c' = (n, a) :: c1
  | Seq r1 r2 =>
      exists a1 a2 c1,
        a = a1 ++ a2 /\ matches r1 i a1 (a2 ++ rest) c c1
        /\ matches r2 (i + length a1) a2 rest c1 c'
  end.

(** The text of an optional weight: a caret and digits. *)
Definition weight_text (d : option jsstring) : jsstring :=
  match d with
  | Some ds => caret :: ds
  | None => []
  end.

(** A name of the class-prefixed shape: class text [c], optional weight
    digits [d], and the text [s] after the closing parenthesis. *)
Definition prefixed_name (c : jsstring) (d : option jsstring) (s : jsstring)
  : jsstring :=
  lparen :: c ++ weight_text d ++ rparen :: s.

(** One or more decimal digits. *)
Definition is_decimal (ds : jsstring) : bool :=
  match ds with
  | [] => false
  | _ :: _ => forallb is_digit ds
  end.

Definition weight_ok (d : option jsstring) : bool :=
  match d with
  | Some ds => is_decimal ds
  | None => true
  end.

(** The Number the digits of a weight denote; [0] without digits. *)
Definition weight_value (d : option jsstring) : number :=
  match d with
  | Some ds => Number.of_integer (Number.digits_value 0 ds)
  | None => Finite 0
  end.

(** [t] has a caret followed by digits up to its end. *)
Fixpoint ends_in_weight (t : jsstring) : bool :=
  match t with
  | [] => false
  | x :: t' => (N.eqb x caret && is_decimal t') || ends_in_weight t'
  end.

(** The class text, after its leading whitespace and its first character,
    ends in a caret and digits: the pattern reads them as the weight. *)
Definition carries_weight (c : jsstring) : bool :=
  match trimStart c with
  | [] => false
  | _ :: t => ends_in_weight t
  end.

(** The pattern after group 1. *)
Definition prefixed_tail : regex :=
  (Chr (lit rparen) ;; Star true is_space ;; Group 3 (Star true dot) ;; Eol)%regex.

Definition prefixed_after_class : regex :=
  (Star true is_space ;;
   Opt (Chr (lit caret) ;; Group 2 (Plus true is_digit)) ;;
   prefixed_tail)%regex.

(** An ASCII letter. *)
Definition is_letter (x : char) : bool :=
  (((65 <=? x) && (x <=? 90)) || ((97 <=? x) && (x <=? 122)))%N.

(** The reserved marker in any mix of cases. *)
Definition is_marker (M : jsstring) : bool :=
  jseqb (map ascii_lower M) (map ascii_lower NAMING_TOKEN).

(** A name of the naming shape: the marker [M] in parentheses, with
    optional whitespace around it, and the text [s] after them. *)
Definition naming_name (ws1 M ws2 s : jsstring) : jsstring :=
  lparen :: ws1 ++ M ++ ws2 ++ rparen :: s.

Definition agrees_i (w v : jsstring) : Prop :=
  Forall2 (fun p x => lit_i p x = true) w v.



(** The test of [is_naming_skill] on an item that has a name. *)
Definition naming_skill {host : Host} (it : Item) : bool :=
  is_skill it && truthy (parseNamingItem (or_empty (name it))).

(** The order a comparator describes. *)
Definition le_by {A : Type} (cmp : A -> A -> Z) (a b : A) : Prop :=
  (cmp a b <= 0)%Z.

(** The integer the digits of a weight spell. *)
Definition digits_number (d : option jsstring) : number :=
  match d with
  | Some ds => Finite (Number.digits_value 0 ds)
  | None => Finite 0
  end.

(** The token the class-prefixed rule describes: the class text trimmed,
    the digits as an integer, the text after the parenthesis trimmed. *)
Definition prefixed_token (c : jsstring) (d : option jsstring) (s : jsstring)
  : ParsedToken :=
  PrefixedSkill {| className := trim c;
                   weight := digits_number d;
                   skillName := trim s |}.

(** A description laid out as the icon pattern reads a directive: text
    [pre], the paragraph tag [P], the word [I] ("icon:"), the token
    [token], the closing tag [Q] and text [post], with optional whitespace
    in between. *)
Definition directive (pre P ws1 I ws2 token ws3 Q post : jsstring)
  : jsstring :=
  pre ++ P ++ ws1 ++ I ++ ws2 ++ token ++ ws3 ++ Q ++ post.

Definition no_langle (s : jsstring) : bool :=
  forallb (fun c => negb (N.eqb c langle)) s.

(** The token carries one of the three style families. *)
Definition has_family (token : jsstring) : bool :=
  startsWith token (js "fa-solid") || startsWith token (js "fa-regular")
  || startsWith token (js "fa-brands").

Section Vocabulary.
Context {host : Host}.

(** An item [groupActorSkills] lists among the occupational skills. *)
Definition occupational_item (it : Item) : Prop :=
is_skill it = true
/\ exists n, name it = Some n
             /\ truthy (parseNamingItem n) = false
             /\ parsePrefixedSkillName n = None.

(** An entry [groupActorSkills] lists in the group [k]. *)
Definition group_member (k : jsstring) (m : Member) : Prop :=
is_skill (item m) = true
/\ exists n, name (item m) = Some n
             /\ truthy (parseNamingItem n) = false
             /\ parsePrefixedSkillName n = Some (parsed m)
             /\ is_reserved (parsed m) = false
             /\ className (parsed m) = k.

Definition sound (items : list Item) (acc : Grouping) : Prop :=
(forall it, In it (occupational acc) ->
            In it items /\ occupational_item it)
/\ (forall k ms m, In (k, ms) (grouped acc) -> In m ms ->
                   In (item m) items /\ group_member k m).

(** The items on which the loop cannot throw: every skill has a name,
  and no class name is a property a plain object inherits. *)
Definition named (items : list Item) : Prop :=
forall it, In it items -> is_skill it = true -> name it <> None.

Definition safe_keys (items : list Item) : Prop :=
forall it n p,
  In it items -> name it = Some n -> parsePrefixedSkillName n = Some p ->
  existsb (jseqb (className p)) Object_prototype_keys = false.


End Vocabulary.

(** Decide the comparisons of a goal whose character is known to lie in
    given ranges. *)
Ltac decide_units :=
  repeat match goal with
         | |- context [N.leb ?a ?b] =>
             first [ replace (N.leb a b) with true
                       by (symmetry; apply N.leb_le; lia)
                   | replace (N.leb a b) with false
                       by (symmetry; apply N.leb_gt; lia) ]
         | |- context [N.eqb ?a ?b] =>
             first [ replace (N.eqb a b) with true
                       by (symmetry; apply N.eqb_eq; lia)
                   | replace (N.eqb a b) with false
                       by (symmetry; apply N.eqb_neq; lia) ]
         end.

(* ------------------------------------------------------------------ *)
(** ** Vocabulary of the further properties *)

(** [a] stands before [b] in [l]. *)
Definition precedes {A : Type} (a b : A) (l : list A) : Prop :=
  exists l1 l2 l3, l = l1 ++ a :: l2 ++ b :: l3.

(** An array that is not empty, or nothing. *)
Definition nonempty {A : Type} (l : list A) : option (list A) :=
  match l with
  | [] => None
  | _ :: _ => Some l
  end.

Section Visible.
Context {host : Host}.

(** The skills [groupActorSkills] lists as occupational: the test the
    loop makes of an item. *)
Definition plain_skill (it : Item) : bool :=
  is_skill it
  && negb (truthy (parseNamingItem (or_empty (name it))))
  && match parsePrefixedSkillName (or_empty (name it)) with
     | None => true
     | Some _ => false
     end.

(** The entry the loop of [groupActorSkills] makes of an item, when it
    makes one. *)
Definition class_member (it : Item) : option Member :=
  if is_skill it && negb (truthy (parseNamingItem (or_empty (name it))))
  then
    match parsePrefixedSkillName (or_empty (name it)) with
    | Some p =>
        if is_reserved p then None else Some {| item := it; parsed := p |}
    | None => None
    end
  else None.

(** The entries of the class [k], in the order of the collection. *)
Definition members_of (k : jsstring) (items : list Item) : list Member :=
  flat_map (fun it =>
              match class_member it with
              | Some m => if jseqb (className (parsed m)) k then [m] else []
              | None => []
              end) items.
End Visible.

(** What the loop of [groupActorSkills] has made of the items it has
    seen. *)
Definition seen {host : Host} (l : list Item) (acc : Grouping) : Prop :=
  occupational acc = filter plain_skill l
  /\ NoDup (map fst (grouped acc))
  /\ forall k, own (grouped acc) k = nonempty (members_of k l).

(** A skill the custom tab displays. *)
Definition visible {host : Host} (it : Item) : bool :=
  plain_skill it
  || match class_member it with Some _ => true | None => false end.

(** The items a view model displays, group after group. *)
Definition displayed (vm : View.ViewModel) : list Item :=
  flat_map (fun gd => map View.item (View.skills gd)) (View.groups vm).


(** The ids of the entries of the wizard are distinct, and below the id
    the next entry gets. *)
Definition ids_fresh (s : CustomClassBuilder.state) : Prop :=
  NoDup (map Skill.id (CustomClassBuilder.skills s))
  /\ forall sk, In sk (CustomClassBuilder.skills s) ->
                (Skill.id sk < CustomClassBuilder.nextSkillId s)%Z.





(* ================================================================== *)
(** * Items of the concrete runs *)

(** A skill item named [n], updated at [t], described by [d]. *)
Definition skill_item (n : string) (t : option Z) (d : string) : Item :=
  {| _id := js n;
     type := Some (js "skill");
     name := Some (js n);
     updateTime := t;
     description := Some (js d) |}.


Definition nameless_skill : Item :=
  {| _id := js "a1";
     type := Some (js "skill");
     name := None;
     updateTime := None;
     description := None |}.

Definition unnamed_items : list Item :=
  [ skill_item "" None "";
    {| _id := js "w1"; type := Some (js "weapon"); name := None;
       updateTime := None; description := None |} ].

Definition salesman : Item := skill_item "(CUSTOMCLASS)Salesman" (Some 20%Z) "".
Definition druid : Item := skill_item "(CUSTOMCLASS)Druid" None "".

Definition blank_class_items : list Item :=
  [ skill_item "Climbing" None ""; skill_item "( )Foo" None "" ].

Definition axe : Item :=
  {| _id := js "w1";
     type := Some (js "weapon");
     name := Some (js "Axe");
     updateTime := None;
     description := None |}.

Definition tavern_items : list Item :=
  [ skill_item "Swimming" None "";
    skill_item "(Barbarian)Rage" None "";
    axe;
    skill_item "climbing" None "";
    skill_item "(CUSTOMCLASS)Barbarian" (Some 5%Z) "<p>icon: fa-axe-battle</p>";
    skill_item "Climbing" None "";
    skill_item "(Barbarian)rage" None "" ].

(** The texts of the interface, in English. *)
Definition english (key : jsstring) : jsstring :=
  if jseqb key (js "DCCCS.TabLabel") then js "Custom Class"
  else if jseqb key (js "DCCCS.OccupationalSkills")
       then js "Occupational Skills"
       else key.

(** An enrichment that leaves the description as it is. *)
Definition as_written (d : jsstring) (_ : Item) : jsstring := d.

Definition leech : Skill.t :=
  {| Skill.id := 1;
     Skill.name := js "Leech";
     Skill.description := [];
     Skill.weight := 5 |}.

Definition blood_bond : Skill.t :=
  {| Skill.id := 2;
     Skill.name := js " Blood Bond ";
     Skill.description := js "<p>Binds two lives.</p>";
     Skill.weight := 0 |}.

(** A wizard at its last step. *)
Definition blood_mage : CustomClassBuilder.state :=
  {| CustomClassBuilder.step := 3;
     CustomClassBuilder.className := js "Blood Mage";
     CustomClassBuilder.iconClass := js "fa-droplet";
     CustomClassBuilder.skills := [leech; blood_bond];
     CustomClassBuilder.parentFolder := None;
     CustomClassBuilder.nextSkillId := 3 |}.




(* ================================================================== *)
(** * Facts about strings *)

Lemma forallb_app_true {A} (p : A -> bool) (a b : list A) :
  forallb p (a ++ b) = true <-> forallb p a = true /\ forallb p b = true.
Proof. rewrite forallb_app, andb_true_iff. reflexivity. Qed.

Lemma forallb_rev {A} (p : A -> bool) (a : list A) :
  forallb p (rev a) = forallb p a.
Proof.
  induction a as [|x a IH]; simpl; [reflexivity|].
  rewrite forallb_app, IH. simpl. rewrite andb_true_r. apply andb_comm.
Qed.

Lemma jseqb_eq (a b : jsstring) : jseqb a b = true <-> a = b.
Proof.
  revert b; induction a as [|x a IH]; intros [|y b]; simpl;
    try (split; [discriminate | congruence]); [tauto|].
  unfold char_eqb. rewrite andb_true_iff, N.eqb_eq, IH.
  split; [intros [-> ->]; reflexivity | intros E; injection E; auto].
Qed.

Lemma jseqb_refl (a : jsstring) : jseqb a a = true.
Proof. apply jseqb_eq. reflexivity. Qed.

Lemma trimStart_spaces (a s : jsstring) :
  spaces a -> trimStart (a ++ s) = trimStart s.
Proof.
  unfold spaces. induction a as [|x a IH]; simpl; [reflexivity|].
  intros E. apply andb_true_iff in E as [-> E]. auto.
Qed.

Lemma trimStart_fixed (x : char) (s : jsstring) :
  is_space x = false -> trimStart (x :: s) = x :: s.
Proof. intros E. simpl. rewrite E. reflexivity. Qed.

Lemma trimStart_split (s : jsstring) :
  exists a, s = a ++ trimStart s /\ spaces a.
Proof.
  induction s as [|x s [a [E Ha]]]; [exists []; split; reflexivity|].
  simpl. destruct (is_space x) eqn:Ex.
  - exists (x :: a). split; [simpl; congruence|].
    unfold spaces. simpl. rewrite Ex. exact Ha.
  - exists []. split; reflexivity.
Qed.

Lemma trimStart_head (s : jsstring) (x : char) (t : jsstring) :
  trimStart s = x :: t -> is_space x = false.
Proof.
  induction s as [|y s IH]; simpl; [discriminate|].
  destruct (is_space y) eqn:Ey; [exact IH|].
  intros E. injection E as -> _. exact Ey.
Qed.

Lemma trimStart_all_spaces (s : jsstring) : spaces s -> trimStart s = [].
Proof.
  intros Hs. rewrite <- (app_nil_r s). rewrite trimStart_spaces; auto.
Qed.

Lemma trimEnd_spaces (s b : jsstring) :
  spaces b -> trimEnd (s ++ b) = trimEnd s.
Proof.
  intros Hb. unfold trimEnd. rewrite rev_app_distr, trimStart_spaces; auto.
  unfold spaces. rewrite forallb_rev. exact Hb.
Qed.

Lemma trimEnd_fixed (s : jsstring) (y : char) :
  is_space y = false -> trimEnd (s ++ [y]) = s ++ [y].
Proof.
  intros E. unfold trimEnd. rewrite rev_app_distr. simpl. rewrite E.
  simpl. rewrite rev_involutive. reflexivity.
Qed.

Lemma trimEnd_split (s : jsstring) :
  exists b, s = trimEnd s ++ b /\ spaces b.
Proof.
  destruct (trimStart_split (rev s)) as [a [E Ha]].
  exists (rev a). split.
  - unfold trimEnd. rewrite <- rev_app_distr, <- E, rev_involutive.
    reflexivity.
  - unfold spaces. rewrite forallb_rev. exact Ha.
Qed.

Lemma trimEnd_last (s t : jsstring) (y : char) :
  trimEnd s = t ++ [y] -> is_space y = false.
Proof.
  unfold trimEnd. intros E.
  apply (f_equal (@rev char)) in E.
  rewrite rev_involutive, rev_app_distr in E. simpl in E.
  eapply trimStart_head; eauto.
Qed.

Lemma trimmed_head (s : jsstring) :
  trimmed s -> exists x t, s = x :: t /\ is_space x = false.
Proof. intros [x Hx | x y t Hx Hy]; eauto. Qed.

Lemma trimmed_last (s : jsstring) :
  trimmed s -> exists t y, s = t ++ [y] /\ is_space y = false.
Proof.
  intros [x Hx | x y t Hx Hy].
  - exists [], x. auto.
  - exists (x :: t), y. auto.
Qed.

Lemma trim_trimmed (a s b : jsstring) :
  spaces a -> spaces b -> trimmed s -> trim (a ++ s ++ b) = s.
Proof.
  intros Ha Hb Hs. unfold trim. rewrite trimStart_spaces by exact Ha.
  destruct (trimmed_head Hs) as [x [t [-> Hx]]].
  change ((x :: t) ++ b) with (x :: (t ++ b)).
  rewrite trimStart_fixed by exact Hx.
  change (x :: t ++ b) with ((x :: t) ++ b).
  rewrite trimEnd_spaces by exact Hb.
  destruct (trimmed_last Hs) as [t' [y [-> Hy]]].
  apply trimEnd_fixed. exact Hy.
Qed.

Lemma trim_all_spaces (s : jsstring) : spaces s -> trim s = [].
Proof.
  intros Hs. unfold trim. rewrite trimStart_all_spaces; auto.
Qed.

Lemma trim_split (s : jsstring) :
  exists a b, s = a ++ trim s ++ b /\ spaces a /\ spaces b.
Proof.
  destruct (trimStart_split s) as [a [E Ha]].
  destruct (trimEnd_split (trimStart s)) as [b [E' Hb]].
  exists a, b. unfold trim. rewrite <- E', <- E. auto.
Qed.

Lemma trim_is_trimmed (s : jsstring) : trim s <> [] -> trimmed (trim s).
Proof.
  intros Hne. unfold trim in *.
  destruct (trimEnd_split (trimStart s)) as [b [E Hb]].
  destruct (trimEnd (trimStart s)) as [|x t] eqn:Et; [congruence|].
  assert (Hx : is_space x = false).
  { destruct (trimStart s) as [|x' t'] eqn:Es; [discriminate|].
    injection E as -> _. eapply trimStart_head; eauto. }
  destruct t as [|z t0]; [constructor; exact Hx|].
  destruct (@exists_last _ (z :: t0)) as [t' [y Ey]]; [discriminate|].
  rewrite Ey in *.
  constructor; [exact Hx|].
  apply (@trimEnd_last (trimStart s) (x :: t') y). exact Et.
Qed.

Lemma app_longer {A} (a b a' b' : list A) :
  a ++ b = a' ++ b' -> length a < length a' ->
  exists y l, a' = a ++ y :: l /\ b = y :: l ++ b'.
Proof.
  intros E Hl. apply app_eq_app in E as [l [[E1 E2] | [E1 E2]]].
  - subst a. rewrite length_app in Hl. lia.
  - subst a'. destruct l as [|y l].
    + rewrite app_nil_r in Hl. lia.
    + exists y, l. auto.
Qed.

(** Splitting at the first occurrence of a character is unique. *)
Lemma split_first (c : char) (u t u' t' : jsstring) :
  ~ In c u -> ~ In c u' -> u ++ c :: t = u' ++ c :: t' -> u = u' /\ t = t'.
Proof.
  revert u'; induction u as [|x u IH]; intros [|x' u'] Hu Hu' E; simpl in *.
  - injection E; auto.
  - injection E as -> _. tauto.
  - injection E as -> _. tauto.
  - injection E as -> E. destruct (IH u') as [-> ->]; auto.
Qed.

(** And so is splitting at the last one. *)
Lemma split_last (c : char) (u t u' t' : jsstring) :
  ~ In c t -> ~ In c t' -> u ++ c :: t = u' ++ c :: t' -> u = u' /\ t = t'.
Proof.
  intros Ht Ht' E. apply (f_equal (@rev char)) in E.
  rewrite !rev_app_distr in E. simpl in E. rewrite <- !app_assoc in E.
  simpl in E. apply split_first in E; try (rewrite <- in_rev; assumption).
  destruct E as [E1 E2].
  apply (f_equal (@rev char)) in E1, E2. rewrite !rev_involutive in E1, E2.
  auto.
Qed.

Lemma forallb_not_In {A} (p : A -> bool) (l : list A) (x : A) :
  forallb p l = true -> p x = false -> ~ In x l.
Proof.
  intros Hl Hx Hin. rewrite forallb_forall in Hl. apply Hl in Hin. congruence.
Qed.

Lemma firstn_consumed {A} (a rest : list A) (i j : nat) :
  j = i + length a -> firstn (j - i) (a ++ rest) = a.
Proof.
  intros ->. replace (i + length a - i) with (length a + 0) by lia.
  rewrite firstn_app_2. simpl. apply app_nil_r.
Qed.

(* ================================================================== *)
(** * Facts about the matcher *)

Lemma star_greedy_none p i s c k :
  (forall a b, s = a ++ b -> forallb p a = true ->
               k (i + length a) b c = None) ->
  star_greedy p i s c k = None.
Proof.
  revert i; induction s as [|x s IH]; intros i Hk; simpl.
  - specialize (Hk [] [] eq_refl eq_refl). simpl in Hk.
    rewrite Nat.add_0_r in Hk. exact Hk.
  - assert (H0 : k i (x :: s) c = None).
    { specialize (Hk [] (x :: s) eq_refl eq_refl). simpl in Hk.
      rewrite Nat.add_0_r in Hk. exact Hk. }
    destruct (p x) eqn:Px; [|exact H0].
    rewrite IH; [exact H0|].
    intros a b -> Ha. specialize (Hk (x :: a) b eq_refl).
    simpl in Hk. rewrite Px, Nat.add_succ_r in Hk. auto.
Qed.

(** The greedy quantifier settles on a repetition when the continuation
    accepts it and refuses every longer one. *)
Lemma star_greedy_pick p i a b c k m :
  forallb p a = true ->
  k (i + length a) b c = Some m ->
  (forall a' b', a ++ b = a' ++ b' -> forallb p a' = true ->
                 length a < length a' -> k (i + length a') b' c = None) ->
  star_greedy p i (a ++ b) c k = Some m.
Proof.
  revert i; induction a as [|x a IH]; intros i Ha Hk Hlong.
  - simpl in *. rewrite Nat.add_0_r in Hk.
    destruct b as [|y b]; simpl; [exact Hk|].
    destruct (p y) eqn:Py; [|exact Hk].
    rewrite star_greedy_none; [exact Hk|].
    intros a' b' -> Ha'. specialize (Hlong (y :: a') b' eq_refl).
    simpl in Hlong. rewrite Py, Nat.add_succ_r in Hlong.
    apply Hlong; [exact Ha' | lia].
  - simpl in Ha. apply andb_true_iff in Ha as [Px Ha].
    simpl. rewrite Px. rewrite (IH (S i)); auto.
    + simpl in Hk. rewrite Nat.add_succ_r in Hk. exact Hk.
    + intros a' b' E Ha' Hl. specialize (Hlong (x :: a') b').
      simpl in Hlong. rewrite Px, Nat.add_succ_r in Hlong.
      apply Hlong; [congruence | exact Ha' | lia].
Qed.

(** In particular on the longest repetition, when the continuation accepts
    it. *)
Lemma star_greedy_longest p i a b c k m :
  forallb p a = true -> stops p b ->
  k (i + length a) b c = Some m ->
  star_greedy p i (a ++ b) c k = Some m.
Proof.
  intros Ha Hb Hk. apply star_greedy_pick; auto.
  intros a' b' E Ha' Hl.
  destruct (app_longer _ _ _ _ E Hl) as [y [l [-> ->]]].
  apply forallb_app_true in Ha' as [_ Ha']. simpl in *.
  apply andb_true_iff in Ha' as [Py _]. congruence.
Qed.

(** The lazy quantifier settles on a repetition when the continuation
    accepts it and refuses every shorter one. *)
Lemma star_lazy_pick p i a b c k m :
  forallb p a = true ->
  k (i + length a) b c = Some m ->
  (forall a' b', a ++ b = a' ++ b' -> length a' < length a ->
                 k (i + length a') b' c = None) ->
  star_lazy p i (a ++ b) c k = Some m.
Proof.
  revert i; induction a as [|x a IH]; intros i Ha Hk Hshort.
  - simpl in *. rewrite Nat.add_0_r in Hk.
    destruct b; simpl; rewrite Hk; reflexivity.
  - simpl in Ha. apply andb_true_iff in Ha as [Px Ha].
    simpl. pose proof (Hshort [] (x :: a ++ b) eq_refl) as H0.
    simpl in H0. rewrite Nat.add_0_r in H0. rewrite H0 by lia.
    rewrite Px. apply IH; auto.
    + simpl in Hk. rewrite Nat.add_succ_r in Hk. exact Hk.
    + intros a' b' E Hl. specialize (Hshort (x :: a') b').
      simpl in Hshort. rewrite Nat.add_succ_r in Hshort.
      apply Hshort; [congruence | lia].
Qed.

Lemma star_greedy_sound p i s c k m :
  star_greedy p i s c k = Some m ->
  exists a b, s = a ++ b /\ forallb p a = true
              /\ k (i + length a) b c = Some m.
Proof.
  revert i; induction s as [|x s IH]; intros i; simpl.
  - intros E. exists [], []. simpl. rewrite Nat.add_0_r. auto.
  - assert (H0 : k i (x :: s) c = Some m ->
                 exists a b, x :: s = a ++ b /\ forallb p a = true
                             /\ k (i + length a) b c = Some m).
    { intros E. exists [], (x :: s). simpl. rewrite Nat.add_0_r. auto. }
    destruct (p x) eqn:Px; [|exact H0].
    destruct (star_greedy p (S i) s c k) eqn:Es; [|exact H0].
    intros E. injection E as ->.
    destruct (IH _ Es) as [a [b [-> [Ha Hk]]]].
    exists (x :: a), b. simpl. rewrite Px, Nat.add_succ_r. auto.
Qed.

Lemma star_lazy_sound p i s c k m :
  star_lazy p i s c k = Some m ->
  exists a b, s = a ++ b /\ forallb p a = true
              /\ k (i + length a) b c = Some m.
Proof.
  revert i; induction s as [|x s IH]; intros i; simpl.
  - destruct (k i [] c) eqn:E; [|discriminate].
    intros E'. injection E' as ->.
    exists [], []. simpl. rewrite Nat.add_0_r. auto.
  - destruct (k i (x :: s) c) eqn:E.
    + intros E'. injection E' as ->.
      exists [], (x :: s). simpl. rewrite Nat.add_0_r. auto.
    + destruct (p x) eqn:Px; [|discriminate].
      intros Es. destruct (IH _ Es) as [a [b [-> [Ha Hk]]]].
      exists (x :: a), b. simpl. rewrite Px, Nat.add_succ_r. auto.
Qed.

(** A successful run is a match followed by a successful continuation. *)
Theorem run_sound (r : regex) :
  forall i s c k m,
    run r i s c k = Some m ->
    exists a rest c',
      s = a ++ rest /\ matches r i a rest c c'
      /\ k (i + length a) rest c' = Some m.
Proof.
  induction r as [| | |p|g p|r IH|n r IH|r1 IH1 r2 IH2]; intros i s c k m; simpl.
  - intros E. exists [], s, c. simpl. rewrite Nat.add_0_r. auto.
  - destruct (Nat.eqb i 0) eqn:Ei; [|discriminate].
    apply Nat.eqb_eq in Ei. subst i. intros E. exists [], s, c. simpl. auto.
  - destruct s; [|discriminate]. intros E.
    exists [], [], c. simpl. rewrite Nat.add_0_r. auto.
  - destruct s as [|x s]; [discriminate|].
    destruct (p x) eqn:Px; [|discriminate]. intros E.
    exists [x], s, c. simpl. rewrite Nat.add_1_r. eauto 6.
  - destruct g; intros E;
      [apply star_greedy_sound in E | apply star_lazy_sound in E];
      destruct E as [a [b [-> [Ha Hk]]]]; exists a, b, c; auto.
  - destruct (run r i s c k) eqn:Er.
    + intros E. injection E as ->.
      destruct (IH _ _ _ _ _ Er) as [a [rest [c' [-> [Hm Hk]]]]].
      exists a, rest, c'. auto.
    + intros E. exists [], s, c. simpl. rewrite Nat.add_0_r. auto.
  - intros E. destruct (IH _ _ _ _ _ E) as [a [rest [c' [-> [Hm Hk]]]]].
    rewrite (@firstn_consumed _ a rest i (i + length a) eq_refl) in Hk.
    exists a, rest, ((n, a) :: c'). eauto.
  - intros E. destruct (IH1 _ _ _ _ _ E) as [a1 [rest1 [c1 [-> [Hm1 E2]]]]].
    destruct (IH2 _ _ _ _ _ E2) as [a2 [rest [c2 [-> [Hm2 Hk]]]]].
    exists (a1 ++ a2), rest, c2. rewrite <- app_assoc, length_app, Nat.add_assoc.
    split; [reflexivity|]. split; [|exact Hk].
    exists a1, a2, c1. auto.
Qed.

Lemma search_sound (r : regex) (s : jsstring) :
  forall i m,
    search r i s = Some m ->
    exists pre a rest,
      s = pre ++ a ++ rest /\ matches r (i + length pre) a rest [] m.
Proof.
  induction s as [|x s IH]; intros i m; simpl.
  - destruct (run r i [] [] accept) eqn:Er; [|discriminate].
    intros E. injection E as ->.
    destruct (run_sound _ _ _ _ _ Er) as [a [rest [c' [E [Hm Hk]]]]].
    injection Hk as ->. exists [], a, rest. simpl. rewrite Nat.add_0_r. auto.
  - destruct (run r i (x :: s) [] accept) eqn:Er.
    + intros E. injection E as ->.
      destruct (run_sound _ _ _ _ _ Er) as [a [rest [c' [E [Hm Hk]]]]].
      injection Hk as ->. exists [], a, rest. simpl.
      rewrite Nat.add_0_r. auto.
    + intros E. destruct (IH _ _ E) as [pre [a [rest [-> Hm]]]].
      exists (x :: pre), a, rest. simpl. rewrite Nat.add_succ_r. auto.
Qed.

(** A pattern that starts with [^] is tried at the first position only. *)
Lemma search_anchored (r : regex) (s : jsstring) :
  exec (Bol ;; r) s = run (Bol ;; r) 0 s [] accept.
Proof.
  assert (Hno : forall t i, search (Bol ;; r) (S i) t = None).
  { induction t as [|y t IHt]; intros i; simpl; [reflexivity | apply IHt]. }
  unfold exec. destruct s as [|x s]; simpl.
  - destruct (run r 0 [] [] accept); reflexivity.
  - destruct (run r 0 (x :: s) [] accept); [reflexivity | apply Hno].
Qed.

(** A literal word matches, character by character, a string that agrees
    with it. *)
Lemma run_word eq (w : jsstring) (r : regex) :
  forall v i s c k,
    Forall2 (fun p x => eq p x = true) w v ->
    run (word eq w r) i (v ++ s) c k = run r (i + length v) s c k.
Proof.
  induction w as [|p w IH]; intros v i s c k Hv; inversion Hv; subst; simpl.
  - rewrite Nat.add_0_r. reflexivity.
  - match goal with H : eq p _ = true |- _ => rewrite H end.
    rewrite IH by assumption. rewrite Nat.add_succ_r. reflexivity.
Qed.

Lemma matches_word eq (w : jsstring) (r : regex) :
  forall i a rest c c',
    matches (word eq w r) i a rest c c' ->
    exists v a', a = v ++ a' /\ Forall2 (fun p x => eq p x = true) w v
                 /\ matches r (i + length v) a' rest c c'.
Proof.
  induction w as [|p w IH]; intros i a rest c c'; simpl.
  - intros Hm. exists [], a. simpl. rewrite Nat.add_0_r. auto.
  - intros [a1 [a2 [c1 [-> [[x [-> [Px ->]]] Hm]]]]].
    destruct (IH _ _ _ _ _ Hm) as [v [a' [-> [Hv Hm']]]].
    exists (x :: v), a'. simpl. rewrite Nat.add_succ_r.
    simpl in Hm'. rewrite Nat.add_1_r in Hm'. auto.
Qed.

(* ================================================================== *)
(** * The class-prefixed pattern *)

Lemma REGEX_PREFIXED_SKILL_eq :
  REGEX_PREFIXED_SKILL =
  (Bol ;; Chr (lit lparen) ;; Star true is_space ;;
   Group 1 (Plus false not_rparen) ;; prefixed_after_class)%regex.
Proof. reflexivity. Qed.

Lemma lit_eq (p x : char) : lit p x = true -> x = p.
Proof. unfold lit. apply N.eqb_eq. Qed.

Lemma is_decimal_cons (ds : jsstring) :
  is_decimal ds = true ->
  exists d0 ds', ds = d0 :: ds' /\ is_digit d0 = true
                 /\ forallb is_digit ds' = true.
Proof.
  destruct ds as [|d0 ds']; simpl; [discriminate|].
  intros E. apply andb_true_iff in E. eauto.
Qed.

Lemma is_decimal_digits (ds : jsstring) :
  is_decimal ds = true -> forallb is_digit ds = true.
Proof. destruct ds; [discriminate | auto]. Qed.

Lemma run_group_star_eol n p i s c :
  forallb p s = true ->
  run (Group n (Star true p) ;; Eol) i s c accept = Some ((n, s) :: c).
Proof.
  intros Hs. cbn [run].
  match goal with |- star_greedy _ _ _ _ ?k = _ =>
    pose proof (@star_greedy_longest p i s [] c k ((n, s) :: c) Hs I) as H
  end.
  rewrite app_nil_r in H. apply H. cbn beta iota.
  assert (Hf : firstn (i + length s - i) s = s).
  { replace (i + length s - i) with (length s) by lia. apply firstn_all. }
  rewrite Hf. reflexivity.
Qed.

Lemma run_prefixed_tail i ws3 rest c :
  spaces ws3 -> stops is_space rest -> forallb dot rest = true ->
  run prefixed_tail i (rparen :: ws3 ++ rest) c accept
  = Some ((3, rest) :: c).
Proof.
  intros H3 Hstop Hrest. unfold prefixed_tail. cbn [run].
  change (lit rparen rparen) with true. cbn iota.
  apply star_greedy_longest; auto.
  cbn beta. apply run_group_star_eol. exact Hrest.
Qed.

Lemma run_prefixed_weight i d ws3 rest c :
  weight_ok d = true ->
  spaces ws3 -> stops is_space rest -> forallb dot rest = true ->
  run (Opt (Chr (lit caret) ;; Group 2 (Plus true is_digit)) ;; prefixed_tail)
      i (weight_text d ++ rparen :: ws3 ++ rest) c accept
  = Some ((3, rest) :: match d with Some ds => [(2, ds)] | None => [] end ++ c).
Proof.
  intros Hd H3 Hstop Hrest. destruct d as [ds|]; simpl weight_text.
  - destruct (is_decimal_cons _ Hd) as [d0 [ds' [-> [Hd0 Hds]]]].
    cbn [run Plus app]. change (lit caret caret) with true. cbn iota.
    rewrite Hd0.
    match goal with |- match star_greedy _ _ _ _ ?k with _ => _ end = _ =>
      rewrite (@star_greedy_longest is_digit (S (S i)) ds'
                 (rparen :: ws3 ++ rest) c k ((3, rest) :: (2, d0 :: ds') :: c))
    end; auto.
    + reflexivity.
    + cbn beta.
      assert (Hf : firstn (S (S i) + length ds' - S i)
                     (d0 :: ds' ++ rparen :: ws3 ++ rest) = d0 :: ds').
      { apply (@firstn_consumed _ (d0 :: ds')). simpl. lia. }
      rewrite Hf. apply run_prefixed_tail; auto.
  - cbn [run]. change (lit caret rparen) with false. cbn iota.
    apply run_prefixed_tail; auto.
Qed.

Lemma run_prefixed_after_class i ws2 d ws3 rest c :
  spaces ws2 -> weight_ok d = true ->
  spaces ws3 -> stops is_space rest -> forallb dot rest = true ->
  run prefixed_after_class i
      (ws2 ++ weight_text d ++ rparen :: ws3 ++ rest) c accept
  = Some ((3, rest) :: match d with Some ds => [(2, ds)] | None => [] end ++ c).
Proof.
  intros H2 Hd H3 Hstop Hrest. unfold prefixed_after_class.
  cbn [run]. apply star_greedy_longest; auto.
  - destruct d; simpl; reflexivity.
  - cbn beta. apply run_prefixed_weight; auto.
Qed.

Lemma ends_in_weight_app (u ds : jsstring) :
  is_decimal ds = true -> ends_in_weight (u ++ caret :: ds) = true.
Proof.
  intros Hd. induction u as [|x u IH]; simpl.
  - rewrite Hd. reflexivity.
  - rewrite IH. apply orb_true_r.
Qed.

Lemma not_In_rparen_class (l : jsstring) :
  forallb not_rparen l = true -> ~ In rparen l.
Proof. intros H. eapply forallb_not_In; eauto. Qed.

Lemma not_In_rparen_spaces (l : jsstring) : spaces l -> ~ In rparen l.
Proof. intros H. eapply forallb_not_In; eauto. Qed.

Lemma not_In_rparen_digits (l : jsstring) :
  forallb is_digit l = true -> ~ In rparen l.
Proof. intros H. eapply forallb_not_In; eauto. Qed.

Lemma not_In_caret_digits (l : jsstring) :
  forallb is_digit l = true -> ~ In caret l.
Proof. intros H. eapply forallb_not_In; eauto. Qed.

Lemma not_In_rparen_weight (d : option jsstring) :
  weight_ok d = true -> ~ In rparen (weight_text d).
Proof.
  destruct d as [ds|]; simpl; [|tauto].
  intros Hd [E | Hin]; [discriminate|].
  apply is_decimal_digits in Hd. eapply not_In_rparen_digits; eauto.
Qed.

Lemma matches_weight_opt i a rest c c' :
  matches (Opt (Chr (lit caret) ;; Group 2 (Plus true is_digit))) i a rest c c' ->
  (a = [] /\ c' = c)
  \/ exists ds, a = caret :: ds /\ is_decimal ds = true /\ c' = (2, ds) :: c.
Proof.
  cbn [matches Plus].
  intros [H | [a1 [a2 [c1 [-> [[x [-> [Hx ->]]] [c2 [H ->]]]]]]]]; [left; exact H|].
  destruct H as [b1 [b2 [c3 [-> [[y [-> [Hy ->]]] [Hb ->]]]]]].
  right. exists (y :: b2). apply lit_eq in Hx. subst x.
  simpl. rewrite Hy, Hb. auto.
Qed.

Lemma matches_prefixed_tail i a rest c c' :
  matches prefixed_tail i a rest c c' ->
  exists sp g, a = rparen :: sp ++ g /\ rest = [] /\ spaces sp
               /\ forallb dot g = true /\ c' = (3, g) :: c.
Proof.
  unfold prefixed_tail. cbn [matches].
  intros [a1 [a2 [c1 [-> [[x [-> [Hx ->]]] H]]]]].
  destruct H as [b1 [b2 [c2 [-> [[Hb1 ->] H]]]]].
  destruct H as [e1 [e2 [c3 [-> [[c4 [[He1 ->] ->]] [-> [-> ->]]]]]]].
  apply lit_eq in Hx. subst x.
  exists b1, e1. rewrite app_nil_r. auto.
Qed.

Lemma matches_prefixed_after_class i a rest c c' :
  matches prefixed_after_class i a rest c c' ->
  exists sp w t g,
    a = sp ++ w ++ rparen :: t /\ spaces sp
    /\ ((w = [] /\ c' = (3, g) :: c)
        \/ exists ds, w = caret :: ds /\ is_decimal ds = true
                      /\ c' = (3, g) :: (2, ds) :: c).
Proof.
  unfold prefixed_after_class.
  intros [a1 [a2 [c1 [-> [[Ha1 ->] [b1 [b2 [c2 [-> [Hw Ht]]]]]]]]]].
  apply matches_prefixed_tail in Ht as [sp [g [-> [_ [_ [_ ->]]]]]].
  exists a1, b1, (sp ++ g), g. split; [reflexivity|]. split; [exact Ha1|].
  apply matches_weight_opt in Hw as [[-> ->] | [ds [-> [Hd ->]]]]; eauto.
Qed.

(** After a proper prefix of the class text the rest of the pattern
    fails: the lazy group 1 has to go on. *)
Lemma prefixed_after_class_refuses i v y ws2 d s c :
  is_space y = false ->
  forallb not_rparen (v ++ [y]) = true ->
  spaces ws2 -> weight_ok d = true ->
  (d = None -> forall sp ds, (v ++ [y]) ++ ws2 = sp ++ caret :: ds ->
                             is_decimal ds = true -> False) ->
  run prefixed_after_class i
      ((v ++ [y]) ++ ws2 ++ weight_text d ++ rparen :: s) c accept = None.
Proof.
  intros Hy Hv H2 Hd Hnw.
  destruct (run prefixed_after_class i _ c accept) eqn:E; [exfalso|reflexivity].
  apply run_sound in E as [a [rest0 [c' [Es [Hm _]]]]].
  apply matches_prefixed_after_class in Hm as [sp [w [t [g [-> [Hsp Hw]]]]]].
  assert (Hw' : w = [] \/ exists ds, w = caret :: ds /\ is_decimal ds = true).
  { destruct Hw as [[-> _] | [ds [-> [Hds _]]]]; eauto. }
  clear Hw. rename Hw' into Hw.
  assert (E' : ((v ++ [y]) ++ ws2 ++ weight_text d) ++ rparen :: s
               = (sp ++ w) ++ rparen :: (t ++ rest0)).
  { repeat rewrite <- app_assoc. repeat rewrite <- app_assoc in Es.
    simpl. simpl in Es. exact Es. }
  assert (Hin : forall l, (v ++ [y]) ++ ws2 = l -> spaces l -> False).
  { intros l El Hl. unfold spaces in Hl. rewrite forallb_forall in Hl.
    assert (In y l) as Hyl.
    { rewrite <- El. apply in_or_app. left. apply in_or_app. right.
      left. reflexivity. }
    apply Hl in Hyl. congruence. }
  apply split_first in E' as [E' _].
  - destruct Hw as [-> | [ds' [-> Hds']]].
    + rewrite app_nil_r in E'. apply (Hin sp); [|exact Hsp].
      destruct d as [ds|]; simpl in E'.
      * exfalso. assert (In caret sp) as Hc.
        { rewrite <- E'. apply in_or_app. right. apply in_or_app. right.
          left. reflexivity. }
        unfold spaces in Hsp. rewrite forallb_forall in Hsp.
        apply Hsp in Hc. discriminate.
      * rewrite app_nil_r in E'. exact E'.
    + destruct d as [ds|]; simpl in E'.
      * rewrite app_assoc in E'.
        apply split_last in E' as [E' _].
        -- apply (Hin sp); auto.
        -- apply not_In_caret_digits, is_decimal_digits. exact Hd.
        -- apply not_In_caret_digits, is_decimal_digits. exact Hds'.
      * rewrite app_nil_r in E'. eapply Hnw; eauto.
  - intros Hin'. apply in_app_or in Hin' as [Hin' | Hin'].
    + revert Hin'. apply not_In_rparen_class. exact Hv.
    + apply in_app_or in Hin' as [Hin' | Hin'].
      * revert Hin'. apply not_In_rparen_spaces. exact H2.
      * revert Hin'. apply not_In_rparen_weight. exact Hd.
  - intros Hin'. apply in_app_or in Hin' as [Hin' | Hin'].
    + revert Hin'. apply not_In_rparen_spaces. exact Hsp.
    + destruct Hw as [-> | [ds' [-> Hds']]]; [exact Hin'|].
      destruct Hin' as [E0 | Hin']; [discriminate|].
      revert Hin'. apply not_In_rparen_digits, is_decimal_digits. exact Hds'.
Qed.

Lemma suffix_last (x y : char) (a' v t : jsstring) :
  v <> [] -> x :: a' ++ v = t ++ [y] -> exists v', v = v' ++ [y].
Proof.
  intros Hv E. destruct (exists_last Hv) as [v' [y' ->]].
  exists v'. change (x :: a' ++ v' ++ [y']) with ((x :: a') ++ v' ++ [y']) in E.
  rewrite app_assoc in E. apply app_inj_tail in E as [_ ->]. reflexivity.
Qed.

(** The match of the class-prefixed pattern on a name laid out as the
    pattern reads it. *)
Lemma exec_prefixed ws1 x core' ws2 d ws3 rest :
  spaces ws1 -> spaces ws2 -> spaces ws3 ->
  trimmed (x :: core') -> forallb not_rparen (x :: core') = true ->
  weight_ok d = true ->
  (d = None -> ends_in_weight (core' ++ ws2) = false) ->
  stops is_space rest -> forallb dot rest = true ->
  exec REGEX_PREFIXED_SKILL
       (lparen :: ws1 ++ (x :: core') ++ ws2 ++ weight_text d
                ++ rparen :: ws3 ++ rest)
  = Some ((3, rest) :: match d with Some ds => [(2, ds)] | None => [] end
                    ++ [(1, x :: core')]).
Proof.
  intros H1 H2 H3 Htr Hcls Hd Hnw Hstop Hrest.
  rewrite REGEX_PREFIXED_SKILL_eq, search_anchored.
  cbn [run Plus Nat.eqb]. change (lit lparen lparen) with true. cbn iota.
  destruct (trimmed_head Htr) as [x0 [t0 [E0 Hx]]]. injection E0 as <- <-.
  destruct (trimmed_last Htr) as [t [y [Et Hy]]].
  simpl in Hcls. apply andb_true_iff in Hcls as [Hxc Hcls].
  apply star_greedy_longest; [exact H1 | exact Hx |].
  cbn beta. cbn [app]. rewrite Hxc.
  match goal with |- star_lazy _ _ _ _ ?k = _ =>
    apply (@star_lazy_pick not_rparen (S (1 + length ws1)) core'
             (ws2 ++ weight_text d ++ rparen :: ws3 ++ rest) [] k)
  end.
  - exact Hcls.
  - cbn beta.
    assert (Hf : firstn (S (1 + length ws1) + length core' - (1 + length ws1))
                   (x :: core' ++ ws2 ++ weight_text d ++ rparen :: ws3 ++ rest)
                 = x :: core').
    { apply (@firstn_consumed _ (x :: core')). simpl. lia. }
    rewrite Hf. apply run_prefixed_after_class; auto.
  - intros a' b' E Hl. cbn beta.
    destruct (app_longer _ _ _ _ (eq_sym E) Hl) as [z [l [Ec ->]]].
    destruct (@suffix_last x y a' (z :: l) t) as [v' Ev]; [discriminate | |].
    { rewrite <- Ec. exact Et. }
    change (z :: l ++ ws2 ++ weight_text d ++ rparen :: ws3 ++ rest)
      with ((z :: l) ++ ws2 ++ weight_text d ++ rparen :: ws3 ++ rest).
    rewrite Ev. apply prefixed_after_class_refuses; auto.
    + rewrite <- Ev. rewrite Ec in Hcls.
      apply forallb_app_true in Hcls as [_ Hcls]. exact Hcls.
    + intros -> sp ds Es Hds. specialize (Hnw eq_refl).
      rewrite Ec, <- app_assoc, Ev, Es, app_assoc in Hnw.
      rewrite ends_in_weight_app in Hnw by exact Hds. discriminate.
Qed.

Lemma trim_fixed (s : jsstring) : trimmed s -> trim s = s.
Proof.
  intros Hs. rewrite <- (app_nil_r s) at 1.
  apply (@trim_trimmed [] s []); auto; reflexivity.
Qed.

Lemma trim_trimStart (s : jsstring) : trim (trimStart s) = trim s.
Proof.
  unfold trim. f_equal.
  destruct (trimStart s) as [|x t] eqn:E; [reflexivity|].
  apply trimStart_fixed. eapply trimStart_head; eauto.
Qed.

Lemma stops_trimStart (s : jsstring) : stops is_space (trimStart s).
Proof.
  destruct (trimStart s) as [|x t] eqn:E; simpl; [exact I|].
  eapply trimStart_head; eauto.
Qed.

Lemma parseInt10_decimal (ds : jsstring) :
  is_decimal ds = true ->
  Number.parseInt10 ds = Number.of_integer (Number.digits_value 0 ds).
Proof.
  intros Hd. destruct (is_decimal_cons _ Hd) as [d0 [ds' [-> [Hd0 _]]]].
  unfold Number.parseInt10. rewrite Hd0. reflexivity.
Qed.

(** What [parsePrefixedSkillName] returns on a name of the class-prefixed
    shape. *)
Lemma parsePrefixedSkillName_shape (c : jsstring) (d : option jsstring)
      (s : jsstring) :
  forallb not_rparen c = true ->
  trim c <> [] ->
  weight_ok d = true ->
  (d = None -> carries_weight c = false) ->
  forallb dot (trimStart s) = true ->
  parsePrefixedSkillName (prefixed_name c d s)
  = Some {| className := trim c;
            weight := weight_value d;
            skillName := trim s |}.
Proof.
  intros Hc Hne Hd Hcw Hs.
  pose proof (trim_is_trimmed _ Hne) as Htr.
  destruct (trim_split c) as [a [b [Ec [Ha Hb]]]].
  destruct (trim c) as [|x core'] eqn:Et; [congruence|]. clear Hne.
  destruct (trimmed_head Htr) as [x0 [t0 [E0 Hx]]]. injection E0 as <- <-.
  destruct (trimStart_split s) as [ws3 [Es H3]].
  pose proof (stops_trimStart s) as Hstop.
  rewrite <- (trim_trimStart s).
  remember (trimStart s) as rest eqn:Er.
  assert (Hnw : d = None -> ends_in_weight (core' ++ b) = false).
  { intros Hn. specialize (Hcw Hn). unfold carries_weight in Hcw.
    rewrite Ec, trimStart_spaces in Hcw by exact Ha.
    change ((x :: core') ++ b) with (x :: core' ++ b) in Hcw.
    rewrite trimStart_fixed in Hcw by exact Hx. exact Hcw. }
  assert (Hcls : forallb not_rparen (x :: core') = true).
  { rewrite Ec in Hc. apply forallb_app_true in Hc as [_ Hc].
    apply forallb_app_true in Hc as [Hc _]. exact Hc. }
  pose proof (@exec_prefixed a x core' b d ws3 rest Ha Hb H3 Htr Hcls Hd Hnw
                Hstop Hs) as Hex.
  unfold parsePrefixedSkillName, prefixed_name.
  replace (lparen :: c ++ weight_text d ++ rparen :: s)
    with (lparen :: a ++ (x :: core') ++ b ++ weight_text d
                 ++ rparen :: ws3 ++ rest).
  2:{ rewrite Es, Ec at 1. repeat rewrite <- app_assoc. reflexivity. }
  rewrite Hex. f_equal.
  assert (Hw : (if truthy (capture ((3, rest) :: match d with
                                                  | Some ds => [(2, ds)]
                                                  | None => []
                                                  end ++ [(1, x :: core')]) 2)
                then Number.parseInt10
                       (group ((3, rest) :: match d with
                                            | Some ds => [(2, ds)]
                                            | None => []
                                            end ++ [(1, x :: core')]) 2)
                else Finite 0) = weight_value d).
  { destruct d as [ds|]; simpl; [|reflexivity].
    unfold group; simpl. rewrite parseInt10_decimal by exact Hd.
    destruct ds; [discriminate | reflexivity]. }
  rewrite Hw. unfold group.
  destruct d; simpl; rewrite (trim_fixed Htr); reflexivity.
Qed.

(* ================================================================== *)
(** * Facts about the sort *)

Section SortFacts.
Local Open Scope Z_scope.
Context {A : Type} (cmp : A -> A -> Z).

Lemma insert_perm (x : A) (l : list A) : Permutation (x :: l) (insert cmp x l).
Proof.
  induction l as [|y l IH]; simpl; [reflexivity|].
  destruct (cmp x y <=? 0); [reflexivity|].
  rewrite perm_swap. constructor. exact IH.
Qed.

Lemma sort_perm (l : list A) : Permutation l (sort cmp l).
Proof.
  induction l as [|x l IH]; simpl; [reflexivity|].
  rewrite <- insert_perm. constructor. exact IH.
Qed.

Lemma sort_In (l : list A) (x : A) : In x (sort cmp l) <-> In x l.
Proof.
  split; apply Permutation_in; [symmetry|]; apply sort_perm.
Qed.

(** A comparator that is consistent on the elements that satisfy [P]. *)
Variable P : A -> Prop.
Hypothesis total : forall a b, P a -> P b -> cmp a b > 0 -> cmp b a <= 0.
Hypothesis trans :
  forall a b c, P a -> P b -> P c ->
                cmp a b <= 0 -> cmp b c <= 0 -> cmp a c <= 0.

Lemma insert_sorted (x : A) (l : list A) :
  P x -> Forall P l -> StronglySorted (le_by cmp) l ->
  StronglySorted (le_by cmp) (insert cmp x l).
Proof.
  intros Px Pl Hs. induction Hs as [|y l Hs IH Hy]; simpl.
  - constructor; constructor.
  - inversion Pl as [|? ? Py Pl']; subst.
    destruct (cmp x y <=? 0) eqn:E.
    + apply Z.leb_le in E. constructor; [constructor; assumption|].
      constructor; [exact E|].
      rewrite Forall_forall in *. intros z Hz.
      apply (trans Px Py (Pl' z Hz) E (Hy z Hz)).
    + apply Z.leb_gt in E. constructor; [apply IH; exact Pl'|].
      rewrite Forall_forall in *. intros z Hz.
      apply (Permutation_in _ (Permutation_sym (insert_perm x l))) in Hz.
      destruct Hz as [<- | Hz]; [apply total; auto; lia | auto].
Qed.

Lemma sort_sorted (l : list A) :
  Forall P l -> StronglySorted (le_by cmp) (sort cmp l).
Proof.
  induction l as [|x l IH]; simpl; intros Pl; [constructor|].
  inversion Pl as [|? ? Px Pl']; subst. apply insert_sorted; auto.
  apply Forall_forall. intros z Hz. apply -> sort_In in Hz.
  rewrite Forall_forall in Pl'. exact (Pl' z Hz).
Qed.

Lemma sorted_nth (l : list A) :
  StronglySorted (le_by cmp) l ->
  forall i j a b,
    (i < j)%nat -> nth_error l i = Some a -> nth_error l j = Some b ->
    cmp a b <= 0.
Proof.
  induction 1 as [|x l Hs IH Hx]; intros i j a b Hij Ha Hb.
  - destruct i; discriminate.
  - destruct j as [|j]; [lia|]. simpl in Hb.
    destruct i as [|i]; simpl in Ha.
    + injection Ha as <-. rewrite Forall_forall in Hx.
      apply Hx. eapply nth_error_In; eauto.
    + apply (IH i j); auto. lia.
Qed.

End SortFacts.

(** The element the sort leaves last: the last of the greatest ones. *)
Section SortLast.
Local Open Scope Z_scope.
Context {A : Type} (cmp : A -> A -> Z).

Lemma insert_after_all (w : A) (l : list A) :
  (forall y, In y l -> cmp w y > 0) -> insert cmp w l = l ++ [w].
Proof.
  induction l as [|y l IH]; simpl; intros H; [reflexivity|].
  assert ((cmp w y <=? 0) = false) as ->.
  { apply Z.leb_gt. specialize (H y (or_introl eq_refl)). lia. }
  rewrite IH; auto.
Qed.

Lemma insert_keeps_last (x w : A) (l : list A) :
  cmp x w <= 0 -> exists l', insert cmp x (l ++ [w]) = l' ++ [w].
Proof.
  intros H. induction l as [|y l [l' IH]]; simpl.
  - assert ((cmp x w <=? 0) = true) as -> by (apply Z.leb_le; exact H).
    exists [x]. reflexivity.
  - destruct (cmp x y <=? 0).
    + exists (x :: y :: l). reflexivity.
    + rewrite IH. exists (y :: l'). reflexivity.
Qed.

Lemma sort_last (pre post : list A) (w : A) :
  (forall x, In x pre -> cmp x w <= 0) ->
  (forall y, In y post -> cmp w y > 0) ->
  exists l', sort cmp (pre ++ w :: post) = l' ++ [w].
Proof.
  intros Hpre Hpost. induction pre as [|x pre IH]; simpl.
  - exists (sort cmp post). apply insert_after_all.
    intros y Hy. apply Hpost. apply (proj1 (sort_In cmp post y)). exact Hy.
  - destruct IH as [l' IH]; [intros; apply Hpre; right; assumption|].
    rewrite IH. apply insert_keeps_last. apply Hpre. left. reflexivity.
Qed.
End SortLast.



(* ================================================================== *)
(** * The naming pattern *)

Lemma is_letter_range (x : char) :
  is_letter x = true -> (65 <= x <= 90 \/ 97 <= x <= 122)%N.
Proof.
  unfold is_letter. rewrite orb_true_iff, !andb_true_iff, !N.leb_le. tauto.
Qed.

Lemma letter_not_space (x : char) : is_letter x = true -> is_space x = false.
Proof.
  intros H. apply is_letter_range in H. unfold is_space.
  destruct H; decide_units; reflexivity.
Qed.

Lemma letter_not_rparen (x : char) :
  is_letter x = true -> not_rparen x = true.
Proof.
  intros H. apply is_letter_range in H. unfold not_rparen, rparen.
  destruct H; decide_units; reflexivity.
Qed.

Lemma letter_not_caret (x : char) : is_letter x = true -> x <> caret.
Proof.
  intros H. apply is_letter_range in H. unfold caret. lia.
Qed.

Lemma letter_ascii (x : char) : is_letter x = true -> is_ascii x = true.
Proof.
  intros H. apply is_letter_range in H. unfold is_ascii.
  apply N.ltb_lt. lia.
Qed.

Lemma lit_i_letter (p x : char) :
  (97 <= p <= 122)%N -> lit_i p x = true -> is_letter x = true.
Proof.
  unfold lit_i, ascii_lower, is_letter. intros Hp H.
  replace ((65 <=? p) && (p <=? 90))%N with false in H
    by (symmetry; apply andb_false_iff; right; apply N.leb_gt; lia).
  destruct ((65 <=? x) && (x <=? 90))%N eqn:E; [reflexivity|].
  apply N.eqb_eq in H. subst x. simpl.
  apply andb_true_iff. split; apply N.leb_le; lia.
Qed.

Lemma lit_i_exact (p x : char) :
  (p < 65)%N -> lit_i p x = true -> x = p.
Proof.
  unfold lit_i, ascii_lower. intros Hp H.
  replace ((65 <=? p) && (p <=? 90))%N with false in H
    by (symmetry; apply andb_false_iff; left; apply N.leb_gt; lia).
  destruct ((65 <=? x) && (x <=? 90))%N eqn:E.
  - apply andb_true_iff in E as [E _]. apply N.leb_le in E.
    apply N.eqb_eq in H. lia.
  - apply N.eqb_eq in H. exact H.
Qed.

Lemma agrees_i_lower (w v : jsstring) :
  agrees_i w v <-> map ascii_lower v = map ascii_lower w.
Proof.
  unfold agrees_i. split.
  - induction 1 as [|p x w v Hpx _ IH]; simpl; [reflexivity|].
    unfold lit_i in Hpx. apply N.eqb_eq in Hpx. congruence.
  - revert v; induction w as [|p w IH]; intros [|x v] E; simpl in E;
      try discriminate; constructor.
    + unfold lit_i. apply N.eqb_eq. congruence.
    + apply IH. congruence.
Qed.

Lemma is_marker_agrees (M : jsstring) :
  is_marker M = true <-> agrees_i (js "customclass") M.
Proof.
  unfold is_marker. rewrite jseqb_eq, agrees_i_lower. reflexivity.
Qed.

Lemma agrees_i_letters (w v : jsstring) :
  Forall (fun p => (97 <= p <= 122)%N) w -> agrees_i w v ->
  forallb is_letter v = true.
Proof.
  intros Hw H. induction H as [|p x w v Hpx _ IH]; simpl; [reflexivity|].
  inversion Hw; subst. rewrite (@lit_i_letter p x), IH; auto.
Qed.

Lemma marker_letters (M : jsstring) :
  is_marker M = true -> forallb is_letter M = true /\ M <> [].
Proof.
  intros H. apply is_marker_agrees in H. split.
  - eapply agrees_i_letters; [|exact H].
    assert (Hl : forallb (fun p => (97 <=? p) && (p <=? 122))%N
                         (js "customclass") = true) by reflexivity.
    rewrite forallb_forall in Hl. apply Forall_forall. intros p Hp.
    apply Hl in Hp. apply andb_true_iff in Hp as [Hp1 Hp2].
    apply N.leb_le in Hp1, Hp2. auto.
  - intros ->. inversion H.
Qed.

Lemma letters_forall (p : char -> bool) (l : jsstring) :
  (forall x, is_letter x = true -> p x = true) ->
  forallb is_letter l = true -> forallb p l = true.
Proof.
  intros Hp Hl. rewrite forallb_forall in *. auto.
Qed.

Lemma letters_trimmed (l : jsstring) :
  forallb is_letter l = true -> l <> [] -> trimmed l.
Proof.
  intros Hl Hne. destruct l as [|x t]; [congruence|].
  simpl in Hl. apply andb_true_iff in Hl as [Hx Ht].
  destruct t as [|z t0]; [constructor; apply letter_not_space; exact Hx|].
  destruct (@exists_last _ (z :: t0)) as [t' [y Ey]]; [discriminate|].
  rewrite Ey in *. constructor; [apply letter_not_space; exact Hx|].
  apply forallb_app_true in Ht as [_ Hy]. simpl in Hy.
  apply andb_true_iff in Hy as [Hy _]. apply letter_not_space. exact Hy.
Qed.

Lemma run_group_plus_eol n p i x s c :
  p x = true -> forallb p s = true ->
  run (Group n (Plus true p) ;; Eol) i (x :: s) c accept
  = Some ((n, x :: s) :: c).
Proof.
  intros Hx Hs. cbn [run Plus]. rewrite Hx.
  match goal with |- star_greedy _ _ _ _ ?k = _ =>
    pose proof (@star_greedy_longest p (S i) s [] c k ((n, x :: s) :: c) Hs I)
      as H
  end.
  rewrite app_nil_r in H. apply H. cbn beta iota.
  assert (Hf : firstn (S i + length s - i) (x :: s) = x :: s).
  { replace (S i + length s - i) with (length (x :: s))
      by (cbn [length]; lia).
    apply firstn_all. }
  rewrite Hf. reflexivity.
Qed.

(** The match of the naming pattern on a name of the naming shape whose
    label starts with a character that is not whitespace. *)
Lemma exec_naming ws1 M ws2 ws3 y rest :
  spaces ws1 -> is_marker M = true -> spaces ws2 -> spaces ws3 ->
  is_space y = false -> forallb dot (y :: rest) = true ->
  exec REGEX_NAMING_ITEM (naming_name ws1 M ws2 (ws3 ++ y :: rest))
  = Some [(1, y :: rest)].
Proof.
  intros H1 HM H2 H3 Hy Hrest.
  destruct (marker_letters _ HM) as [HMl HMne].
  apply is_marker_agrees in HM.
  unfold naming_name, REGEX_NAMING_ITEM. rewrite search_anchored.
  cbn [run Nat.eqb]. change (lit_i lparen lparen) with true. cbn iota.
  apply star_greedy_longest; [exact H1 | |].
  { destruct M as [|m0 M']; [congruence|]. simpl in HMl |- *.
    apply andb_true_iff in HMl as [Hm0 _]. apply letter_not_space. exact Hm0. }
  cbn beta. rewrite (run_word _ _ _ _ _ _ HM). cbn [run].
  apply star_greedy_longest; [exact H2 | reflexivity |].
  cbn beta. change (lit_i rparen rparen) with true. cbn iota.
  apply star_greedy_longest; [exact H3 | exact Hy |].
  cbn beta. simpl in Hrest. apply andb_true_iff in Hrest as [Hdy Hrest].
  apply (@run_group_plus_eol 1 dot _ y rest []); assumption.
Qed.

(** Every match of the naming pattern has the naming shape. *)
Lemma naming_sound (n : jsstring) (m : caps) :
  exec REGEX_NAMING_ITEM n = Some m ->
  exists a1 M a2 a3 g,
    n = naming_name a1 M a2 (a3 ++ g)
    /\ spaces a1 /\ is_marker M = true /\ spaces a2 /\ spaces a3
    /\ g <> [] /\ forallb dot g = true /\ m = [(1, g)].
Proof.
  intros E. unfold exec in E.
  apply search_sound in E as [pre [a [rest [En Hm]]]].
  unfold REGEX_NAMING_ITEM in Hm. cbn [matches] in Hm.
  destruct Hm as [a1 [a2 [c1 [-> [[Hpre [-> ->]] Hm]]]]].
  destruct Hm as [a3 [a4 [c2 [-> [[x [-> [Hx ->]]] Hm]]]]].
  destruct Hm as [a5 [a6 [c3 [-> [[H5 ->] Hm]]]]].
  apply matches_word in Hm as [M [a7 [-> [HM Hm]]]].
  cbn [matches Plus] in Hm.
  destruct Hm as [b1 [b2 [c4 [-> [[Hb1 ->] Hm]]]]].
  destruct Hm as [b3 [b4 [c5 [-> [[z [-> [Hz ->]]] Hm]]]]].
  destruct Hm as [b5 [b6 [c6 [-> [[Hb5 ->] Hm]]]]].
  destruct Hm as [b7 [b8 [c7 [-> [[c8 [Hg ->]] [-> [-> ->]]]]]]].
  destruct Hg as [e1 [e2 [c9 [-> [[y [-> [Hy ->]]] [He2 ->]]]]]].
  apply lit_i_exact in Hx; [|reflexivity]. apply lit_i_exact in Hz; [|reflexivity].
  subst x z. destruct pre; [|simpl in Hpre; lia].
  exists a5, M, b1, b5, (y :: e2). subst n. unfold naming_name. simpl.
  repeat rewrite <- app_assoc. simpl. repeat rewrite app_nil_r.
  repeat split; auto.
  - apply is_marker_agrees. exact HM.
  - discriminate.
  - simpl. rewrite Hy. exact He2.
Qed.

Lemma parseNamingItem_shape (ws1 M ws2 s : jsstring) :
  spaces ws1 -> is_marker M = true -> spaces ws2 ->
  trim s <> [] -> forallb dot (trimStart s) = true ->
  parseNamingItem (naming_name ws1 M ws2 s) = Some (trim s).
Proof.
  intros H1 HM H2 Hne Hs.
  destruct (trimStart_split s) as [ws3 [Es H3]].
  rewrite <- (trim_trimStart s) in *.
  destruct (trimStart s) as [|y rest] eqn:Et.
  - exfalso. apply Hne. reflexivity.
  - assert (Hy : is_space y = false) by (eapply trimStart_head; eauto).
    unfold parseNamingItem. rewrite Es.
    rewrite exec_naming; auto.
Qed.

(** A name whose parenthesis holds something else than the marker is not
    a naming item, and the label of a naming item is read after the
    parenthesis. *)
Lemma parseNamingItem_inv (c s l : jsstring) :
  ~ In rparen c ->
  parseNamingItem (lparen :: c ++ rparen :: s) = Some l ->
  exists a1 M a2 a3 g,
    c = a1 ++ M ++ a2 /\ s = a3 ++ g
    /\ spaces a1 /\ is_marker M = true /\ spaces a2 /\ spaces a3
    /\ l = trim g.
Proof.
  intros Hc. unfold parseNamingItem.
  destruct (exec REGEX_NAMING_ITEM _) as [m|] eqn:E; [|discriminate].
  intros El. injection El as <-.
  apply naming_sound in E
    as [a1 [M [a2 [a3 [g [En [H1 [HM [H2 [H3 [Hg [Hd ->]]]]]]]]]]]].
  unfold naming_name in En. injection En as En.
  assert (En' : c ++ rparen :: s = (a1 ++ M ++ a2) ++ rparen :: a3 ++ g).
  { rewrite En. repeat rewrite <- app_assoc. reflexivity. }
  apply split_first in En' as [-> ->]; [| exact Hc |].
  - exists a1, M, a2, a3, g. repeat split; auto.
  - destruct (marker_letters _ HM) as [HMl _].
    intros Hin. apply in_app_or in Hin as [Hin | Hin].
    + revert Hin. apply not_In_rparen_spaces. exact H1.
    + apply in_app_or in Hin as [Hin | Hin].
      * revert Hin. apply not_In_rparen_class.
        apply (@letters_forall not_rparen M letter_not_rparen HMl).
      * revert Hin. apply not_In_rparen_spaces. exact H2.
Qed.

Lemma truthy_false (v : option jsstring) :
  truthy v = false <-> v = None \/ v = Some [].
Proof.
  destruct v as [[|x t]|]; simpl; split; intros H; auto;
    try discriminate; destruct H; discriminate.
Qed.

(** With only whitespace after the parenthesis there is no label. *)
Lemma parseNamingItem_blank (c s : jsstring) :
  ~ In rparen c -> spaces s ->
  truthy (parseNamingItem (lparen :: c ++ rparen :: s)) = false.
Proof.
  intros Hc Hs. apply truthy_false.
  destruct (parseNamingItem _) as [l|] eqn:E; [right | left; reflexivity].
  apply parseNamingItem_inv in E
    as [a1 [M [a2 [a3 [g [_ [-> [_ [_ [_ [_ ->]]]]]]]]]]]; [|exact Hc].
  apply forallb_app_true in Hs as [_ Hg].
  rewrite trim_all_spaces; auto.
Qed.

(** With whitespace only, or a weight, inside the parenthesis the name is
    not a naming item. *)
Lemma parseNamingItem_no_marker (c s : jsstring) :
  ~ In rparen c ->
  (forall M, is_marker M = true -> forall a1 a2, c <> a1 ++ M ++ a2) ->
  parseNamingItem (lparen :: c ++ rparen :: s) = None.
Proof.
  intros Hc Hno. destruct (parseNamingItem _) as [l|] eqn:E; [|reflexivity].
  apply parseNamingItem_inv in E
    as [a1 [M [a2 [a3 [g [Ec [_ [_ [HM _]]]]]]]]]; [|exact Hc].
  exfalso. exact (Hno M HM a1 a2 Ec).
Qed.

(* ================================================================== *)
(** * Facts about the classification *)

Lemma foldM_app {A S : Type} (f : S -> A -> result S) (l1 l2 : list A) (s : S) :
  foldM f (l1 ++ l2) s = (s' <- foldM f l1 s ;;; foldM f l2 s').
Proof.
  revert s; induction l1 as [|x l1 IH]; intros s; simpl; [reflexivity|].
  destruct (f s x); simpl; auto.
Qed.

Lemma filterM_pure {A : Type} (f : A -> result bool) (p : A -> bool)
      (l : list A) :
  (forall x, In x l -> f x = Ok (p x)) -> filterM f l = Ok (filter p l).
Proof.
  induction l as [|x l IH]; intros H; simpl; [reflexivity|].
  rewrite (H x (or_introl eq_refl)). simpl.
  rewrite IH by (intros; apply H; right; assumption). reflexivity.
Qed.

Lemma filterM_skip {A : Type} (f : A -> result bool) (l1 l2 : list A) (r : A) :
  f r = Ok false -> filterM f (l1 ++ r :: l2) = filterM f (l1 ++ l2).
Proof.
  intros Hr. induction l1 as [|x l1 IH]; simpl.
  - rewrite Hr. simpl. destruct (filterM f l2); reflexivity.
  - rewrite IH. reflexivity.
Qed.

Lemma own_In (g : object) (key : jsstring) (ms : list Member) :
  own g key = Some ms -> In (key, ms) g.
Proof.
  induction g as [|[k v] g IH]; simpl; [discriminate|].
  destruct (jseqb k key) eqn:E.
  - apply jseqb_eq in E. intros H. injection H as <-. left. congruence.
  - auto.
Qed.

Lemma set_own_In (g : object) (key : jsstring) (v : list Member)
      (k : jsstring) (ms : list Member) :
  In (k, ms) (set_own g key v) -> In (k, ms) g \/ (k = key /\ ms = v).
Proof.
  induction g as [|[k0 v0] g IH]; simpl; [tauto|].
  destruct (jseqb k0 key) eqn:E; simpl.
  - apply jseqb_eq in E. intros [H | H]; [|auto].
    injection H as <- <-. auto.
  - intros [H | H]; [auto|]. apply IH in H. tauto.
Qed.

Lemma set_own_keeps (g : object) (key : jsstring) (ms0 : list Member)
      (m : Member) (k : jsstring) (ms : list Member) (x : Member) :
  own g key = Some ms0 -> In (k, ms) g -> In x ms ->
  exists ms', In (k, ms') (set_own g key (ms0 ++ [m])) /\ In x ms'.
Proof.
  induction g as [|[k0 v0] g IH]; simpl; [tauto|].
  destruct (jseqb k0 key) eqn:E.
  - intros H0 [H | H] Hx.
    + injection H0 as <-. injection H as <- <-.
      exists (v0 ++ [m]). split; [left; reflexivity|].
      apply in_or_app. auto.
    + exists ms. split; [right|]; assumption.
  - intros H0 [H | H] Hx.
    + exists ms. split; [left|]; assumption.
    + destruct (IH H0 H Hx) as [ms' [H1 H2]].
      exists ms'. split; [right|]; assumption.
Qed.

Lemma set_own_has (g : object) (key : jsstring) (ms0 v : list Member) :
  own g key = Some ms0 -> In (key, v) (set_own g key v).
Proof.
  induction g as [|[k0 v0] g IH]; simpl; [discriminate|].
  destruct (jseqb k0 key) eqn:E.
  - apply jseqb_eq in E. subst k0. intros _. left. reflexivity.
  - intros H. right. auto.
Qed.

Lemma push_member_In (g g' : object) (key : jsstring) (m : Member) :
  push_member g key m = Ok g' ->
  forall k ms x,
    In (k, ms) g' -> In x ms ->
    (k = key /\ x = m) \/ exists ms0, In (k, ms0) g /\ In x ms0.
Proof.
  unfold push_member, get_property.
  destruct (own g key) as [ms0|] eqn:E.
  - intros H. injection H as <-. intros k ms x Hin Hx.
    apply set_own_In in Hin as [Hin | [-> ->]]; [right; eauto|].
    apply in_app_or in Hx as [Hx | [<- | []]]; [|auto].
    right. exists ms0. split; [apply own_In; exact E | exact Hx].
  - destruct (existsb (jseqb key) Object_prototype_keys); [discriminate|].
    intros H. injection H as <-. intros k ms x Hin Hx.
    apply in_app_or in Hin as [Hin | [Hin | []]]; [right; eauto|].
    injection Hin as <- <-. destruct Hx as [<- | []]. auto.
Qed.

Lemma push_member_keeps (g g' : object) (key : jsstring) (m : Member) :
  push_member g key m = Ok g' ->
  forall k ms x,
    In (k, ms) g -> In x ms -> exists ms', In (k, ms') g' /\ In x ms'.
Proof.
  unfold push_member, get_property.
  destruct (own g key) as [ms0|] eqn:E.
  - intros H. injection H as <-. intros k ms x Hin Hx.
    eapply set_own_keeps; eauto.
  - destruct (existsb (jseqb key) Object_prototype_keys); [discriminate|].
    intros H. injection H as <-. intros k ms x Hin Hx.
    exists ms. split; [apply in_or_app; left|]; assumption.
Qed.

Lemma push_member_has (g g' : object) (key : jsstring) (m : Member) :
  push_member g key m = Ok g' -> exists ms, In (key, ms) g' /\ In m ms.
Proof.
  unfold push_member, get_property.
  destruct (own g key) as [ms0|] eqn:E.
  - intros H. injection H as <-. exists (ms0 ++ [m]). split.
    + eapply set_own_has; eauto.
    + apply in_or_app. right. left. reflexivity.
  - destruct (existsb (jseqb key) Object_prototype_keys); [discriminate|].
    intros H. injection H as <-. exists [m]. split.
    + apply in_or_app. right. left. reflexivity.
    + left. reflexivity.
Qed.

Lemma push_member_total (g : object) (key : jsstring) (m : Member) :
  existsb (jseqb key) Object_prototype_keys = false ->
  exists g', push_member g key m = Ok g'.
Proof.
  intros H. unfold push_member, get_property. rewrite H.
  destruct (own g key); eauto.
Qed.

Section Classification.
Context {host : Host}.

Lemma classify_item_sound (items : list Item) (acc acc' : Grouping)
      (it : Item) :
  In it items -> sound items acc -> classify_item acc it = Ok acc' ->
  sound items acc'.
Proof.
  intros Hit [Ho Hg]. unfold classify_item.
  destruct (is_skill it) eqn:Esk; simpl;
    [|intros E; injection E as <-; split; assumption].
  destruct (name it) as [n|] eqn:En; simpl; [|discriminate].
  destruct (truthy (parseNamingItem n)) eqn:Et;
    [intros E; injection E as <-; split; assumption|].
  destruct (parsePrefixedSkillName n) as [p|] eqn:Ep.
  - destruct (is_reserved p) eqn:Er;
      [intros E; injection E as <-; split; assumption|].
    destruct (push_member _ _ _) as [g|] eqn:Epush; simpl; [|discriminate].
    intros E. injection E as <-. split; simpl; [exact Ho|].
    intros k ms m Hin Hm.
    destruct (push_member_In _ _ _ Epush _ _ _ Hin Hm)
      as [[-> ->] | [ms0 [Hin0 Hm0]]]; [|eauto].
    split; [exact Hit|]. split; [exact Esk|]. exists n. simpl. auto 6.
  - intros E. injection E as <-. split; simpl; [|exact Hg].
    intros x Hx. apply in_app_or in Hx as [Hx | [<- | []]]; [auto|].
    split; [exact Hit|]. split; [exact Esk|]. exists n. auto.
Qed.

Lemma foldM_sound (items l : list Item) :
  forall acc acc',
    (forall x, In x l -> In x items) -> sound items acc ->
    foldM classify_item l acc = Ok acc' -> sound items acc'.
Proof.
  induction l as [|x l IH]; intros acc acc' Hl Hs; simpl.
  - intros E. injection E as <-. exact Hs.
  - destruct (classify_item acc x) as [acc1|] eqn:E1; simpl; [|discriminate].
    apply IH; [intros; apply Hl; right; assumption|].
    eapply classify_item_sound; eauto. apply Hl. left. reflexivity.
Qed.

Lemma grouped_sorted_In (g : object) (k : jsstring) (ms : list Member) :
  In (k, ms) (map (fun kv => (fst kv, sort compareMembers (snd kv))) g) ->
  exists ms0, In (k, ms0) g /\ ms = sort compareMembers ms0.
Proof.
  intros H. apply in_map_iff in H as [[k0 ms0] [E Hin]].
  simpl in E. injection E as <- <-. eauto.
Qed.

(** Every entry of the result is an item of the actor that the loop
    classified so. *)
Lemma groupActorSkills_sound (items : list Item) (g : Grouping) :
  groupActorSkills items = Ok g -> sound items g.
Proof.
  unfold groupActorSkills.
  destruct (foldM classify_item items _) as [acc|] eqn:E; simpl; [|discriminate].
  intros Eg. injection Eg as <-.
  apply (@foldM_sound items) in E; [| auto | split; simpl; tauto].
  destruct E as [Ho Hg]. split; simpl.
  - intros it Hit. apply -> (sort_In compareItemNames) in Hit. auto.
  - intros k ms m Hin Hm.
    apply grouped_sorted_In in Hin as [ms0 [Hin ->]].
    apply -> (sort_In compareMembers) in Hm. eauto.
Qed.

Lemma classify_item_keeps (acc acc' : Grouping) (it : Item) :
  classify_item acc it = Ok acc' ->
  (forall x, In x (occupational acc) -> In x (occupational acc'))
  /\ (forall k ms m, In (k, ms) (grouped acc) -> In m ms ->
                     exists ms', In (k, ms') (grouped acc') /\ In m ms').
Proof.
  unfold classify_item.
  destruct (is_skill it); simpl; [|intros E; injection E as <-; eauto].
  destruct (name it) as [n|]; simpl; [|discriminate].
  destruct (truthy (parseNamingItem n)); [intros E; injection E as <-; eauto|].
  destruct (parsePrefixedSkillName n) as [p|].
  - destruct (is_reserved p); [intros E; injection E as <-; eauto|].
    destruct (push_member _ _ _) as [g|] eqn:Epush; simpl; [|discriminate].
    intros E. injection E as <-. simpl. split; [auto|].
    intros k ms m. eapply push_member_keeps; eauto.
  - intros E. injection E as <-. simpl. split; [|eauto].
    intros x Hx. apply in_or_app. auto.
Qed.

Lemma foldM_keeps (l : list Item) :
  forall acc acc',
    foldM classify_item l acc = Ok acc' ->
    (forall x, In x (occupational acc) -> In x (occupational acc'))
    /\ (forall k ms m, In (k, ms) (grouped acc) -> In m ms ->
                       exists ms', In (k, ms') (grouped acc') /\ In m ms').
Proof.
  induction l as [|x l IH]; intros acc acc'; simpl.
  - intros E. injection E as <-. eauto.
  - destruct (classify_item acc x) as [acc1|] eqn:E1; simpl; [|discriminate].
    intros E. destruct (classify_item_keeps _ _ E1) as [Ho1 Hg1].
    destruct (IH _ _ E) as [Ho Hg]. split; [auto|].
    intros k ms m Hin Hm. destruct (Hg1 _ _ _ Hin Hm) as [ms1 [H1 H2]].
    eauto.
Qed.

(** Every item of the actor the loop classifies is in the result. *)
Lemma foldM_complete (l : list Item) :
  forall acc acc',
    foldM classify_item l acc = Ok acc' ->
    forall it, In it l ->
      (occupational_item it -> In it (occupational acc'))
      /\ (forall p, group_member (className p) {| item := it; parsed := p |} ->
                    exists ms, In (className p, ms) (grouped acc')
                               /\ In {| item := it; parsed := p |} ms).
Proof.
  induction l as [|x l IH]; intros acc acc'; simpl; [tauto|].
  destruct (classify_item acc x) as [acc1|] eqn:E1; simpl; [|discriminate].
  intros E it [<- | Hit]; [|eapply IH; eauto].
  destruct (foldM_keeps _ _ E) as [Ho Hg].
  unfold classify_item in E1. split.
  - intros [Hsk [n [En [Et Ep]]]]. rewrite Hsk, En in E1. simpl in E1.
    rewrite Et, Ep in E1. injection E1 as <-. apply Ho. simpl.
    apply in_or_app. right. left. reflexivity.
  - intros p [Hsk [n [En [Et [Ep [Er _]]]]]]. simpl in *.
    rewrite Hsk, En in E1. simpl in E1. rewrite Et, Ep, Er in E1.
    destruct (push_member _ _ _) as [g|] eqn:Epush; simpl in E1; [|discriminate].
    injection E1 as <-. apply push_member_has in Epush as [ms [H1 H2]].
    eapply Hg; eauto.
Qed.

Lemma groupActorSkills_complete (items : list Item) (g : Grouping) :
  groupActorSkills items = Ok g ->
  forall it, In it items ->
    (occupational_item it -> In it (occupational g))
    /\ (forall p, group_member (className p) {| item := it; parsed := p |} ->
                  exists ms, In (className p, ms) (grouped g)
                             /\ In {| item := it; parsed := p |} ms).
Proof.
  unfold groupActorSkills.
  destruct (foldM classify_item items _) as [acc|] eqn:E; simpl; [|discriminate].
  intros Eg. injection Eg as <-. intros it Hit.
  destruct (foldM_complete _ _ E _ Hit) as [Ho Hg]. split; simpl.
  - intros H. apply (sort_In compareItemNames). auto.
  - intros p H. destruct (Hg p H) as [ms [H1 H2]].
    exists (sort compareMembers ms). split.
    + apply in_map_iff. exists (className p, ms). auto.
    + apply (sort_In compareMembers). exact H2.
Qed.

Lemma foldM_total (l : list Item) :
  named l -> safe_keys l ->
  forall acc, exists acc', foldM classify_item l acc = Ok acc'.
Proof.
  induction l as [|x l IH]; intros Hn Hk acc; simpl; [eauto|].
  assert (exists acc1, classify_item acc x = Ok acc1) as [acc1 E1].
  { unfold classify_item. destruct (is_skill x) eqn:Esk; simpl; [|eauto].
    destruct (name x) as [n|] eqn:En;
      [|exfalso; apply (Hn x); auto; left; reflexivity].
    simpl. destruct (truthy (parseNamingItem n)); [eauto|].
    destruct (parsePrefixedSkillName n) as [p|] eqn:Ep; [|eauto].
    destruct (is_reserved p); [eauto|].
    destruct (@push_member_total (grouped acc) (className p)
                {| item := x; parsed := p |}) as [g Eg].
    { apply (Hk x n p); auto. left. reflexivity. }
    rewrite Eg. simpl. eauto. }
  rewrite E1. simpl. apply IH.
  - intros it Hit. apply Hn. right. exact Hit.
  - intros it n p Hit. apply Hk. right. exact Hit.
Qed.

Lemma groupActorSkills_total (items : list Item) :
  named items -> safe_keys items -> exists g, groupActorSkills items = Ok g.
Proof.
  intros Hn Hk. unfold groupActorSkills.
  destruct (foldM_total Hn Hk {| grouped := []; occupational := [] |})
    as [acc ->].
  simpl. eauto.
Qed.
End Classification.

(* ================================================================== *)
(** * The comparators are consistent *)

Section Comparators.
Context {host : Host}.
Local Open Scope Z_scope.

Lemma localeCompare_refl (a : jsstring) : localeCompare a a = 0.
Proof.
  pose proof (localeCompare_antisym a a) as H.
  pose proof (Z.sgn_spec (localeCompare a a)). lia.
Qed.

Lemma localeCompare_flip (a b : jsstring) :
  (localeCompare a b > 0 <-> localeCompare b a < 0)
  /\ (localeCompare a b = 0 <-> localeCompare b a = 0).
Proof.
  pose proof (localeCompare_antisym a b) as H.
  pose proof (Z.sgn_spec (localeCompare a b)).
  pose proof (Z.sgn_spec (localeCompare b a)). lia.
Qed.






End Comparators.

(* ================================================================== *)
(** * Facts about the naming skill *)

Section NamingSkill.
Context {host : Host}.
Local Open Scope Z_scope.

Lemma is_naming_skill_named (it : Item) :
  (is_skill it = true -> name it <> None) ->
  is_naming_skill it = Ok (naming_skill it).
Proof.
  unfold is_naming_skill, naming_skill. intros H.
  destruct (is_skill it); [|reflexivity].
  destruct (name it); [reflexivity | exfalso; apply H; reflexivity].
Qed.

Lemma namingSkills_named (items : list Item) :
  named items ->
  filterM is_naming_skill items = Ok (filter naming_skill items).
Proof.
  intros Hn. apply filterM_pure. intros x Hx.
  apply is_naming_skill_named. apply Hn. exact Hx.
Qed.

(** The naming skill is the last of the naming skills with the greatest
    update time. *)
Lemma namingSkill_last (pre post : list Item) (w : Item) :
  named (pre ++ w :: post) ->
  naming_skill w = true ->
  (forall x, In x pre -> naming_skill x = true -> time x <= time w) ->
  (forall x, In x post -> naming_skill x = true -> time x < time w) ->
  namingSkill (pre ++ w :: post) = Ok (Some w).
Proof.
  intros Hn Hw Hpre Hpost. unfold namingSkill.
  rewrite namingSkills_named by exact Hn. simpl.
  rewrite filter_app. simpl. rewrite Hw.
  destruct (@sort_last _ compareUpdateTime (filter naming_skill pre)
              (filter naming_skill post) w) as [l' El].
  - intros x Hx. apply filter_In in Hx as [Hx Hnx].
    unfold compareUpdateTime. specialize (Hpre x Hx Hnx). lia.
  - intros x Hx. apply filter_In in Hx as [Hx Hnx].
    unfold compareUpdateTime. specialize (Hpost x Hx Hnx). lia.
  - rewrite El, rev_app_distr. simpl.
    destruct (filter naming_skill pre ++ w :: filter naming_skill post) eqn:E;
      [|reflexivity].
    exfalso. eapply app_cons_not_nil. symmetry. exact E.
Qed.

Lemma namingSkill_none (items : list Item) :
  named items ->
  (forall x, In x items -> naming_skill x = false) ->
  namingSkill items = Ok None.
Proof.
  intros Hn Hno. unfold namingSkill.
  rewrite namingSkills_named by exact Hn. simpl.
  assert (filter naming_skill items = []) as ->; [|reflexivity].
  induction items as [|x l IH]; simpl; [reflexivity|].
  rewrite (Hno x) by (left; reflexivity).
  apply IH.
  - intros it Hit. apply Hn. right. exact Hit.
  - intros y Hy. apply Hno. right. exact Hy.
Qed.

(** An item the filter drops has no part in the choice. *)
Lemma namingSkill_skip (l1 l2 : list Item) (r : Item) :
  is_naming_skill r = Ok false ->
  namingSkill (l1 ++ r :: l2) = namingSkill (l1 ++ l2).
Proof.
  intros Hr. unfold namingSkill. rewrite filterM_skip by exact Hr.
  reflexivity.
Qed.

Lemma toLowerCase_letters (l : jsstring) :
  forallb is_letter l = true -> toLowerCase l = map ascii_lower l.
Proof.
  intros H. apply toLowerCase_ascii.
  apply (@letters_forall is_ascii l letter_ascii H).
Qed.

Lemma toLowerCase_NAMING_TOKEN :
  toLowerCase NAMING_TOKEN = js "customclass".
Proof. rewrite toLowerCase_ascii; reflexivity. Qed.

(** The guard sees the marker in any mix of cases. *)
Lemma is_reserved_marker (p : Parsed) :
  is_marker (trim (className p)) = true -> is_reserved p = true.
Proof.
  intros HM. unfold is_reserved.
  destruct (marker_letters _ HM) as [Hl _].
  rewrite toLowerCase_letters by exact Hl.
  rewrite toLowerCase_NAMING_TOKEN. exact HM.
Qed.

Lemma is_reserved_empty (p : Parsed) :
  className p = [] -> is_reserved p = false.
Proof.
  intros E. unfold is_reserved. rewrite E, toLowerCase_NAMING_TOKEN.
  rewrite toLowerCase_ascii by reflexivity. reflexivity.
Qed.

Lemma is_skill_ascii (it : Item) (t : jsstring) :
  type it = Some t -> forallb is_ascii t = true ->
  is_skill it = jseqb (map ascii_lower t) (js "skill").
Proof.
  intros Et Ha. unfold is_skill. rewrite Et. simpl.
  rewrite toLowerCase_ascii by exact Ha. reflexivity.
Qed.
End NamingSkill.

Lemma spaces_not_rparen (l : jsstring) :
  spaces l -> forallb not_rparen l = true.
Proof.
  unfold spaces. intros H. rewrite forallb_forall in *. intros x Hx.
  apply H in Hx. unfold not_rparen.
  destruct (N.eqb_spec x rparen) as [-> | _]; [discriminate | reflexivity].
Qed.

Lemma ends_in_weight_no_caret (t : jsstring) :
  ~ In caret t -> ends_in_weight t = false.
Proof.
  induction t as [|x t IH]; simpl; [reflexivity|].
  intros H. rewrite IH by tauto.
  destruct (N.eqb_spec x caret) as [-> | _]; [tauto | reflexivity].
Qed.

(** The marker with whitespace around it is a class text as the
    class-prefixed pattern reads one. *)
Lemma marker_class_text (ws1 M ws2 : jsstring) :
  spaces ws1 -> is_marker M = true -> spaces ws2 ->
  forallb not_rparen (ws1 ++ M ++ ws2) = true
  /\ trim (ws1 ++ M ++ ws2) = M
  /\ carries_weight (ws1 ++ M ++ ws2) = false.
Proof.
  intros H1 HM H2. destruct (marker_letters _ HM) as [HMl HMne].
  pose proof (letters_trimmed HMl HMne) as HMt.
  split; [|split].
  - apply forallb_app_true. split; [apply spaces_not_rparen; exact H1|].
    apply forallb_app_true. split; [|apply spaces_not_rparen; exact H2].
    apply (@letters_forall not_rparen M letter_not_rparen HMl).
  - apply trim_trimmed; assumption.
  - unfold carries_weight. rewrite trimStart_spaces by exact H1.
    destruct M as [|m0 M']; [congruence|].
    simpl in HMl. apply andb_true_iff in HMl as [Hm0 HMl'].
    change ((m0 :: M') ++ ws2) with (m0 :: M' ++ ws2).
    rewrite trimStart_fixed by (apply letter_not_space; exact Hm0).
    apply ends_in_weight_no_caret. intros Hin.
    apply in_app_or in Hin as [Hin | Hin].
    + rewrite forallb_forall in HMl'. apply HMl' in Hin.
      discriminate Hin.
    + unfold spaces in H2. rewrite forallb_forall in H2.
      apply H2 in Hin. discriminate.
Qed.

(* ================================================================== *)
(** * What the loop discards and what the naming skill is *)

Section Discarded.
Context {host : Host}.

(** An item whose name parses with the reserved class name is in no
    part of the result. *)
Lemma reserved_discarded (items : list Item) (g : Grouping) (r : Item)
      (n : jsstring) (p : Parsed) :
  groupActorSkills items = Ok g ->
  name r = Some n -> parsePrefixedSkillName n = Some p ->
  is_reserved p = true ->
  ~ In r (occupational g)
  /\ (forall k ms m, In (k, ms) (grouped g) -> In m ms -> item m <> r).
Proof.
  intros Hg Hn Hp Hr. destruct (groupActorSkills_sound _ Hg) as [Ho Hgr].
  split.
  - intros Hin. destruct (Ho _ Hin) as [_ [_ [n' [Hn' [_ Hp']]]]].
    congruence.
  - intros k ms m Hin Hm E.
    destruct (Hgr _ _ _ Hin Hm) as [_ [_ [n' [Hn' [_ [Hp' [Hr' _]]]]]]].
    rewrite E in Hn'. congruence.
Qed.

Lemma namingSkill_total (items : list Item) :
  named items ->
  exists r, namingSkill items = Ok r
            /\ match r with
               | Some w => In w items /\ naming_skill w = true
               | None => forall x, In x items -> naming_skill x = false
               end.
Proof.
  intros Hn. unfold namingSkill.
  rewrite namingSkills_named by exact Hn. simpl.
  destruct (filter naming_skill items) as [|x l] eqn:E.
  - exists None. split; [reflexivity|]. intros y Hy.
    destruct (naming_skill y) eqn:Ey; [|reflexivity].
    assert (In y (filter naming_skill items)) as Hin
        by (apply filter_In; auto).
    rewrite E in Hin. destruct Hin.
  - destruct (rev (sort compareUpdateTime (x :: l))) as [|w t] eqn:Er.
    + exfalso. apply (f_equal (@length Item)) in Er.
      rewrite length_rev in Er.
      pose proof (Permutation_length (sort_perm compareUpdateTime (x :: l))).
      simpl in *. lia.
    + exists (Some w). split; [reflexivity|].
      assert (In w (x :: l)) as Hin.
      { apply (sort_In compareUpdateTime). apply in_rev.
        rewrite Er. left. reflexivity. }
      rewrite <- E in Hin. apply filter_In in Hin. exact Hin.
Qed.

End Discarded.

(* ================================================================== *)
(** * Parentheses that hold whitespace only *)

Lemma space_not_rparen (z : char) : is_space z = true -> not_rparen z = true.
Proof.
  intros Hz. unfold not_rparen.
  destruct (N.eqb_spec z rparen) as [-> | _]; [discriminate | reflexivity].
Qed.

(** The greedy whitespace gives its last character back to group 1. *)
Lemma exec_prefixed_blank ws' z ws3 rest :
  spaces ws' -> is_space z = true -> spaces ws3 ->
  stops is_space rest -> forallb dot rest = true ->
  exec REGEX_PREFIXED_SKILL (lparen :: (ws' ++ [z]) ++ rparen :: ws3 ++ rest)
  = Some [(3, rest); (1, [z])].
Proof.
  intros H1 Hz H3 Hstop Hrest.
  rewrite REGEX_PREFIXED_SKILL_eq, search_anchored.
  cbn [run Plus Nat.eqb]. change (lit lparen lparen) with true. cbn iota.
  rewrite <- app_assoc. cbn [app].
  apply star_greedy_pick; [exact H1 | |].
  - cbn beta. rewrite (space_not_rparen _ Hz).
    match goal with |- star_lazy _ _ _ _ ?k = _ =>
      apply (@star_lazy_pick not_rparen (S (1 + length ws')) []
               (rparen :: ws3 ++ rest) [] k)
    end; [reflexivity | | simpl; intros; lia].
    cbn beta.
    assert (Hf : firstn (S (1 + length ws') + length (@nil char)
                         - (1 + length ws'))
                   (z :: rparen :: ws3 ++ rest) = [z]).
    { apply (@firstn_consumed _ [z]). simpl. lia. }
    rewrite Hf.
    apply (@run_prefixed_after_class _ [] None ws3 rest); auto; reflexivity.
  - intros a' b' E Ha' Hl. cbn beta.
    destruct (app_longer _ _ _ _ E Hl) as [y [l [-> Eb]]].
    injection Eb as <- Eb. destruct l as [|y' l']; simpl in Eb.
    + subst b'. change (not_rparen rparen) with false. reflexivity.
    + injection Eb as <- _. exfalso.
      apply forallb_app_true in Ha' as [_ Ha']. simpl in Ha'.
      rewrite Hz in Ha'. discriminate.
Qed.

Lemma parsePrefixedSkillName_blank (ws s : jsstring) :
  ws <> [] -> spaces ws -> forallb dot (trimStart s) = true ->
  parsePrefixedSkillName (lparen :: ws ++ rparen :: s)
  = Some {| className := []; weight := Finite 0; skillName := trim s |}.
Proof.
  intros Hne Hws Hs.
  destruct (exists_last Hne) as [ws' [z ->]].
  apply forallb_app_true in Hws as [H1 Hz]. simpl in Hz.
  apply andb_true_iff in Hz as [Hz _].
  destruct (trimStart_split s) as [ws3 [Es H3]].
  pose proof (stops_trimStart s) as Hstop.
  rewrite <- (trim_trimStart s).
  remember (trimStart s) as rest eqn:Er.
  unfold parsePrefixedSkillName. rewrite Es.
  rewrite exec_prefixed_blank by assumption.
  unfold group. simpl. rewrite (@trim_all_spaces [z]); [reflexivity|].
  unfold spaces. simpl. rewrite Hz. reflexivity.
Qed.

Lemma parseNamingItem_blank_class (ws s : jsstring) :
  spaces ws -> parseNamingItem (lparen :: ws ++ rparen :: s) = None.
Proof.
  intros Hws. apply parseNamingItem_no_marker.
  - apply not_In_rparen_spaces. exact Hws.
  - intros M HM a1 a2 ->. destruct (marker_letters _ HM) as [HMl HMne].
    destruct M as [|m0 M']; [congruence|].
    simpl in HMl. apply andb_true_iff in HMl as [Hm0 _].
    apply letter_not_space in Hm0.
    apply forallb_app_true in Hws as [_ Hws]. simpl in Hws.
    rewrite Hm0 in Hws. discriminate.
Qed.

(* ================================================================== *)
(** * The icon directive *)

Lemma icon_char_range (x : char) :
  icon_char x = true ->
  (65 <= x <= 90 \/ 97 <= x <= 122 \/ 48 <= x <= 57 \/ x = 45)%N.
Proof.
  unfold icon_char, ascii_lower, is_digit.
  destruct ((65 <=? x) && (x <=? 90))%N eqn:E.
  - apply andb_true_iff in E as [E1 E2]. apply N.leb_le in E1, E2. auto.
  - rewrite !orb_true_iff, !andb_true_iff, !N.leb_le, N.eqb_eq. tauto.
Qed.

Lemma icon_char_not_space (x : char) :
  icon_char x = true -> is_space x = false.
Proof.
  intros H. apply icon_char_range in H. unfold is_space.
  destruct H as [H | [H | [H | H]]]; decide_units; reflexivity.
Qed.

Lemma space_not_icon_char (x : char) :
  is_space x = true -> icon_char x = false.
Proof.
  intros H. destruct (icon_char x) eqn:E; [|reflexivity].
  apply icon_char_not_space in E. congruence.
Qed.

Lemma lit_i_langle (x : char) : lit_i langle x = true -> x = langle.
Proof. apply lit_i_exact. reflexivity. Qed.

Lemma agrees_i_refl (w : jsstring) : agrees_i w w.
Proof. apply agrees_i_lower. reflexivity. Qed.

(** The search passes over the positions at which the pattern cannot
    start. *)
Lemma search_skip (r : regex) (pre s : jsstring) :
  (forall c t j, In c pre -> run r j (c :: t) [] accept = None) ->
  forall i, search r i (pre ++ s) = search r (i + length pre) s.
Proof.
  intros H. induction pre as [|c pre IH]; intros i; simpl.
  - rewrite Nat.add_0_r. reflexivity.
  - rewrite (H c (pre ++ s) i) by (left; reflexivity).
    rewrite IH by (intros; apply H; right; assumption).
    rewrite Nat.add_succ_r. reflexivity.
Qed.

Lemma icon_line_needs_langle (c : char) (t : jsstring) (j : nat) :
  N.eqb c langle = false -> run REGEX_ICON_LINE j (c :: t) [] accept = None.
Proof.
  intros Hc. unfold REGEX_ICON_LINE.
  change (js "<p>") with [langle; 112%N; 62%N]. cbn [word run].
  destruct (lit_i langle c) eqn:E; [|reflexivity].
  apply lit_i_langle in E. subst c. discriminate.
Qed.

Lemma icon_line_skip (pre s : jsstring) :
  no_langle pre = true ->
  exec REGEX_ICON_LINE (pre ++ s) = search REGEX_ICON_LINE (length pre) s.
Proof.
  intros Hpre. unfold exec. rewrite search_skip; [reflexivity|].
  intros c t j Hin. apply icon_line_needs_langle.
  unfold no_langle in Hpre. rewrite forallb_forall in Hpre.
  apply Hpre in Hin. apply negb_true_iff in Hin. exact Hin.
Qed.

Lemma search_found (r : regex) (i : nat) (s : jsstring) (m : caps) :
  run r i s [] accept = Some m -> search r i s = Some m.
Proof. intros H. destruct s; simpl; rewrite H; reflexivity. Qed.

Lemma agrees_i_head (p : char) (w v : jsstring) :
  agrees_i (p :: w) v -> exists x v', v = x :: v' /\ lit_i p x = true.
Proof. intros H. inversion H; subst. eauto. Qed.

(** The match of the icon pattern on a directive. *)
Lemma exec_icon_line pre P ws1 I ws2 x tk ws3 Q post :
  no_langle pre = true ->
  agrees_i (js "<p>") P -> spaces ws1 ->
  agrees_i (js "icon:") I -> spaces ws2 ->
  forallb icon_char (x :: tk) = true ->
  spaces ws3 -> agrees_i (js "</p>") Q ->
  exec REGEX_ICON_LINE (directive pre P ws1 I ws2 (x :: tk) ws3 Q post)
  = Some [(1, x :: tk)].
Proof.
  intros Hpre HP H1 HI H2 Htk H3 HQ.
  unfold directive. rewrite icon_line_skip by exact Hpre.
  apply search_found. unfold REGEX_ICON_LINE.
  rewrite (run_word _ _ _ _ _ _ HP). cbn [run].
  destruct (@agrees_i_head 105%N (js "con:") I HI) as [i0 [I' [EI Hi0]]].
  destruct (@agrees_i_head langle (js "/p>") Q HQ) as [q0 [Q' [EQ Hq0]]].
  apply lit_i_langle in Hq0. subst q0.
  simpl in Htk. apply andb_true_iff in Htk as [Hx Htk].
  apply star_greedy_longest; [exact H1 | |].
  { rewrite EI. simpl. apply letter_not_space.
    apply (@lit_i_letter 105%N); [lia | exact Hi0]. }
  cbn beta. rewrite (run_word _ _ _ _ _ _ HI). cbn [run].
  apply star_greedy_longest; [exact H2 | |].
  { simpl. apply icon_char_not_space. exact Hx. }
  cbn beta. cbn [run Plus app]. rewrite Hx.
  apply star_greedy_longest; [exact Htk | |].
  { rewrite EQ. destruct ws3 as [|z ws3']; simpl; [reflexivity|].
    apply space_not_icon_char. simpl in H3.
    apply andb_true_iff in H3 as [H3 _]. exact H3. }
  cbn beta.
  match goal with |- context [firstn ?k ?l] =>
    assert (Hf : firstn k l = x :: tk)
      by (apply (@firstn_consumed _ (x :: tk)); simpl; lia)
  end.
  rewrite Hf.
  apply star_greedy_longest; [exact H3 | rewrite EQ; reflexivity |].
  cbn beta. rewrite (run_word _ _ _ _ _ _ HQ). reflexivity.
Qed.

Lemma test_icon_class (t : jsstring) :
  t <> [] -> forallb icon_char t = true ->
  test REGEX_ICON_CLASS (js "fa-" ++ t) = true.
Proof.
  intros Hne Ht. destruct t as [|x t']; [congruence|].
  simpl in Ht. apply andb_true_iff in Ht as [Hx Ht].
  unfold test, REGEX_ICON_CLASS. rewrite search_anchored.
  cbn [run Nat.eqb].
  rewrite (run_word _ _ _ _ _ _ (agrees_i_refl (js "fa-"))).
  cbn [run Plus]. rewrite Hx.
  match goal with |- match star_greedy _ ?i _ _ ?k with _ => _ end = _ =>
    pose proof (@star_greedy_longest icon_char i t' [] [] k [] Ht I) as H
  end.
  rewrite app_nil_r in H. rewrite H; reflexivity.
Qed.

Lemma parseCustomClassIcon_directive pre P ws1 I ws2 t ws3 Q post :
  no_langle pre = true ->
  agrees_i (js "<p>") P -> spaces ws1 ->
  agrees_i (js "icon:") I -> spaces ws2 ->
  t <> [] -> forallb icon_char t = true ->
  spaces ws3 -> agrees_i (js "</p>") Q ->
  parseCustomClassIcon
    (directive pre P ws1 I ws2 (js "fa-" ++ t) ws3 Q post)
  = Some (js "fa-" ++ t).
Proof.
  intros Hpre HP H1 HI H2 Hne Ht H3 HQ.
  assert (Htok : forallb icon_char (js "fa-" ++ t) = true)
    by (apply forallb_app_true; split; [reflexivity | exact Ht]).
  assert (Htr : trim (js "fa-" ++ t) = js "fa-" ++ t).
  { apply trim_fixed.
    destruct (@exists_last _ t Hne) as [t' [y ->]].
    change (js "fa-" ++ t' ++ [y])
      with (102%N :: ([97%N; 45%N] ++ t') ++ [y]).
    constructor; [reflexivity|].
    apply icon_char_not_space.
    apply forallb_app_true in Ht as [_ Hy]. simpl in Hy.
    apply andb_true_iff in Hy as [Hy _]. exact Hy. }
  pose proof (test_icon_class Hne Ht) as Htest.
  remember (js "fa-" ++ t) as token eqn:Etok.
  destruct token as [|x tk]; [discriminate Etok|].
  unfold parseCustomClassIcon.
  destruct (directive pre P ws1 I ws2 (x :: tk) ws3 Q post) eqn:Ed.
  { exfalso. unfold directive in Ed.
    apply app_eq_nil in Ed as [_ Ed]. apply app_eq_nil in Ed as [Ed _].
    subst P. inversion HP. }
  rewrite <- Ed. rewrite exec_icon_line by assumption.
  unfold group. cbn [capture or_empty Nat.eqb].
  rewrite Htr, Htest. reflexivity.
Qed.

Lemma parseCustomClassIcon_plain (d : jsstring) :
  no_langle d = true -> parseCustomClassIcon d = None.
Proof.
  intros Hd. unfold parseCustomClassIcon. destruct d as [|c d']; [reflexivity|].
  rewrite <- (app_nil_r (c :: d')).
  rewrite icon_line_skip by exact Hd. reflexivity.
Qed.

Lemma getCustomClassIcon_of {host : Host} (items : list Item) (r : Item) :
  namingSkill items = Ok (Some r) ->
  getCustomClassIcon items
  = match parseCustomClassIcon (or_empty (description r)) with
    | Some (c :: t) =>
        if startsWith (c :: t) (js "fa-")
           && negb (startsWith (c :: t) (js "fa-solid"))
           && negb (startsWith (c :: t) (js "fa-regular"))
           && negb (startsWith (c :: t) (js "fa-brands"))
        then Ok (js "fa-solid " ++ c :: t)
        else Ok (c :: t)
    | _ => Ok DEFAULT_ICON
    end.
Proof. intros H. unfold getCustomClassIcon. rewrite H. reflexivity. Qed.

Lemma namingSkill_single {host : Host} (n d : string) (t : option Z) :
  truthy (parseNamingItem (js n)) = true ->
  namingSkill [skill_item n t d] = Ok (Some (skill_item n t d)).
Proof.
  intros Hn. apply (@namingSkill_last _ [] [] (skill_item n t d)).
  - intros it [<- | []] _. discriminate.
  - unfold naming_skill.
    rewrite (@is_skill_ascii _ _ (js "skill")) by reflexivity. exact Hn.
  - intros x [].
  - intros x [].
Qed.

Lemma barbarian_is_naming :
  truthy (parseNamingItem (js "(CUSTOMCLASS)Barbarian")) = true.
Proof. vm_compute. reflexivity. Qed.

Lemma family_choice (token : jsstring) :
  startsWith token (js "fa-") = true ->
  (if startsWith token (js "fa-")
      && negb (startsWith token (js "fa-solid"))
      && negb (startsWith token (js "fa-regular"))
      && negb (startsWith token (js "fa-brands"))
   then Ok (js "fa-solid " ++ token)
   else Ok token)
  = Ok (if has_family token then token else js "fa-solid " ++ token).
Proof.
  intros ->. unfold has_family.
  destruct (startsWith token (js "fa-solid")),
    (startsWith token (js "fa-regular")),
    (startsWith token (js "fa-brands")); reflexivity.
Qed.

(** The icon is read from the naming skill [getCustomClassLabel] reads
    the label from.  When its description holds, before any other tag, a
    paragraph made of "icon:" and a token "fa-" followed by letters, digits
    and hyphens, [getCustomClassIcon] returns the token, with "fa-solid "
    before it unless it starts with "fa-solid", "fa-regular" or
    "fa-brands"; when the description holds no tag at all, or there is no
    naming skill, it returns the default icon. *)
Lemma getCustomClassIcon_directive {host : Host} :
  (forall items r pre P ws1 I ws2 t ws3 Q post,
      namingSkill items = Ok (Some r) ->
      description r
      = Some (directive pre P ws1 I ws2 (js "fa-" ++ t) ws3 Q post) ->
      no_langle pre = true ->
      agrees_i (js "<p>") P -> spaces ws1 ->
      agrees_i (js "icon:") I -> spaces ws2 ->
      t <> [] -> forallb icon_char t = true ->
      spaces ws3 -> agrees_i (js "</p>") Q ->
      getCustomClassIcon items
      = Ok (if has_family (js "fa-" ++ t) then js "fa-" ++ t
            else js "fa-solid " ++ js "fa-" ++ t))
  /\ (forall items r,
         namingSkill items = Ok (Some r) ->
         no_langle (or_empty (description r)) = true ->
         getCustomClassIcon items = Ok DEFAULT_ICON)
  /\ (forall items,
         namingSkill items = Ok None ->
         getCustomClassIcon items = Ok DEFAULT_ICON).
Proof.
  split; [|split].
  - intros items r pre P ws1 I ws2 t ws3 Q post Hr Hd Hpre HP H1 HI H2 Hne Ht
           H3 HQ.
    rewrite (getCustomClassIcon_of _ Hr), Hd. cbn [or_empty].
    rewrite parseCustomClassIcon_directive by assumption.
    change (js "fa-" ++ t) with (102%N :: 97%N :: 45%N :: t).
    cbv beta iota. apply family_choice. reflexivity.
  - intros items r Hr Hd. rewrite (getCustomClassIcon_of _ Hr).
    rewrite parseCustomClassIcon_plain by exact Hd. reflexivity.
  - intros items Hr. unfold getCustomClassIcon. rewrite Hr. reflexivity.
Qed.

Example getCustomClassIcon_directive_run :
  @getCustomClassIcon ascii_host
     [skill_item "(CUSTOMCLASS)Monk" None "Monk: <P> Icon:fa-hand-fist </P>"]
  = Ok (js "fa-solid fa-hand-fist")
  /\ @getCustomClassIcon ascii_host
       [skill_item "(CUSTOMCLASS)Monk" None "A quiet order."]
     = Ok DEFAULT_ICON
  /\ @getCustomClassIcon ascii_host [skill_item "Climbing" None ""]
     = Ok DEFAULT_ICON.
Proof.
  split; [|split].
  - refine (proj1 (@getCustomClassIcon_directive ascii_host)
              [skill_item "(CUSTOMCLASS)Monk" None
                          "Monk: <P> Icon:fa-hand-fist </P>"]
              (skill_item "(CUSTOMCLASS)Monk" None
                          "Monk: <P> Icon:fa-hand-fist </P>")
              (js "Monk: ") (js "<P>") (js " ") (js "Icon:") []
              (js "hand-fist") (js " ") (js "</P>") [] _ _ _ _ _ _ _ _ _ _ _).
    + vm_compute. reflexivity.
    + vm_compute. reflexivity.
    + vm_compute. reflexivity.
    + apply agrees_i_lower. vm_compute. reflexivity.
    + vm_compute. reflexivity.
    + apply agrees_i_lower. vm_compute. reflexivity.
    + vm_compute. reflexivity.
    + discriminate.
    + vm_compute. reflexivity.
    + vm_compute. reflexivity.
    + apply agrees_i_lower. vm_compute. reflexivity.
  - refine (proj1 (proj2 (@getCustomClassIcon_directive ascii_host))
              [skill_item "(CUSTOMCLASS)Monk" None "A quiet order."]
              (skill_item "(CUSTOMCLASS)Monk" None "A quiet order.") _ _);
      vm_compute; reflexivity.
  - apply (proj2 (proj2 (@getCustomClassIcon_directive ascii_host))).
    vm_compute. reflexivity.
Qed.

Lemma parseName_not_naming (n : jsstring) :
  truthy (parseNamingItem n) = false ->
  parseName n = match parsePrefixedSkillName n with
                | Some p => PrefixedSkill p
                | None => Plain
                end.
Proof.
  unfold parseName. intros H. apply truthy_false in H as [-> | ->]; reflexivity.
Qed.



(* ================================================================== *)
(** * The claims of the specification *)

(** C1, as the code has it.  A name [( c ^d ) s] whose class text [c] has
    no closing parenthesis and a character that is not whitespace, whose
    weight is the caret and digits that end the parenthesis when there are
    any, whose text after the parenthesis has no line terminator once its
    leading whitespace is dropped, and which is not a naming item, parses
    as a [PrefixedSkill]: class name [c] trimmed, weight the Number
    [parseInt] reads from the digits (the integer itself below [2^53]) or
    [0] without digits, skill name [s] trimmed.  The two examples of the
    specification hold. *)
Theorem parseName_prefixed_skill :
  (forall c d s,
      forallb not_rparen c = true ->
      trim c <> [] ->
      weight_ok d = true ->
      (d = None -> carries_weight c = false) ->
      forallb dot (trimStart s) = true ->
      truthy (parseNamingItem (prefixed_name c d s)) = false ->
      parseName (prefixed_name c d s)
      = PrefixedSkill {| className := trim c;
                         weight := weight_value d;
                         skillName := trim s |})
  /\ (forall d,
         match d with
         | Some ds => (Number.digits_value 0 ds < 2 ^ 53)%Z
         | None => True
         end ->
         weight_value d = digits_number d)
  /\ parseName (js "(Barbarian^10)Natural Armor")
     = PrefixedSkill {| className := js "Barbarian";
                        weight := Finite 10;
                        skillName := js "Natural Armor" |}
  /\ (exists p, parseName (js "(Barbarian)Rage") = PrefixedSkill p
                /\ weight p = Finite 0).
Proof.
  split; [|split; [|split]].
  - intros c d s Hc Hne Hd Hcw Hs Hn.
    rewrite parseName_not_naming by exact Hn.
    rewrite parsePrefixedSkillName_shape; auto.
  - intros [ds|] H; [|reflexivity]. simpl. unfold Number.of_integer.
    apply Z.ltb_lt in H. rewrite H. reflexivity.
  - vm_compute. reflexivity.
  - eexists. split; vm_compute; reflexivity.
Qed.

Lemma parseName_prefixed_skill_witness :
  parseName (prefixed_name (js " Ranger ") (Some (js "5")) (js " Track "))
  = PrefixedSkill {| className := trim (js " Ranger ");
                     weight := weight_value (Some (js "5"));
                     skillName := trim (js " Track ") |}.
Proof.
  apply (proj1 parseName_prefixed_skill).
  - vm_compute. reflexivity.
  - vm_compute. discriminate.
  - vm_compute. reflexivity.
  - discriminate.
  - vm_compute. reflexivity.
  - vm_compute. reflexivity.
Defined.

(** C1 as the specification states it fails: a name of the class-prefixed
    shape can be a naming item, the class text can trim to nothing, the
    skill text can hold a line terminator, and the digits can spell an
    integer no Number represents. *)
Lemma parseName_prefixed_shape_counterexample :
  parseName (prefixed_name (js "CUSTOMCLASS") None (js "Bard"))
  = NamingToken (js "Bard")
  /\ parseName (prefixed_name (js " ") (Some (js "10")) (js "Foo"))
     = PrefixedSkill {| className := js "^10";
                        weight := Finite 0;
                        skillName := js "Foo" |}
  /\ parseName (prefixed_name (js "Ranger") None
                              (js "Track" ++ [10%N] ++ js "far"))
     = Plain
  /\ parseName (prefixed_name (js "Ranger") (Some (js "9007199254740993"))
                              (js "Track"))
     = PrefixedSkill {| className := js "Ranger";
                        weight := Finite 9007199254740992;
                        skillName := js "Track" |}
  /\ ~ (forall c d s,
           forallb not_rparen c = true -> weight_ok d = true ->
           parseName (prefixed_name c d s) = prefixed_token c d s).
Proof.
  split; [vm_compute; reflexivity|].
  split; [vm_compute; reflexivity|].
  split; [vm_compute; reflexivity|].
  split; [vm_compute; reflexivity|].
  intros H.
  specialize (H (js "CUSTOMCLASS") None (js "Bard") eq_refl eq_refl).
  vm_compute in H. discriminate H.
Qed.

(** C2, as the code has it.  The naming test comes first: a name made of
    the marker in any mix of cases, in parentheses with optional
    whitespace around it, and of a label that is not blank and has no line
    terminator once its leading whitespace is dropped, also matches the
    class-prefixed pattern, and is a [NamingToken] whose label is the text
    after the parenthesis, trimmed.  Every name gets one token: a
    [NamingToken] exactly when [parseNamingItem] returns a label that is
    not empty, else a [PrefixedSkill] exactly when [parsePrefixedSkillName]
    matches, else [Plain].  The two examples of the specification hold. *)
Theorem parseName_naming_precedence :
  (forall ws1 M ws2 s,
      spaces ws1 -> is_marker M = true -> spaces ws2 ->
      trim s <> [] -> forallb dot (trimStart s) = true ->
      parsePrefixedSkillName (naming_name ws1 M ws2 s)
      = Some {| className := M; weight := Finite 0; skillName := trim s |}
      /\ parseName (naming_name ws1 M ws2 s) = NamingToken (trim s))
  /\ (forall n,
         match parseName n with
         | NamingToken l => parseNamingItem n = Some l /\ l <> []
         | PrefixedSkill p =>
             truthy (parseNamingItem n) = false
             /\ parsePrefixedSkillName n = Some p
         | Plain =>
             truthy (parseNamingItem n) = false
             /\ parsePrefixedSkillName n = None
         end)
  /\ parseName (js "(CUSTOMCLASS)Bard") = NamingToken (js "Bard")
  /\ parseName (js "(customclass) Bard") = NamingToken (js "Bard").
Proof.
  split; [|split; [|split]].
  - intros ws1 M ws2 s H1 HM H2 Hne Hs. split.
    + destruct (@marker_class_text ws1 M ws2 H1 HM H2) as [Hc [Ht Hw]].
      replace (naming_name ws1 M ws2 s)
        with (prefixed_name (ws1 ++ M ++ ws2) None s)
        by (unfold prefixed_name, naming_name; simpl;
            repeat rewrite <- app_assoc; reflexivity).
      rewrite parsePrefixedSkillName_shape; auto.
      * rewrite Ht. reflexivity.
      * rewrite Ht. destruct (marker_letters _ HM) as [_ HMne]. exact HMne.
    + unfold parseName. rewrite parseNamingItem_shape by assumption.
      destruct (trim s); [congruence | reflexivity].
  - intros n. unfold parseName.
    destruct (parseNamingItem n) as [[|x l]|] eqn:En; simpl.
    + destruct (parsePrefixedSkillName n); auto.
    + split; [reflexivity | discriminate].
    + destruct (parsePrefixedSkillName n); auto.
  - vm_compute. reflexivity.
  - vm_compute. reflexivity.
Qed.

Lemma parseName_naming_precedence_witness :
  parseName (naming_name (js " ") (js "CustomClass") [] (js "  Blood Mage "))
  = NamingToken (trim (js "  Blood Mage ")).
Proof.
  apply (proj1 parseName_naming_precedence).
  - vm_compute. reflexivity.
  - vm_compute. reflexivity.
  - vm_compute. reflexivity.
  - vm_compute. discriminate.
  - vm_compute. reflexivity.
Defined.

(** C2 as the specification states it fails on a blank label: the name
    matches both patterns, and it is classified as a [PrefixedSkill],
    since the label [parseNamingItem] returns is empty. *)
Lemma parseName_blank_label_counterexample :
  exec REGEX_NAMING_ITEM (js "(CUSTOMCLASS)  ") = Some [(1%nat, js " ")]
  /\ exec REGEX_PREFIXED_SKILL (js "(CUSTOMCLASS)  ")
     = Some [(3%nat, []); (1%nat, js "CUSTOMCLASS")]
  /\ parseNamingItem (js "(CUSTOMCLASS)  ") = Some []
  /\ parseName (js "(CUSTOMCLASS)  ")
     = PrefixedSkill {| className := js "CUSTOMCLASS";
                        weight := Finite 0;
                        skillName := [] |}.
Proof. repeat split; vm_compute; reflexivity. Qed.





(** C5.  An item whose name [parsePrefixedSkillName] reads with a class
    name equal to the reserved marker, case ignored, is in no group of the
    result of [groupActorSkills] and not among the occupational skills; a
    skill named "(CustomClass^5)Foo" is such an item, and alone it leaves
    both empty. *)
Theorem reserved_class_name_discarded {host : Host} :
  (forall items g r n p,
      groupActorSkills items = Ok g ->
      name r = Some n ->
      parsePrefixedSkillName n = Some p ->
      is_reserved p = true ->
      ~ In r (occupational g)
      /\ (forall k ms m, In (k, ms) (grouped g) -> In m ms -> item m <> r))
  /\ parseName (js "(CustomClass^5)Foo")
     = PrefixedSkill {| className := js "CustomClass";
                        weight := Finite 5;
                        skillName := js "Foo" |}
  /\ groupActorSkills [skill_item "(CustomClass^5)Foo" None ""]
     = Ok {| grouped := []; occupational := [] |}.
Proof.
  split; [|split].
  - intros items g r n p. apply reserved_discarded.
  - vm_compute. reflexivity.
  - assert (Hsk : is_skill (skill_item "(CustomClass^5)Foo" None "") = true).
    { rewrite (@is_skill_ascii _ _ (js "skill")); vm_compute; reflexivity. }
    assert (Hn : truthy (parseNamingItem (js "(CustomClass^5)Foo")) = false)
      by (vm_compute; reflexivity).
    assert (Hp : parsePrefixedSkillName (js "(CustomClass^5)Foo")
                 = Some {| className := js "CustomClass";
                           weight := Finite 5;
                           skillName := js "Foo" |})
      by (vm_compute; reflexivity).
    assert (Hr : is_reserved {| className := js "CustomClass";
                                weight := Finite 5;
                                skillName := js "Foo" |} = true)
      by (apply is_reserved_marker; vm_compute; reflexivity).
    unfold groupActorSkills. cbn [foldM]. unfold classify_item.
    rewrite Hsk. unfold skill_item at 1. cbn [negb name the_string bind].
    rewrite Hn, Hp, Hr. reflexivity.
Qed.

Lemma reserved_class_name_discarded_witness :
  @groupActorSkills ascii_host
     [skill_item "(customclass)" None ""; skill_item "Climbing" None ""]
  = Ok {| grouped := [];
          occupational := [skill_item "Climbing" None ""] |}
  /\ ~ In (skill_item "(customclass)" None "")
          [skill_item "Climbing" None ""].
Proof.
  split; [vm_compute; reflexivity|].
  refine (proj1 (proj1 (@reserved_class_name_discarded ascii_host)
                       [skill_item "(customclass)" None "";
                        skill_item "Climbing" None ""]
                       {| grouped := [];
                          occupational := [skill_item "Climbing" None ""] |}
                       (skill_item "(customclass)" None "")
                       (js "(customclass)")
                       {| className := js "customclass";
                          weight := Finite 0;
                          skillName := [] |} _ _ _ _));
    vm_compute; reflexivity.
Defined.

(** C6, as the code has it.  On a collection in which every skill has a
    name, and no name carries as its class a property that plain objects
    inherit, [groupActorSkills] returns a result; a skill whose name is
    empty is among the occupational skills of that result.  The empty
    collection gives the empty result, and the empty name is [Plain]. *)
Theorem groupActorSkills_succeeds {host : Host} :
  (forall items,
      named items -> safe_keys items ->
      exists g,
        groupActorSkills items = Ok g
        /\ (forall it, In it items -> is_skill it = true ->
                       name it = Some [] -> In it (occupational g)))
  /\ groupActorSkills [] = Ok {| grouped := []; occupational := [] |}
  /\ parseName [] = Plain.
Proof.
  split; [|split; reflexivity].
  intros items Hn Hk. destruct (groupActorSkills_total Hn Hk) as [g Hg].
  exists g. split; [exact Hg|]. intros it Hin Hsk Hname.
  apply (groupActorSkills_complete _ Hg it Hin).
  split; [exact Hsk|]. exists []. auto.
Qed.

Lemma groupActorSkills_succeeds_witness :
  exists g,
    @groupActorSkills ascii_host unnamed_items = Ok g
    /\ In (skill_item "" None "") (occupational g).
Proof.
  destruct (proj1 (@groupActorSkills_succeeds ascii_host) unnamed_items)
    as [g [Hg Ho]].
  - intros it [<- | [<- | []]]; vm_compute; discriminate.
  - intros it n p [<- | [<- | []]] E; [|discriminate E].
    injection E as <-. vm_compute. discriminate.
  - exists g. split; [exact Hg|].
    apply Ho; [left; reflexivity | reflexivity | reflexivity].
Defined.

(** C6 as the specification states it fails: a skill without a name makes
    [groupActorSkills] throw, where the specification has it listed as an
    occupational skill. *)
Lemma groupActorSkills_absent_name_counterexample :
  @groupActorSkills ascii_host [nameless_skill] = Throw TypeError.
Proof. vm_compute. reflexivity. Qed.

(** A class name that plain objects inherit makes the loop throw too. *)
Example groupActorSkills_inherited_key :
  @groupActorSkills ascii_host [skill_item "(constructor)Build" None ""]
  = Throw TypeError.
Proof. vm_compute. reflexivity. Qed.



(** C8.  With the description "<p>icon: fa-axe-battle</p>" on the naming
    skill [getCustomClassIcon] returns "fa-solid fa-axe-battle", and with a
    token that does not start with "fa-" it returns the default icon; but
    the token "FA-AXE-BATTLE", which the validation accepts since it
    ignores case, is returned as it stands: it carries none of the three
    style families, "fa-solid " is not put before it, and the default icon
    is not returned either. *)
Theorem getCustomClassIcon_uppercase_token {host : Host} :
  getCustomClassIcon
    [skill_item "(CUSTOMCLASS)Barbarian" None "<p>icon: fa-axe-battle</p>"]
  = Ok (js "fa-solid fa-axe-battle")
  /\ getCustomClassIcon
       [skill_item "(CUSTOMCLASS)Barbarian" None "<p>icon: axe-battle</p>"]
     = Ok DEFAULT_ICON
  /\ parseCustomClassIcon (js "<p>icon: FA-AXE-BATTLE</p>")
     = Some (js "FA-AXE-BATTLE")
  /\ has_family (js "FA-AXE-BATTLE") = false
  /\ getCustomClassIcon
       [skill_item "(CUSTOMCLASS)Barbarian" None "<p>icon: FA-AXE-BATTLE</p>"]
     = Ok (js "FA-AXE-BATTLE").
Proof.
  split; [|split; [|split; [|split]]].
  - rewrite (getCustomClassIcon_of _
               (@namingSkill_single _ "(CUSTOMCLASS)Barbarian"
                  "<p>icon: fa-axe-battle</p>" None barbarian_is_naming)).
    vm_compute. reflexivity.
  - rewrite (getCustomClassIcon_of _
               (@namingSkill_single _ "(CUSTOMCLASS)Barbarian"
                  "<p>icon: axe-battle</p>" None barbarian_is_naming)).
    vm_compute. reflexivity.
  - vm_compute. reflexivity.
  - vm_compute. reflexivity.
  - rewrite (getCustomClassIcon_of _
               (@namingSkill_single _ "(CUSTOMCLASS)Barbarian"
                  "<p>icon: FA-AXE-BATTLE</p>" None barbarian_is_naming)).
    vm_compute. reflexivity.
Qed.

(** C9, as the code has it.  A name whose parentheses hold whitespace
    only, and at least one character of it, parses as a [PrefixedSkill]
    with the empty class name (the text after the parenthesis having no
    line terminator once its leading whitespace is dropped); a skill so
    named does not make [groupActorSkills] throw, and is listed in the
    group whose key is the empty string.  "( )Foo" is such a name. *)
Theorem blank_class_name_grouped {host : Host} :
  (forall ws s,
      ws <> [] -> spaces ws -> forallb dot (trimStart s) = true ->
      parseName (lparen :: ws ++ rparen :: s)
      = PrefixedSkill {| className := [];
                         weight := Finite 0;
                         skillName := trim s |})
  /\ (forall ws s r items,
         ws <> [] -> spaces ws -> forallb dot (trimStart s) = true ->
         is_skill r = true -> name r = Some (lparen :: ws ++ rparen :: s) ->
         In r items -> named items -> safe_keys items ->
         exists g ms,
           groupActorSkills items = Ok g
           /\ In ([], ms) (grouped g)
           /\ In {| item := r;
                    parsed := {| className := [];
                                 weight := Finite 0;
                                 skillName := trim s |} |} ms)
  /\ parseName (js "( )Foo")
     = PrefixedSkill {| className := [];
                        weight := Finite 0;
                        skillName := js "Foo" |}.
Proof.
  split; [|split].
  - intros ws s Hne Hws Hs. unfold parseName.
    rewrite parseNamingItem_blank_class by exact Hws.
    rewrite parsePrefixedSkillName_blank by assumption. reflexivity.
  - intros ws s r items Hne Hws Hs Hsk Hname Hin Hn Hk.
    destruct (groupActorSkills_total Hn Hk) as [g Hg].
    destruct (groupActorSkills_complete _ Hg r Hin) as [_ Hgr].
    destruct (Hgr {| className := [];
                     weight := Finite 0;
                     skillName := trim s |}) as [ms [H1 H2]].
    + split; [exact Hsk|]. exists (lparen :: ws ++ rparen :: s). simpl.
      split; [exact Hname|].
      split; [rewrite parseNamingItem_blank_class by exact Hws; reflexivity|].
      split; [apply parsePrefixedSkillName_blank; assumption|].
      split; [apply is_reserved_empty; reflexivity | reflexivity].
    + exists g, ms. auto.
  - vm_compute. reflexivity.
Qed.

Lemma blank_class_name_grouped_witness :
  exists g ms,
    @groupActorSkills ascii_host blank_class_items = Ok g
    /\ In ([], ms) (grouped g)
    /\ In {| item := skill_item "( )Foo" None "";
             parsed := {| className := [];
                          weight := Finite 0;
                          skillName := trim (js "Foo") |} |} ms.
Proof.
  apply (proj1 (proj2 (@blank_class_name_grouped ascii_host)) (js " ")).
  - discriminate.
  - reflexivity.
  - reflexivity.
  - reflexivity.
  - reflexivity.
  - right. left. reflexivity.
  - intros it Hin _.
    repeat (destruct Hin as [<- | Hin]; [discriminate|]). destruct Hin.
  - intros it n p Hin E.
    repeat (destruct Hin as [<- | Hin];
            [injection E as <-; vm_compute; intros E'; try discriminate E';
             injection E' as <-; reflexivity|]).
    destruct Hin.
Defined.

(** C9 as the specification states it fails: with nothing at all between
    the parentheses the name is [Plain]. *)
Lemma parseName_empty_parentheses_counterexample :
  parseName (js "()Foo") = Plain
  /\ parsePrefixedSkillName (js "()Foo") = None.
Proof. split; vm_compute; reflexivity. Qed.

(** C10.  A skill whose name is the marker, in any mix of cases, in
    parentheses, followed by nothing or by whitespace only, is not a
    naming item: the filter of [getCustomClassLabel] and
    [getCustomClassIcon] drops it, so that both return what they return
    without it.  Its name parses as a [PrefixedSkill] whose class name is
    the marker, the guard of [groupActorSkills] is true of it, and it is in
    no group of the result and not among the occupational skills. *)
Theorem blank_marker_name_hidden {host : Host} (M ws : jsstring) :
  is_marker M = true -> spaces ws ->
  truthy (parseNamingItem (lparen :: M ++ rparen :: ws)) = false
  /\ parseName (lparen :: M ++ rparen :: ws)
     = PrefixedSkill {| className := M; weight := Finite 0; skillName := [] |}
  /\ is_reserved {| className := M; weight := Finite 0; skillName := [] |}
     = true
  /\ (forall r,
         name r = Some (lparen :: M ++ rparen :: ws) ->
         is_naming_skill r = Ok false
         /\ (forall l1 l2,
                getCustomClassLabel (l1 ++ r :: l2)
                = getCustomClassLabel (l1 ++ l2)
                /\ getCustomClassIcon (l1 ++ r :: l2)
                   = getCustomClassIcon (l1 ++ l2))
         /\ (forall items g,
                groupActorSkills items = Ok g ->
                ~ In r (occupational g)
                /\ (forall k ms m, In (k, ms) (grouped g) -> In m ms ->
                                   item m <> r))).
Proof.
  intros HM Hws.
  destruct (marker_letters _ HM) as [HMl HMne].
  destruct (@marker_class_text [] M [] eq_refl HM eq_refl) as [Hc [Ht Hw]].
  simpl in Hc, Ht, Hw. rewrite app_nil_r in Hc, Ht, Hw.
  assert (Hnaming : truthy (parseNamingItem (lparen :: M ++ rparen :: ws))
                    = false).
  { apply parseNamingItem_blank; [|exact Hws].
    apply not_In_rparen_class. exact Hc. }
  assert (Hp : parsePrefixedSkillName (lparen :: M ++ rparen :: ws)
               = Some {| className := M; weight := Finite 0;
                         skillName := [] |}).
  { pose proof (@parsePrefixedSkillName_shape M None ws Hc) as H.
    unfold prefixed_name in H. simpl in H.
    rewrite H; auto.
    - rewrite Ht, (trim_all_spaces Hws). reflexivity.
    - rewrite Ht. exact HMne.
    - rewrite (trimStart_all_spaces Hws). reflexivity. }
  assert (Hr : is_reserved {| className := M; weight := Finite 0;
                              skillName := [] |} = true).
  { apply is_reserved_marker. simpl. rewrite Ht. exact HM. }
  split; [exact Hnaming|].
  split; [rewrite parseName_not_naming by exact Hnaming; rewrite Hp;
          reflexivity|].
  split; [exact Hr|].
  intros r Hname.
  assert (Hf : is_naming_skill r = Ok false).
  { unfold is_naming_skill. destruct (is_skill r); [|reflexivity].
    rewrite Hname. simpl. rewrite Hnaming. reflexivity. }
  split; [exact Hf|]. split.
  - intros l1 l2. unfold getCustomClassLabel, getCustomClassIcon.
    rewrite (@namingSkill_skip _ l1 l2 r Hf). auto.
  - intros items g Hg. eapply reserved_discarded; eauto.
Qed.

Lemma blank_marker_name_hidden_witness :
  @getCustomClassLabel ascii_host
     ([salesman] ++ skill_item "(CustomClass)   " (Some 99%Z) "" :: [])
  = @getCustomClassLabel ascii_host ([salesman] ++ [])
  /\ @getCustomClassLabel ascii_host ([salesman] ++ [])
     = Ok (Some (js "Salesman"))
  /\ @groupActorSkills ascii_host
       [skill_item "(CustomClass)   " (Some 99%Z) "";
        skill_item "Climbing" None ""]
     = Ok {| grouped := [];
             occupational := [skill_item "Climbing" None ""] |}
  /\ ~ In (skill_item "(CustomClass)   " (Some 99%Z) "")
          [skill_item "Climbing" None ""].
Proof.
  assert (HM : is_marker (js "CustomClass") = true) by (vm_compute; reflexivity).
  assert (Hws : spaces (js "   ")) by (vm_compute; reflexivity).
  pose proof (@blank_marker_name_hidden ascii_host (js "CustomClass")
                (js "   ") HM Hws) as [_ [_ [_ H]]].
  specialize (H (skill_item "(CustomClass)   " (Some 99%Z) "") eq_refl).
  destruct H as [_ [Hlabel Hgroup]].
  split; [exact (proj1 (Hlabel [salesman] []))|].
  split; [vm_compute; reflexivity|].
  split; [vm_compute; reflexivity|].
  refine (proj1 (Hgroup [skill_item "(CustomClass)   " (Some 99%Z) "";
                         skill_item "Climbing" None ""]
                        {| grouped := [];
                           occupational := [skill_item "Climbing" None ""] |}
                        _)).
  vm_compute. reflexivity.
Defined.

(* ================================================================== *)
(** * Further properties of the code *)

(* ================================================================== *)
(** * What the parsers return *)

Lemma forallb_trim (p : char -> bool) (s : jsstring) :
  forallb p s = true -> forallb p (trim s) = true.
Proof.
  intros H. destruct (trim_split s) as [a [b [E _]]].
  rewrite E in H. apply forallb_app_true in H as [_ H].
  apply forallb_app_true in H as [H _]. exact H.
Qed.

Lemma forallb_trimStart (p : char -> bool) (s : jsstring) :
  forallb p s = true -> forallb p (trimStart s) = true.
Proof.
  intros H. destruct (trimStart_split s) as [a [E _]].
  rewrite E in H. apply forallb_app_true in H as [_ H]. exact H.
Qed.

Lemma trim_idempotent (s : jsstring) : trim (trim s) = trim s.
Proof.
  destruct (trim s) as [|x t] eqn:E; [reflexivity|].
  rewrite <- E. apply trim_fixed. apply trim_is_trimmed. congruence.
Qed.

Lemma trim_spaces_left (a s : jsstring) : spaces a -> trim (a ++ s) = trim s.
Proof.
  intros H. unfold trim. rewrite trimStart_spaces by exact H. reflexivity.
Qed.

Lemma digits_value_lower (s : jsstring) :
  forall acc, (0 <= acc -> acc <= Number.digits_value acc s)%Z.
Proof.
  induction s as [|c s IH]; intros acc Hacc; cbn [Number.digits_value];
    [lia|].
  destruct (is_digit c) eqn:Hc; [|lia].
  unfold is_digit in Hc. apply andb_true_iff in Hc as [H1 H2].
  apply N.leb_le in H1, H2.
  specialize (IH (10 * acc + (Z.of_N c - 48))%Z). lia.
Qed.

Lemma of_integer_sign (n : Z) :
  (0 <= n)%Z ->
  Number.of_integer n = Infinity
  \/ exists z, Number.of_integer n = Finite z /\ (0 <= z)%Z.
Proof.
  intros Hn. unfold Number.of_integer.
  destruct (Z.ltb_spec n (2 ^ 53)); [right; eauto|].
  match goal with |- context [if ?b then Infinity else _] => destruct b end;
    [left; reflexivity|].
  right. eexists. split; [reflexivity|].
  apply Z.mul_nonneg_nonneg; [|apply Z.pow_nonneg; lia].
  assert (0 <= n / 2 ^ (Z.log2 n - 52))%Z
    by (apply Z.div_pos; [lia | apply Z.pow_pos_nonneg; [lia|]];
        pose proof (Z.log2_le_mono (2 ^ 53) n); rewrite Z.log2_pow2 in *; lia).
  repeat match goal with
         | |- context [if ?b then _ else _] => destruct b
         end; lia.
Qed.

(** A name the class-prefixed pattern accepts is laid out as the pattern
    reads it. *)
Lemma prefixed_inv (n : jsstring) (m : caps) :
  exec REGEX_PREFIXED_SKILL n = Some m ->
  exists ws1 cls sp d ws3 g,
    n = lparen :: ws1 ++ cls ++ sp ++ weight_text d ++ rparen :: ws3 ++ g
    /\ spaces ws1 /\ cls <> [] /\ forallb not_rparen cls = true
    /\ spaces sp /\ weight_ok d = true /\ spaces ws3
    /\ forallb dot g = true
    /\ m = (3, g) :: match d with Some ds => [(2, ds)] | None => [] end
                  ++ [(1, cls)].
Proof.
  intros E. unfold exec in E.
  apply search_sound in E as [pre [a [rest [En Hm]]]].
  rewrite REGEX_PREFIXED_SKILL_eq in Hm. cbn [matches Plus] in Hm.
  destruct Hm as [a1 [a2 [c1 [-> [[Hpre [-> ->]] Hm]]]]].
  destruct Hm as [a3 [a4 [c2 [-> [[x [-> [Hx ->]]] Hm]]]]].
  destruct Hm as [a5 [a6 [c3 [-> [[H5 ->] Hm]]]]].
  destruct Hm as [a7 [a8 [c4 [-> [[c5 [Hg ->]] Hm]]]]].
  destruct Hg as [b1 [b2 [c6 [-> [[y [-> [Hy ->]]] [Hb2 ->]]]]]].
  unfold prefixed_after_class in Hm. cbn [matches] in Hm.
  destruct Hm as [e1 [e2 [c7 [-> [[He1 ->] [f1 [f2 [c8 [-> [Hw Ht]]]]]]]]]].
  fold prefixed_tail in Ht.
  apply matches_prefixed_tail in Ht as [sp [g [-> [-> [Hsp [Hg ->]]]]]].
  apply lit_eq in Hx. subst x.
  destruct pre; [|simpl in Hpre; lia].
  assert (Hw' : exists d, f1 = weight_text d /\ weight_ok d = true
                          /\ c8 = match d with Some ds => [(2, ds)] | None => [] end
                                  ++ [(1, [y] ++ b2)]).
  { apply matches_weight_opt in Hw as [[-> ->] | [ds [-> [Hd ->]]]].
    - exists None. auto.
    - exists (Some ds). auto. }
  destruct Hw' as [d [-> [Hd ->]]].
  exists a5, ([y] ++ b2), e1, d, sp, g. subst n. simpl.
  repeat rewrite <- app_assoc. simpl. repeat rewrite app_nil_r.
  repeat split; auto.
  - discriminate.
  - rewrite Hy. exact Hb2.
Qed.

(** X1.  A name that is empty, or does not begin with an opening
    parenthesis, matches neither pattern: [parsePrefixedSkillName] and
    [parseNamingItem] return [null], and the name is [Plain]. *)
Theorem parseName_without_parenthesis (n : jsstring) :
  match n with
  | c :: _ => c <> lparen
  | [] => True
  end ->
  parsePrefixedSkillName n = None
  /\ parseNamingItem n = None
  /\ parseName n = Plain.
Proof.
  intros H.
  assert (E1 : exec REGEX_PREFIXED_SKILL n = None).
  { unfold REGEX_PREFIXED_SKILL. rewrite search_anchored.
    destruct n as [|c t]; [reflexivity|]. cbn.
    unfold lit. destruct (N.eqb_spec c lparen); [contradiction | reflexivity]. }
  assert (E2 : exec REGEX_NAMING_ITEM n = None).
  { unfold REGEX_NAMING_ITEM. rewrite search_anchored.
    destruct n as [|c t]; [reflexivity|]. cbn.
    destruct (lit_i lparen c) eqn:L; [|reflexivity].
    apply lit_i_exact in L; [contradiction | reflexivity]. }
  unfold parseName, parsePrefixedSkillName, parseNamingItem.
  rewrite E1, E2. auto.
Qed.

Lemma parseName_without_parenthesis_witness :
  parseName (js " (Barbarian)Rage") = Plain.
Proof.
  apply (parseName_without_parenthesis (js " (Barbarian)Rage")).
  vm_compute. discriminate.
Defined.

(** X2.  Whenever [parsePrefixedSkillName] returns an object, the name
    begins with an opening parenthesis and holds a closing one; the class
    name has no closing parenthesis and the skill name no line terminator;
    both are trimmed already; and the weight is a Number that is not
    negative, or [Infinity]. *)
Theorem parsePrefixedSkillName_result (n : jsstring) (p : Parsed) :
  parsePrefixedSkillName n = Some p ->
  (exists t, n = lparen :: t /\ In rparen t)
  /\ forallb not_rparen (className p) = true
  /\ forallb dot (skillName p) = true
  /\ trim (className p) = className p
  /\ trim (skillName p) = skillName p
  /\ (weight p = Infinity \/ exists z, weight p = Finite z /\ (0 <= z)%Z).
Proof.
  unfold parsePrefixedSkillName.
  destruct (exec REGEX_PREFIXED_SKILL n) as [m|] eqn:E; [|discriminate].
  intros Hp. injection Hp as <-.
  apply prefixed_inv in E
    as [ws1 [cls [sp [d [ws3 [g
         [-> [H1 [Hne [Hcls [Hsp [Hd [H3 [Hg ->]]]]]]]]]]]]]].
  assert (G1 : group ((3, g) :: match d with Some ds => [(2, ds)] | None => [] end
                              ++ [(1, cls)]) 1 = cls)
    by (destruct d; reflexivity).
  assert (G3 : group ((3, g) :: match d with Some ds => [(2, ds)] | None => [] end
                              ++ [(1, cls)]) 3 = g)
    by reflexivity.
  cbn [className skillName weight]. rewrite G1, G3.
  split; [|split; [|split; [|split; [|split]]]].
  - eexists. split; [reflexivity|].
    apply in_or_app. right. apply in_or_app. right. apply in_or_app. right.
    apply in_or_app. right. left. reflexivity.
  - apply forallb_trim. exact Hcls.
  - apply forallb_trim. exact Hg.
  - apply trim_idempotent.
  - apply trim_idempotent.
  - destruct d as [ds|]; cbn.
    + pose proof (is_decimal_cons _ Hd) as [d0 [ds' [-> _]]].
      cbn [truthy]. unfold group. cbn [capture Nat.eqb or_empty].
      rewrite parseInt10_decimal by exact Hd.
      apply of_integer_sign. apply digits_value_lower. lia.
    + right. exists 0%Z. split; [reflexivity | lia].
Qed.

Lemma parsePrefixedSkillName_result_witness :
  exists p,
    parsePrefixedSkillName (js "( Blood Mage ^7) Leech ") = Some p
    /\ forallb not_rparen (className p) = true
    /\ trim (skillName p) = skillName p.
Proof.
  eexists. split; [vm_compute; reflexivity|].
  refine (let H := parsePrefixedSkillName_result (js "( Blood Mage ^7) Leech ")
                     _ in _).
  split; [exact (proj1 (proj2 H))|].
  exact (proj1 (proj2 (proj2 (proj2 (proj2 H))))).
  Unshelve. vm_compute. reflexivity.
Defined.

(** A name [parseNamingItem] accepts is a class-prefixed name whose class
    is the marker. *)
Lemma parseNamingItem_prefixed (n l : jsstring) :
  parseNamingItem n = Some l ->
  exists M,
    is_marker M = true
    /\ parsePrefixedSkillName n
       = Some {| className := M; weight := Finite 0; skillName := l |}
    /\ forallb dot l = true.
Proof.
  unfold parseNamingItem.
  destruct (exec REGEX_NAMING_ITEM n) as [m|] eqn:E; [|discriminate].
  intros Hl. injection Hl as <-.
  apply naming_sound in E
    as [a1 [M [a2 [a3 [g [-> [H1 [HM [H2 [H3 [Hne [Hg ->]]]]]]]]]]]].
  change (group [(1, g)] 1) with g.
  destruct (@marker_class_text a1 M a2 H1 HM H2) as [Hc [Ht Hw]].
  exists M. split; [exact HM|]. split.
  - replace (naming_name a1 M a2 (a3 ++ g))
      with (prefixed_name (a1 ++ M ++ a2) None (a3 ++ g))
      by (unfold prefixed_name, naming_name; simpl;
          repeat rewrite <- app_assoc; reflexivity).
    rewrite parsePrefixedSkillName_shape; auto.
    + rewrite Ht, trim_spaces_left by exact H3. reflexivity.
    + rewrite Ht. destruct (marker_letters _ HM) as [_ HMne]. exact HMne.
    + rewrite trimStart_spaces by exact H3. apply forallb_trimStart. exact Hg.
  - apply forallb_trim. exact Hg.
Qed.

(** X3.  Every name [parseNamingItem] accepts, [parsePrefixedSkillName]
    accepts too, with the marker as its class name, no weight, and the
    label as its skill name: the guard of the loop of [groupActorSkills] is
    true of it.  The label is trimmed and holds no line terminator. *)
Theorem naming_item_has_reserved_class {host : Host} (n l : jsstring) :
  parseNamingItem n = Some l ->
  exists M,
    is_marker M = true
    /\ parsePrefixedSkillName n
       = Some {| className := M; weight := Finite 0; skillName := l |}
    /\ is_reserved {| className := M; weight := Finite 0; skillName := l |}
       = true
    /\ forallb dot l = true
    /\ trim l = l.
Proof.
  intros Hl. destruct (parseNamingItem_prefixed _ Hl) as [M [HM [Hp Hd]]].
  exists M. split; [exact HM|]. split; [exact Hp|]. split; [|split].
  - apply is_reserved_marker. cbn [className].
    destruct (marker_letters _ HM) as [HMl HMne].
    rewrite trim_fixed by (apply letters_trimmed; assumption). exact HM.
  - exact Hd.
  - unfold parseNamingItem in Hl.
    destruct (exec REGEX_NAMING_ITEM n); [|discriminate].
    injection Hl as <-. apply trim_idempotent.
Qed.

Lemma naming_item_has_reserved_class_witness :
  exists M,
    is_marker M = true
    /\ parsePrefixedSkillName (js "( customClass ) Blood Mage ")
       = Some {| className := M; weight := Finite 0;
                 skillName := js "Blood Mage" |}.
Proof.
  destruct (@naming_item_has_reserved_class ascii_host
              (js "( customClass ) Blood Mage ") (js "Blood Mage"))
    as [M [HM [Hp _]]].
  - vm_compute. reflexivity.
  - exists M. split; assumption.
Defined.
(* ================================================================== *)
(** * The groups and the occupational skills, exactly *)

Lemma own_app (g g' : object) (k : jsstring) :
  own (g ++ g') k = match own g k with
                    | Some v => Some v
                    | None => own g' k
                    end.
Proof.
  induction g as [|[k0 v0] g IH]; simpl; [reflexivity|].
  destruct (jseqb k0 k); [reflexivity | exact IH].
Qed.

Lemma own_set_own (g : object) (key : jsstring) (ms0 v : list Member)
      (k : jsstring) :
  own g key = Some ms0 ->
  own (set_own g key v) k = if jseqb key k then Some v else own g k.
Proof.
  induction g as [|[k0 v0] g IH]; simpl; [discriminate|].
  destruct (jseqb k0 key) eqn:E0.
  - intros _. apply jseqb_eq in E0. subst k0. simpl.
    destruct (jseqb key k); reflexivity.
  - intros H. simpl. destruct (jseqb k0 k) eqn:E1.
    + apply jseqb_eq in E1. subst k0.
      destruct (jseqb key k) eqn:E2; [|reflexivity].
      apply jseqb_eq in E2. subst key. rewrite jseqb_refl in E0. discriminate.
    + apply IH. exact H.
Qed.

Lemma own_None (g : object) (k : jsstring) :
  own g k = None <-> ~ In k (map fst g).
Proof.
  induction g as [|[k0 v0] g IH]; simpl; [tauto|].
  destruct (jseqb k0 k) eqn:E.
  - apply jseqb_eq in E. split; [discriminate | intros H; exfalso; auto].
  - rewrite IH. split; [|tauto]. intros H [H'|H']; [|auto].
    subst k0. rewrite jseqb_refl in E. discriminate.
Qed.

Lemma set_own_keys (g : object) (key : jsstring) (v : list Member) :
  map fst (set_own g key v) = map fst g.
Proof.
  induction g as [|[k0 v0] g IH]; simpl; [reflexivity|].
  destruct (jseqb k0 key); simpl; [reflexivity | rewrite IH; reflexivity].
Qed.

Lemma own_map (f : list Member -> list Member) (g : object) (k : jsstring) :
  own (map (fun kv => (fst kv, f (snd kv))) g) k = option_map f (own g k).
Proof.
  induction g as [|[k0 v0] g IH]; simpl; [reflexivity|].
  destruct (jseqb k0 k); [reflexivity | exact IH].
Qed.

Lemma own_NoDup (g : object) (k : jsstring) (ms : list Member) :
  NoDup (map fst g) -> (In (k, ms) g <-> own g k = Some ms).
Proof.
  intros Hnd. split; [|apply own_In].
  induction g as [|[k0 v0] g IH]; simpl; [tauto|].
  inversion Hnd as [|? ? Hnot Hnd']; subst.
  intros [H | H].
  - injection H as -> ->. rewrite jseqb_refl. reflexivity.
  - destruct (jseqb k0 k) eqn:E; [|apply IH; assumption].
    apply jseqb_eq in E. subst k0. exfalso. apply Hnot.
    apply (in_map fst) in H. exact H.
Qed.

Lemma nonempty_app {A : Type} (l : list A) (x : A) :
  nonempty (l ++ [x]) = Some (l ++ [x]).
Proof. destruct l; reflexivity. Qed.

Section Exact.
Context {host : Host}.

Lemma members_of_app (k : jsstring) (l1 l2 : list Item) :
  members_of k (l1 ++ l2) = members_of k l1 ++ members_of k l2.
Proof. unfold members_of. apply flat_map_app. Qed.

Lemma classify_item_seen (l : list Item) (acc acc' : Grouping) (it : Item) :
  seen l acc -> classify_item acc it = Ok acc' -> seen (l ++ [it]) acc'.
Proof.
  intros [Ho [Hnd Hg]] Hc. unfold seen.
  rewrite filter_app. cbn [filter].
  assert (Hm : forall k, members_of k (l ++ [it])
                         = members_of k l
                           ++ match class_member it with
                              | Some m =>
                                  if jseqb (className (parsed m)) k
                                  then [m] else []
                              | None => []
                              end).
  { intros k. rewrite members_of_app. unfold members_of at 2.
    cbn [flat_map]. rewrite app_nil_r. reflexivity. }
  unfold classify_item in Hc. unfold plain_skill, class_member in *.
  destruct (is_skill it) eqn:Hs; cbn [negb andb] in *.
  2:{ injection Hc as <-. rewrite app_nil_r. split; [exact Ho|].
      split; [exact Hnd|]. intros k. rewrite Hm, app_nil_r. apply Hg. }
  destruct (name it) as [n|] eqn:Hn; [|discriminate].
  cbn [the_string bind or_empty] in *.
  destruct (truthy (parseNamingItem n)) eqn:Ht; cbn [negb andb] in *.
  { injection Hc as <-. rewrite app_nil_r. split; [exact Ho|].
    split; [exact Hnd|]. intros k. rewrite Hm, app_nil_r. apply Hg. }
  destruct (parsePrefixedSkillName n) as [p|] eqn:Hp.
  2:{ injection Hc as <-. cbn [occupational grouped]. split; [congruence|].
      split; [exact Hnd|]. intros k. rewrite Hm, app_nil_r. apply Hg. }
  destruct (is_reserved p) eqn:Hr.
  { injection Hc as <-. rewrite app_nil_r. split; [exact Ho|].
    split; [exact Hnd|]. intros k. rewrite Hm, app_nil_r. apply Hg. }
  destruct (push_member (grouped acc) (className p)
                        {| item := it; parsed := p |}) as [g'|] eqn:Hpush;
    [|discriminate].
  cbn [bind] in Hc. injection Hc as <-. cbn [occupational grouped].
  rewrite app_nil_r. split; [exact Ho|].
  unfold push_member, get_property in Hpush.
  destruct (own (grouped acc) (className p)) as [ms|] eqn:Hown.
  - injection Hpush as <-. split.
    + rewrite set_own_keys. exact Hnd.
    + intros k. rewrite Hm. cbn [parsed].
      erewrite own_set_own by exact Hown.
      destruct (jseqb (className p) k) eqn:E.
      * apply jseqb_eq in E. subst k. rewrite Hg in Hown.
        assert (members_of (className p) l = ms) as ->
          by (destruct (members_of (className p) l); [discriminate|];
              cbn in Hown; congruence).
        symmetry. apply nonempty_app.
      * rewrite app_nil_r. apply Hg.
  - destruct (existsb (jseqb (className p)) Object_prototype_keys);
      [discriminate|].
    injection Hpush as <-. split.
    + rewrite map_app. cbn [map fst].
      apply own_None in Hown.
      rewrite <- (rev_involutive (map fst (grouped acc) ++ [className p])).
      apply NoDup_rev. rewrite rev_app_distr. cbn [rev app].
      constructor; [|apply NoDup_rev; exact Hnd].
      rewrite <- in_rev. exact Hown.
    + intros k. rewrite Hm. cbn [parsed]. rewrite own_app.
      cbn [own].
      destruct (jseqb (className p) k) eqn:E.
      * apply jseqb_eq in E. subst k. rewrite Hown.
        rewrite Hg in Hown.
        destruct (members_of (className p) l); [reflexivity | discriminate].
      * rewrite app_nil_r, Hg.
        destruct (nonempty (members_of k l)); reflexivity.
Qed.

Lemma foldM_seen (l2 : list Item) :
  forall l1 acc acc',
    seen l1 acc -> foldM classify_item l2 acc = Ok acc' ->
    seen (l1 ++ l2) acc'.
Proof.
  induction l2 as [|x l2 IH]; intros l1 acc acc' Hs Hf; simpl in Hf.
  - injection Hf as <-. rewrite app_nil_r. exact Hs.
  - destruct (classify_item acc x) as [acc1|] eqn:Hc; [|discriminate].
    cbn [bind] in Hf.
    replace (l1 ++ x :: l2) with ((l1 ++ [x]) ++ l2)
      by (rewrite <- app_assoc; reflexivity).
    eapply IH; [|exact Hf]. eapply classify_item_seen; eassumption.
Qed.

Lemma groupActorSkills_exact (items : list Item) (g : Grouping) :
  groupActorSkills items = Ok g ->
  occupational g = sort compareItemNames (filter plain_skill items)
  /\ NoDup (map fst (grouped g))
  /\ forall k,
       own (grouped g) k
       = option_map (sort compareMembers) (nonempty (members_of k items)).
Proof.
  unfold groupActorSkills.
  destruct (foldM classify_item items {| grouped := []; occupational := [] |})
    as [acc|] eqn:Hf; [|discriminate].
  cbn [bind]. intros Hg. injection Hg as <-. cbn [grouped occupational].
  assert (Hs : seen [] {| grouped := []; occupational := [] |}).
  { split; [reflexivity|]. split; [constructor | reflexivity]. }
  pose proof (foldM_seen items Hs Hf) as [Ho [Hnd Hk]]. cbn [app] in *.
  split; [rewrite Ho; reflexivity|]. split.
  - rewrite map_map. cbn [fst]. exact Hnd.
  - intros k. rewrite own_map, Hk. reflexivity.
Qed.
End Exact.

(* ================================================================== *)
(** * The sort keeps the order of what it does not have to move *)

Lemma precedes_cons {A : Type} (a b x : A) (l : list A) :
  precedes a b l -> precedes a b (x :: l).
Proof.
  intros [l1 [l2 [l3 ->]]]. exists (x :: l1), l2, l3. reflexivity.
Qed.

Lemma precedes_head {A : Type} (a b : A) (l : list A) :
  In b l -> precedes a b (a :: l).
Proof.
  intros H. apply in_split in H as [l2 [l3 ->]]. exists [], l2, l3.
  reflexivity.
Qed.

Lemma precedes_inv {A : Type} (a b y : A) (l : list A) :
  precedes a b (y :: l) -> (y = a /\ In b l) \/ precedes a b l.
Proof.
  intros [[|z l1] [l2 [l3 E]]]; simpl in E; injection E as -> ->.
  - left. split; [reflexivity|]. apply in_or_app. right. left. reflexivity.
  - right. exists l1, l2, l3. reflexivity.
Qed.

Section SortStable.
Local Open Scope Z_scope.
Context {A : Type} (cmp : A -> A -> Z).

Lemma insert_In (x y : A) (l : list A) :
  In y (insert cmp x l) <-> y = x \/ In y l.
Proof.
  induction l as [|z l IH]; simpl; [intuition|].
  destruct (cmp x z <=? 0); simpl; [intuition|]. rewrite IH. intuition.
Qed.

Lemma insert_keeps_order (x a b : A) (l : list A) :
  precedes a b l -> precedes a b (insert cmp x l).
Proof.
  induction l as [|y l IH]; intros H.
  - destruct H as [[|? ?] [? [? E]]]; discriminate E.
  - simpl. destruct (cmp x y <=? 0); [apply precedes_cons; exact H|].
    apply precedes_inv in H as [[-> Hb] | H].
    + apply precedes_head. apply insert_In. right. exact Hb.
    + apply precedes_cons. apply IH. exact H.
Qed.

Lemma insert_before (x b : A) (l : list A) :
  In b l -> cmp x b <= 0 -> precedes x b (insert cmp x l).
Proof.
  induction l as [|y l IH]; intros Hb Hc; [contradiction|].
  simpl. destruct (Z.leb_spec (cmp x y) 0) as [Hy | Hy].
  - apply precedes_head. exact Hb.
  - destruct Hb as [-> | Hb]; [lia|].
    apply precedes_cons. apply IH; assumption.
Qed.

(** Two elements the comparator does not tell to exchange keep their
    order. *)
Lemma sort_stable (a b : A) (l : list A) :
  precedes a b l -> cmp a b <= 0 -> precedes a b (sort cmp l).
Proof.
  induction l as [|y l IH]; intros H Hc.
  - destruct H as [[|? ?] [? [? E]]]; discriminate E.
  - simpl. apply precedes_inv in H as [[-> Hb] | H].
    + apply insert_before; [|exact Hc]. apply sort_In. exact Hb.
    + apply insert_keeps_order. apply IH; assumption.
Qed.

Lemma sort_ext (cmp' : A -> A -> Z) (l : list A) :
  (forall a b, cmp a b = cmp' a b) -> sort cmp l = sort cmp' l.
Proof.
  intros H. induction l as [|x l IH]; simpl; [reflexivity|].
  rewrite IH. generalize (sort cmp' l). intros s.
  induction s as [|y s IHs]; simpl; [reflexivity|].
  rewrite H, IHs. reflexivity.
Qed.

Lemma sort_nil (l : list A) : sort cmp l = [] -> l = [].
Proof.
  intros H. pose proof (sort_perm cmp l) as P. rewrite H in P.
  apply Permutation_sym, Permutation_nil in P. exact P.
Qed.
End SortStable.

Lemma precedes_filter {A : Type} (p : A -> bool) (a b : A) (l : list A) :
  precedes a b l -> p a = true -> p b = true -> precedes a b (filter p l).
Proof.
  intros [l1 [l2 [l3 ->]]] Ha Hb.
  exists (filter p l1), (filter p l2), (filter p l3).
  rewrite filter_app. simpl. rewrite Ha, filter_app. simpl. rewrite Hb.
  reflexivity.
Qed.

(* ================================================================== *)
(** * Further properties of [groupActorSkills] *)

Section Grouping.
Context {host : Host}.
Local Open Scope Z_scope.

Lemma compareItemNames_total :
  forall a b : Item,
    True -> True -> compareItemNames a b > 0 -> compareItemNames b a <= 0.
Proof.
  unfold compareItemNames. intros a b _ _ H.
  apply localeCompare_flip in H. lia.
Qed.

Lemma compareItemNames_trans :
  forall a b c : Item,
    True -> True -> True ->
    compareItemNames a b <= 0 -> compareItemNames b c <= 0 ->
    compareItemNames a c <= 0.
Proof.
  unfold compareItemNames. intros a b c _ _ _. apply localeCompare_trans.
Qed.

Lemma Forall_True {A : Type} (l : list A) : Forall (fun _ => True) l.
Proof. apply Forall_forall. auto. Qed.

Lemma members_of_precedes (k : jsstring) (a b : Item) (ma mb : Member)
      (items : list Item) :
  precedes a b items ->
  class_member a = Some ma -> className (parsed ma) = k ->
  class_member b = Some mb -> className (parsed mb) = k ->
  precedes ma mb (members_of k items).
Proof.
  intros [l1 [l2 [l3 ->]]] Ha Hka Hb Hkb.
  exists (members_of k l1), (members_of k l2), (members_of k l3).
  rewrite members_of_app.
  change (a :: l2 ++ b :: l3) with ([a] ++ l2 ++ [b] ++ l3).
  rewrite !members_of_app. unfold members_of at 2 4. cbn [flat_map].
  rewrite Ha, Hb, Hka, Hkb, !jseqb_refl. reflexivity.
Qed.

(** X4.  The occupational skills of the result are the skills of the
    collection that are neither naming items nor class-prefixed, each
    once, in ascending order of their names in the collation; skills the
    collation does not tell apart keep the order of the collection. *)
Theorem groupActorSkills_occupational (items : list Item) (g : Grouping) :
  groupActorSkills items = Ok g ->
  Permutation (filter plain_skill items) (occupational g)
  /\ StronglySorted (le_by compareItemNames) (occupational g)
  /\ (forall a b,
         precedes a b items ->
         plain_skill a = true -> plain_skill b = true ->
         compareItemNames a b <= 0 ->
         precedes a b (occupational g)).
Proof.
  intros Hg. apply groupActorSkills_exact in Hg as [-> _].
  split; [apply sort_perm|]. split.
  - apply (@sort_sorted _ compareItemNames (fun _ => True)
             compareItemNames_total compareItemNames_trans).
    apply Forall_True.
  - intros a b Hab Ha Hb Hc. apply sort_stable; [|exact Hc].
    apply precedes_filter; assumption.
Qed.

(** X5.  The groups of the result have distinct keys, and the group of a
    key is made of the entries of that class, each once, sorted; a class
    without entries has no group. *)
Theorem groupActorSkills_groups_exact (items : list Item) (g : Grouping) :
  groupActorSkills items = Ok g ->
  NoDup (map fst (grouped g))
  /\ (forall k ms,
         In (k, ms) (grouped g)
         <-> ms <> [] /\ ms = sort compareMembers (members_of k items)).
Proof.
  intros Hg. apply groupActorSkills_exact in Hg as [_ [Hnd Hk]].
  split; [exact Hnd|]. intros k ms.
  rewrite (@own_NoDup (grouped g) k ms Hnd), Hk.
  destruct (members_of k items) as [|m l] eqn:E; cbn [nonempty option_map].
  - split; [discriminate|]. intros [Hne ->]. exfalso. apply Hne. reflexivity.
  - split.
    + intros H. injection H as <-. split; [|reflexivity].
      intros H. apply (@sort_nil _ compareMembers (m :: l)) in H.
      discriminate.
    + intros [_ ->]. reflexivity.
Qed.

(** X6.  In a group, two entries the comparator does not tell to exchange
    stand in the order of the collection. *)
Theorem groupActorSkills_stable (items : list Item) (g : Grouping)
        (a b : Item) (ma mb : Member) :
  groupActorSkills items = Ok g ->
  precedes a b items ->
  class_member a = Some ma -> class_member b = Some mb ->
  className (parsed ma) = className (parsed mb) ->
  compareMembers ma mb <= 0 ->
  exists ms, In (className (parsed ma), ms) (grouped g)
             /\ precedes ma mb ms.
Proof.
  intros Hg Hab Ha Hb Hk Hc.
  apply groupActorSkills_exact in Hg as [_ [Hnd Hown]].
  pose proof (@members_of_precedes (className (parsed ma)) a b ma mb items
                Hab Ha eq_refl Hb (eq_sym Hk)) as Hp.
  exists (sort compareMembers (members_of (className (parsed ma)) items)).
  split.
  - apply (@own_NoDup (grouped g) _ _ Hnd). rewrite Hown.
    destruct (members_of (className (parsed ma)) items) eqn:E;
      [|reflexivity].
    destruct Hp as [[|? ?] [? [? E']]]; discriminate E'.
  - apply sort_stable; assumption.
Qed.

Lemma classify_item_hidden (r : Item) :
  (is_skill r = false
   \/ exists n, name r = Some n
                /\ (truthy (parseNamingItem n) = true
                    \/ exists p, parsePrefixedSkillName n = Some p
                                 /\ is_reserved p = true)) ->
  forall acc, classify_item acc r = Ok acc.
Proof.
  intros H acc. unfold classify_item.
  destruct H as [-> | [n [-> H]]]; [reflexivity|].
  destruct (is_skill r); [|reflexivity]. cbn [negb the_string bind].
  destruct H as [-> | [p [Hp Hr]]]; [reflexivity|].
  destruct (truthy (parseNamingItem n)); [reflexivity|].
  rewrite Hp, Hr. reflexivity.
Qed.

Lemma foldM_skip (r : Item) (l1 l2 : list Item) (acc : Grouping) :
  (forall acc, classify_item acc r = Ok acc) ->
  foldM classify_item (l1 ++ r :: l2) acc = foldM classify_item (l1 ++ l2) acc.
Proof.
  intros H. rewrite !foldM_app.
  destruct (foldM classify_item l1 acc) as [acc1|]; [|reflexivity].
  cbn [bind foldM]. rewrite H. reflexivity.
Qed.

(** X7.  An item that is not a skill, a naming item, and a skill whose
    class name is the reserved marker leave the result of
    [groupActorSkills] as it is without them. *)
Theorem groupActorSkills_hidden (r : Item) (l1 l2 : list Item) :
  (is_skill r = false
   \/ exists n, name r = Some n
                /\ (truthy (parseNamingItem n) = true
                    \/ exists p, parsePrefixedSkillName n = Some p
                                 /\ is_reserved p = true)) ->
  groupActorSkills (l1 ++ r :: l2) = groupActorSkills (l1 ++ l2).
Proof.
  intros H. unfold groupActorSkills.
  rewrite (@foldM_skip r l1 l2 _ (@classify_item_hidden r H)). reflexivity.
Qed.

(** X8.  An item that is not a skill, be it without a type, has no part in
    the label, in the icon and in the purge. *)
Theorem other_types_have_no_part (r : Item) (l1 l2 : list Item) :
  (type r = None -> is_skill r = false)
  /\ (is_skill r = false ->
      getCustomClassLabel (l1 ++ r :: l2) = getCustomClassLabel (l1 ++ l2)
      /\ getCustomClassIcon (l1 ++ r :: l2) = getCustomClassIcon (l1 ++ l2)
      /\ toDelete (l1 ++ r :: l2) = toDelete (l1 ++ l2)).
Proof.
  split.
  - intros Ht. unfold is_skill. rewrite Ht. cbn [or_empty].
    rewrite toLowerCase_ascii by reflexivity. reflexivity.
  - intros Hs.
    assert (Hn : is_naming_skill r = Ok false)
      by (unfold is_naming_skill; rewrite Hs; reflexivity).
    unfold getCustomClassLabel, getCustomClassIcon, toDelete.
    rewrite (@namingSkill_skip _ l1 l2 r Hn), (@filterM_skip _ _ l1 l2 r Hn).
    auto.
Qed.
End Grouping.

(* ================================================================== *)
(** * What the label and the icon can be *)

Lemma unspaced_trimmed (p : char -> bool) (l : jsstring) :
  (forall x, p x = true -> is_space x = false) ->
  forallb p l = true -> l <> [] -> trimmed l.
Proof.
  intros Hp Hl Hne. destruct l as [|x t]; [congruence|].
  simpl in Hl. apply andb_true_iff in Hl as [Hx Ht].
  destruct t as [|z t0]; [constructor; apply Hp; exact Hx|].
  destruct (@exists_last _ (z :: t0)) as [t' [y Ey]]; [discriminate|].
  rewrite Ey in *. constructor; [apply Hp; exact Hx|].
  apply forallb_app_true in Ht as [_ Hy]. simpl in Hy.
  apply andb_true_iff in Hy as [Hy _]. apply Hp. exact Hy.
Qed.

(** A description the icon pattern accepts holds a directive. *)
Lemma icon_line_inv (d : jsstring) (m : caps) :
  exec REGEX_ICON_LINE d = Some m ->
  exists pre P ws1 I ws2 token ws3 Q post,
    d = directive pre P ws1 I ws2 token ws3 Q post
    /\ agrees_i (js "<p>") P /\ spaces ws1
    /\ agrees_i (js "icon:") I /\ spaces ws2
    /\ token <> [] /\ forallb icon_char token = true
    /\ spaces ws3 /\ agrees_i (js "</p>") Q
    /\ m = [(1, token)].
Proof.
  intros E. unfold exec in E.
  apply search_sound in E as [pre [a [rest [En Hm]]]].
  unfold REGEX_ICON_LINE in Hm.
  apply matches_word in Hm as [P [a1 [-> [HP Hm]]]].
  cbn [matches] in Hm.
  destruct Hm as [ws1 [a2 [c1 [-> [[H1 ->] Hm]]]]].
  apply matches_word in Hm as [I [a3 [-> [HI Hm]]]].
  cbn [matches Plus] in Hm.
  destruct Hm as [ws2 [a4 [c2 [-> [[H2 ->] Hm]]]]].
  destruct Hm as [tk [a5 [c3 [-> [[c4 [Hg ->]] Hm]]]]].
  destruct Hg as [b1 [b2 [c5 [-> [[x [-> [Hx ->]]] [Hb2 ->]]]]]].
  destruct Hm as [ws3 [a6 [c6 [-> [[H3 ->] Hm]]]]].
  apply matches_word in Hm as [Q [a7 [-> [HQ [-> ->]]]]].
  exists pre, P, ws1, I, ws2, ([x] ++ b2), ws3, Q, rest.
  unfold directive. subst d.
  repeat rewrite <- app_assoc. simpl.
  repeat split; auto.
  - discriminate.
  - rewrite Hx. exact Hb2.
Qed.

(** A token the validation accepts starts with [fa-] in some mix of
    cases. *)
Lemma icon_class_inv (t : jsstring) :
  test REGEX_ICON_CLASS t = true ->
  exists v u, t = v ++ u /\ agrees_i (js "fa-") v /\ u <> []
              /\ forallb icon_char u = true.
Proof.
  unfold test. destruct (exec REGEX_ICON_CLASS t) as [m|] eqn:E;
    [intros _ | discriminate].
  unfold exec in E. apply search_sound in E as [pre [a [rest [En Hm]]]].
  unfold REGEX_ICON_CLASS in Hm. cbn [matches] in Hm.
  destruct Hm as [a1 [a2 [c1 [-> [[Hpre [-> ->]] Hm]]]]].
  apply matches_word in Hm as [v [a3 [-> [Hv Hm]]]].
  cbn [matches Plus] in Hm.
  destruct Hm as [a4 [a5 [c2 [-> [Hg [-> [-> ->]]]]]]].
  destruct Hg as [b1 [b2 [c3 [-> [[x [-> [Hx ->]]] [Hb2 ->]]]]]].
  destruct pre; [|simpl in Hpre; lia].
  exists v, ([x] ++ b2). subst t. simpl. rewrite !app_nil_r.
  repeat split; auto.
  - discriminate.
  - rewrite Hx. exact Hb2.
Qed.

(** A token [parseCustomClassIcon] returns is made of the characters of
    the class of the pattern. *)
Lemma parseCustomClassIcon_chars (d t : jsstring) :
  parseCustomClassIcon d = Some t -> forallb icon_char t = true.
Proof.
  unfold parseCustomClassIcon. destruct d as [|c0 d0]; [discriminate|].
  destruct (exec REGEX_ICON_LINE (c0 :: d0)) as [m|] eqn:E; [|discriminate].
  apply icon_line_inv in E
    as [pre [P [ws1 [I [ws2 [tk [ws3 [Q [post
         [_ [_ [_ [_ [_ [Hne [Htk [_ [_ ->]]]]]]]]]]]]]]]]]].
  change (group [(1, tk)] 1) with tk.
  rewrite (trim_fixed (unspaced_trimmed _ icon_char_not_space Htk Hne)).
  destruct (test REGEX_ICON_CLASS tk); [|discriminate].
  intros Ht. injection Ht as <-. exact Htk.
Qed.

(** X9.  A token [parseCustomClassIcon] returns stands in the description
    as a directive, is made of letters, digits and hyphens, and starts
    with [fa-] in some mix of cases, followed by at least one more
    character. *)
Theorem parseCustomClassIcon_result (d t : jsstring) :
  parseCustomClassIcon d = Some t ->
  (exists pre P ws1 I ws2 ws3 Q post,
      d = directive pre P ws1 I ws2 t ws3 Q post
      /\ agrees_i (js "<p>") P /\ spaces ws1
      /\ agrees_i (js "icon:") I /\ spaces ws2
      /\ spaces ws3 /\ agrees_i (js "</p>") Q)
  /\ forallb icon_char t = true
  /\ (exists v u, t = v ++ u /\ agrees_i (js "fa-") v /\ u <> []).
Proof.
  unfold parseCustomClassIcon. destruct d as [|c0 d0]; [discriminate|].
  destruct (exec REGEX_ICON_LINE (c0 :: d0)) as [m|] eqn:E; [|discriminate].
  apply icon_line_inv in E
    as [pre [P [ws1 [I [ws2 [tk [ws3 [Q [post
         [Ed [HP [H1 [HI [H2 [Hne [Htk [H3 [HQ ->]]]]]]]]]]]]]]]]]].
  change (group [(1, tk)] 1) with tk.
  rewrite (trim_fixed (unspaced_trimmed _ icon_char_not_space Htk Hne)).
  destruct (test REGEX_ICON_CLASS tk) eqn:Et; [|discriminate].
  intros Ht. injection Ht as <-.
  split; [|split; [exact Htk|]].
  - exists pre, P, ws1, I, ws2, ws3, Q, post. auto 10.
  - apply icon_class_inv in Et as [v [u [-> [Hv [Hu _]]]]].
    exists v, u. auto.
Qed.

Lemma parseCustomClassIcon_result_witness :
  forallb icon_char (js "Fa-Skull") = true
  /\ exists v u, js "Fa-Skull" = v ++ u /\ agrees_i (js "fa-") v /\ u <> [].
Proof.
  apply (@parseCustomClassIcon_result
           (js "<h3>Lich</h3><P>ICON:Fa-Skull </p>") (js "Fa-Skull")).
  vm_compute. reflexivity.
Defined.

Section Results.
Context {host : Host}.

(** [getCustomClassLabel] returns the label of a naming skill, which is
    not empty, or [null] when there is no naming skill. *)
Lemma getCustomClassLabel_cases (items : list Item) :
  named items ->
  (exists w n l,
      In w items /\ is_skill w = true /\ name w = Some n
      /\ parseNamingItem n = Some l /\ l <> []
      /\ getCustomClassLabel items = Ok (Some l))
  \/ ((forall x, In x items -> naming_skill x = false)
      /\ getCustomClassLabel items = Ok None).
Proof.
  intros Hn.
  destruct (namingSkill_total Hn) as [r [Hr Hw]].
  unfold getCustomClassLabel. rewrite Hr. cbn [bind].
  destruct r as [w|]; [left | right; split; [exact Hw | reflexivity]].
  destruct Hw as [Hin Hns]. unfold naming_skill in Hns.
  apply andb_true_iff in Hns as [Hs Ht].
  destruct (name w) as [n|] eqn:En; [|exfalso; exact (Hn w Hin Hs En)].
  cbn [the_string bind or_empty] in *.
  destruct (parseNamingItem n) as [[|c l0]|] eqn:Ep; try discriminate.
  exists w, n, (c :: l0). repeat split; auto. discriminate.
Qed.

(** X10.  When every skill has a name, [getCustomClassLabel] returns [null]
    exactly when the collection has no naming skill; a label it returns
    is not empty, is trimmed, holds no line terminator, and is the label
    of a skill of the collection. *)
Theorem getCustomClassLabel_result (items : list Item) :
  named items ->
  (getCustomClassLabel items = Ok None
   <-> forall x, In x items -> naming_skill x = false)
  /\ (forall l,
         getCustomClassLabel items = Ok (Some l) ->
         l <> [] /\ trim l = l /\ forallb dot l = true
         /\ exists w n, In w items /\ is_skill w = true
                        /\ name w = Some n /\ parseNamingItem n = Some l).
Proof.
  intros Hn.
  destruct (getCustomClassLabel_cases Hn)
    as [[w [n [l [Hin [Hs [En [Ep [Hne Hl]]]]]]]] | [Hnone Hl]];
    rewrite Hl.
  - split.
    + split; [discriminate|]. intros H. specialize (H w Hin).
      unfold naming_skill in H. rewrite Hs, En in H. cbn [or_empty] in H.
      rewrite Ep in H. destruct l; [congruence | discriminate].
    + intros l' Hl'. injection Hl' as <-.
      destruct (parseNamingItem_prefixed _ Ep) as [M [_ [_ Hd]]].
      split; [exact Hne|]. split; [|split; [exact Hd|]].
      * unfold parseNamingItem in Ep.
        destruct (exec REGEX_NAMING_ITEM n); [|discriminate].
        injection Ep as <-. apply trim_idempotent.
      * exists w, n. auto.
  - split; [|discriminate]. split; [intros _; exact Hnone | reflexivity].
Qed.

Lemma getCustomClassIcon_total (items : list Item) :
  named items -> exists r, getCustomClassIcon items = Ok r.
Proof.
  intros Hn. destruct (namingSkill_total Hn) as [r [Hr _]].
  unfold getCustomClassIcon. rewrite Hr. cbn [bind].
  destruct r as [w|]; [|eauto].
  destruct (parseCustomClassIcon (or_empty (description w))) as [[|c t]|];
    eauto.
  match goal with |- context [if ?b then _ else _] => destruct b end; eauto.
Qed.

(** X11.  When every skill has a name, [getCustomClassIcon] returns, and
    what it returns is the default icon or a token of the naming skill
    made of letters, digits and hyphens, as it stands or after
    [fa-solid] and a space. *)
Theorem getCustomClassIcon_result (items : list Item) :
  named items ->
  exists r,
    getCustomClassIcon items = Ok r
    /\ (r = DEFAULT_ICON
        \/ exists w t,
             In w items /\ naming_skill w = true
             /\ parseCustomClassIcon (or_empty (description w)) = Some t
             /\ forallb icon_char t = true
             /\ (r = t \/ r = js "fa-solid " ++ t)).
Proof.
  intros Hn.
  destruct (namingSkill_total Hn) as [r [Hr Hw]].
  unfold getCustomClassIcon. rewrite Hr. cbn [bind].
  destruct r as [w|]; [|eexists; split; [reflexivity | left; reflexivity]].
  destruct Hw as [Hin Hns].
  destruct (parseCustomClassIcon (or_empty (description w)))
    as [[|c t]|] eqn:Ep;
    try (eexists; split; [reflexivity | left; reflexivity]).
  pose proof (parseCustomClassIcon_chars _ Ep) as Ht.
  match goal with |- context [if ?b then _ else _] => destruct b end;
    (eexists; split; [reflexivity|]; right; exists w, (c :: t); auto 10).
Qed.

(** X12.  When every skill has a name, [_getTabsConfig] finds a label and an
    icon for the custom tab; the label is never empty: it is the label of
    [getCustomClassLabel] when there is one, and without a naming skill
    the text of the interface, or "Custom Class", with the default
    icon. *)
Theorem customTab_result (i18n : option (jsstring -> jsstring))
        (items : list Item) :
  named items ->
  exists label icon,
    customTab i18n items = Ok (label, icon)
    /\ label <> []
    /\ (forall l, getCustomClassLabel items = Ok (Some l) -> label = l)
    /\ ((forall x, In x items -> naming_skill x = false) ->
        label = tabLabel i18n None /\ icon = DEFAULT_ICON).
Proof.
  intros Hn. unfold customTab.
  destruct (getCustomClassIcon_total Hn) as [icon Hi]. rewrite Hi.
  destruct (getCustomClassLabel_cases Hn)
    as [[w [n [l [Hin [Hs [En [Ep [Hne Hl]]]]]]]] | [Hnone Hl]];
    rewrite Hl; cbn [bind].
  - exists (tabLabel i18n (Some l)), icon.
    assert (El : tabLabel i18n (Some l) = l)
      by (destruct l; [congruence | reflexivity]).
    split; [reflexivity|]. rewrite El. split; [exact Hne|]. split.
    + intros l' Hl'. congruence.
    + intros Hall. exfalso. specialize (Hall w Hin).
      unfold naming_skill in Hall. rewrite Hs, En in Hall.
      cbn [or_empty] in Hall. rewrite Ep in Hall.
      destruct l; [congruence | discriminate].
  - exists (tabLabel i18n None), icon. split; [reflexivity|].
    split; [|split].
    + unfold tabLabel. destruct i18n as [localize|]; [|discriminate].
      destruct (localize (js "DCCCS.TabLabel")); discriminate.
    + intros l Hl'. discriminate.
    + intros _. split; [reflexivity|].
      assert (Hs : namingSkill items = Ok None)
        by (apply namingSkill_none; assumption).
      unfold getCustomClassIcon in Hi. rewrite Hs in Hi. cbn [bind] in Hi.
      congruence.
Qed.
End Results.

(* ================================================================== *)
(** * Purging the naming items *)

Lemma filter_all {A : Type} (p : A -> bool) (l : list A) :
  (forall x, In x l -> p x = true) -> filter p l = l.
Proof.
  induction l as [|x l IH]; intros H; simpl; [reflexivity|].
  rewrite (H x (or_introl eq_refl)), IH; [reflexivity|].
  intros y Hy. apply H. right. exact Hy.
Qed.

Lemma filter_none {A : Type} (p : A -> bool) (l : list A) :
  filter p l = [] -> forall x, In x l -> p x = false.
Proof.
  induction l as [|y l IH]; intros H x Hx; [contradiction|].
  simpl in H. destruct (p y) eqn:E; [discriminate|].
  destruct Hx as [-> | Hx]; [exact E | apply IH; assumption].
Qed.

Lemma filter_nothing {A : Type} (p : A -> bool) (l : list A) :
  (forall x, In x l -> p x = false) -> filter p l = [].
Proof.
  induction l as [|x l IH]; intros H; simpl; [reflexivity|].
  rewrite (H x (or_introl eq_refl)). apply IH.
  intros y Hy. apply H. right. exact Hy.
Qed.

Lemma NoDup_map_In {A B : Type} (f : A -> B) (l : list A) (x y : A) :
  NoDup (map f l) -> In x l -> In y l -> f x = f y -> x = y.
Proof.
  induction l as [|z l IH]; intros Hnd Hx Hy E; [contradiction|].
  simpl in Hnd. inversion Hnd as [|? ? Hnot Hnd']; subst.
  destruct Hx as [-> | Hx], Hy as [-> | Hy]; auto.
  - exfalso. apply Hnot. rewrite E. apply in_map. exact Hy.
  - exfalso. apply Hnot. rewrite <- E. apply in_map. exact Hx.
Qed.

Lemma listed_id (p : Item -> bool) (items : list Item) (i : Item) :
  NoDup (map _id items) -> In i items ->
  existsb (jseqb (_id i)) (map _id (filter p items)) = p i.
Proof.
  intros Hnd Hi. destruct (p i) eqn:E.
  - apply existsb_exists. exists (_id i). split; [|apply jseqb_refl].
    apply in_map. apply filter_In. auto.
  - destruct (existsb _ _) eqn:Ex; [|reflexivity].
    apply existsb_exists in Ex as [k [Hk Ek]]. apply jseqb_eq in Ek.
    apply in_map_iff in Hk as [j [Ej Hj]]. apply filter_In in Hj as [Hj Hpj].
    assert (i = j)
      by (apply (NoDup_map_In _id items); auto; congruence).
    subst j. congruence.
Qed.

Section PurgeFacts.
Context {host : Host}.

Lemma naming_skill_hidden (x : Item) :
  naming_skill x = true -> forall acc, classify_item acc x = Ok acc.
Proof.
  unfold naming_skill. intros H. apply andb_true_iff in H as [_ H].
  apply classify_item_hidden. right.
  destruct (name x) as [n|]; [|discriminate H].
  exists n. auto.
Qed.

Lemma foldM_purged (l : list Item) :
  forall acc,
    foldM classify_item (filter (fun i => negb (naming_skill i)) l) acc
    = foldM classify_item l acc.
Proof.
  induction l as [|x l IH]; intros acc; [reflexivity|].
  simpl. destruct (naming_skill x) eqn:E; simpl.
  - rewrite (naming_skill_hidden x E). cbn [bind]. apply IH.
  - destruct (classify_item acc x); [cbn [bind]; apply IH | reflexivity].
Qed.

Lemma named_filter (p : Item -> bool) (items : list Item) :
  named items -> named (filter p items).
Proof.
  intros H it Hin. apply filter_In in Hin as [Hin _]. apply H. exact Hin.
Qed.

Lemma purgeNamingItems_filter (items : list Item) :
  named items -> NoDup (map _id items) ->
  purgeNamingItems items
  = Ok (filter (fun i => negb (naming_skill i)) items).
Proof.
  intros Hn Hnd. unfold purgeNamingItems, toDelete.
  rewrite (namingSkills_named Hn). cbn [bind].
  destruct (map _id (filter naming_skill items)) as [|i0 ids] eqn:E.
  - apply map_eq_nil in E. rewrite filter_all; [reflexivity|].
    intros x Hx. rewrite (filter_none _ _ E x Hx). reflexivity.
  - rewrite <- E. unfold deleteEmbeddedDocuments. f_equal.
    apply filter_ext_in. intros i Hi.
    rewrite (listed_id naming_skill items i Hnd Hi). reflexivity.
Qed.
End PurgeFacts.

Section PurgeEffect.
Context {host : Host}.

(** X13.  On a collection whose items have distinct ids and whose skills
    have names, [purgeNamingItems] leaves the items that are not naming
    skills, in their order; then there is no label, the icon is the
    default one, the groups and the occupational skills are what they
    were, and a second purge changes nothing. *)
Theorem purgeNamingItems_effect (items : list Item) :
  named items -> NoDup (map _id items) ->
  exists purged,
    purgeNamingItems items = Ok purged
    /\ purged = filter (fun i => negb (naming_skill i)) items
    /\ getCustomClassLabel purged = Ok None
    /\ getCustomClassIcon purged = Ok DEFAULT_ICON
    /\ groupActorSkills purged = groupActorSkills items
    /\ purgeNamingItems purged = Ok purged.
Proof.
  intros Hn Hnd. eexists. split; [apply purgeNamingItems_filter; assumption|].
  split; [reflexivity|].
  set (purged := filter (fun i => negb (naming_skill i)) items).
  assert (Hn' : named purged) by (apply named_filter; exact Hn).
  assert (Hnone : forall x, In x purged -> naming_skill x = false).
  { intros x Hx. apply filter_In in Hx as [_ Hx].
    destruct (naming_skill x); [discriminate | reflexivity]. }
  assert (Hs : namingSkill purged = Ok None)
    by (apply namingSkill_none; assumption).
  split; [unfold getCustomClassLabel; rewrite Hs; reflexivity|].
  split; [unfold getCustomClassIcon; rewrite Hs; reflexivity|].
  split.
  - unfold groupActorSkills, purged. rewrite foldM_purged. reflexivity.
  - unfold purgeNamingItems, toDelete.
    rewrite (namingSkills_named Hn'). cbn [bind].
    rewrite (filter_nothing _ _ Hnone). reflexivity.
Qed.
End PurgeEffect.

(* ================================================================== *)
(** * The view model of the sheet *)

Lemma mapM_ok {A B : Type} (f : A -> result B) (h : A -> B) (l : list A) :
  (forall x, In x l -> f x = Ok (h x)) -> mapM f l = Ok (map h l).
Proof.
  induction l as [|x l IH]; intros H; simpl; [reflexivity|].
  rewrite (H x (or_introl eq_refl)). cbn [bind].
  rewrite IH; [reflexivity|]. intros y Hy. apply H. right. exact Hy.
Qed.

Lemma filter_split_perm {A : Type} (p : A -> bool) (l : list A) :
  Permutation (filter p l ++ filter (fun x => negb (p x)) l) l.
Proof.
  induction l as [|x l IH]; simpl; [constructor|].
  destruct (p x); simpl.
  - constructor. exact IH.
  - apply Permutation_sym, Permutation_cons_app, Permutation_sym. exact IH.
Qed.

Lemma Object_keys_perm (g : object) :
  Permutation (Object_keys g) (map fst g).
Proof.
  unfold Object_keys.
  etransitivity; [|apply (filter_split_perm is_array_index)].
  apply Permutation_app_tail. apply Permutation_sym, sort_perm.
Qed.

Lemma flat_map_pointwise {A B : Type} (f h : A -> list B) (l : list A) :
  (forall x, In x l -> Permutation (f x) (h x)) ->
  Permutation (flat_map f l) (flat_map h l).
Proof.
  induction l as [|x l IH]; intros H; simpl; [constructor|].
  apply Permutation_app; [apply H; left; reflexivity|].
  apply IH. intros y Hy. apply H. right. exact Hy.
Qed.

Lemma flat_map_app_perm {A B : Type} (f h : A -> list B) (l : list A) :
  Permutation (flat_map (fun k => f k ++ h k) l)
              (flat_map f l ++ flat_map h l).
Proof.
  induction l as [|x l IH]; simpl; [constructor|].
  rewrite <- !app_assoc. apply Permutation_app_head.
  etransitivity; [apply Permutation_app_head; exact IH|].
  rewrite !app_assoc. apply Permutation_app_tail. apply Permutation_app_comm.
Qed.

Lemma flat_map_nothing {A B : Type} (f : A -> list B) (l : list A) :
  (forall x, In x l -> f x = []) -> flat_map f l = [].
Proof.
  induction l as [|x l IH]; intros H; simpl; [reflexivity|].
  rewrite (H x (or_introl eq_refl)). apply IH.
  intros y Hy. apply H. right. exact Hy.
Qed.

Lemma flat_map_one {B : Type} (k0 : jsstring) (v : B) (ks : list jsstring) :
  NoDup ks -> In k0 ks ->
  flat_map (fun k => if jseqb k0 k then [v] else []) ks = [v].
Proof.
  induction ks as [|k ks IH]; intros Hnd Hin; [contradiction|].
  inversion Hnd as [|? ? Hnot Hnd']; subst. simpl.
  destruct Hin as [-> | Hin].
  - rewrite jseqb_refl. rewrite flat_map_nothing; [reflexivity|].
    intros x Hx. destruct (jseqb k0 x) eqn:E; [|reflexivity].
    apply jseqb_eq in E. subst x. contradiction.
  - destruct (jseqb k0 k) eqn:E.
    + apply jseqb_eq in E. subst k. contradiction.
    + apply IH; assumption.
Qed.

Lemma filter_either_perm {A : Type} (p q : A -> bool) (l : list A) :
  (forall x, In x l -> p x = true -> q x = false) ->
  Permutation (filter p l ++ filter q l) (filter (fun x => q x || p x) l).
Proof.
  induction l as [|x l IH]; intros H; simpl; [constructor|].
  assert (IH' : Permutation (filter p l ++ filter q l)
                            (filter (fun x => q x || p x) l))
    by (apply IH; intros y Hy; apply H; right; exact Hy).
  destruct (p x) eqn:Ep.
  - rewrite (H x (or_introl eq_refl) Ep). simpl. constructor. exact IH'.
  - destruct (q x); simpl; [|exact IH'].
    apply Permutation_sym, Permutation_cons_app, Permutation_sym. exact IH'.
Qed.

Section ViewFacts.
Context {host : Host}.
Variable i18n : option (jsstring -> jsstring).
Variable enrichHTML : jsstring -> Item -> jsstring.

Lemma class_member_item (it : Item) (m : Member) :
  class_member it = Some m ->
  item m = it
  /\ parsePrefixedSkillName (or_empty (name it)) = Some (parsed m)
  /\ plain_skill it = false.
Proof.
  unfold class_member, plain_skill.
  destruct (is_skill it && negb (truthy (parseNamingItem (or_empty (name it)))));
    [|discriminate].
  destruct (parsePrefixedSkillName (or_empty (name it))) as [p|];
    [|discriminate].
  destruct (is_reserved p); [discriminate|].
  intros H. injection H as <-. auto.
Qed.

Lemma members_of_In (k : jsstring) (items : list Item) (m : Member) :
  In m (members_of k items) <->
  exists it, In it items /\ class_member it = Some m
             /\ className (parsed m) = k.
Proof.
  unfold members_of. rewrite in_flat_map. split.
  - intros [it [Hin H]]. exists it. split; [exact Hin|].
    destruct (class_member it) as [m'|]; [|contradiction].
    destruct (jseqb (className (parsed m')) k) eqn:E; [|contradiction].
    destruct H as [-> | []]. apply jseqb_eq in E. auto.
  - intros [it [Hin [Hm Hk]]]. exists it. split; [exact Hin|].
    rewrite Hm, Hk, jseqb_refl. left. reflexivity.
Qed.

(** The items of the groups of all keys are the items that have an
    entry, each once. *)
Lemma members_by_key (keys : list jsstring) (items : list Item) :
  NoDup keys ->
  (forall it m, In it items -> class_member it = Some m ->
                In (className (parsed m)) keys) ->
  Permutation
    (flat_map (fun k => map (@item) (members_of k items)) keys)
    (filter (fun it => match class_member it with
                       | Some _ => true
                       | None => false
                       end) items).
Proof.
  intros Hnd. induction items as [|x items IH]; intros Hk.
  - simpl. rewrite flat_map_nothing; [constructor | reflexivity].
  - assert (IH' := IH (fun it m Hin => Hk it m (or_intror Hin))).
    clear IH.
    set (hx := fun k : jsstring =>
                 match class_member x with
                 | Some m => if jseqb (className (parsed m)) k then [x] else []
                 | None => []
                 end).
    assert (E : forall k, map (@item) (members_of k (x :: items))
                          = hx k ++ map (@item) (members_of k items)).
    { intros k. unfold members_of, hx. cbn [flat_map]. rewrite map_app.
      f_equal. destruct (class_member x) as [m|] eqn:Em; [|reflexivity].
      destruct (jseqb (className (parsed m)) k); [|reflexivity].
      simpl. rewrite (proj1 (class_member_item x Em)). reflexivity. }
    rewrite (flat_map_ext _ _ E).
    etransitivity; [apply flat_map_app_perm|].
    cbn [filter]. unfold hx.
    destruct (class_member x) as [m|] eqn:Em.
    + rewrite flat_map_one;
        [|exact Hnd | apply (Hk x m (or_introl eq_refl) Em)].
      simpl. constructor. exact IH'.
    + rewrite flat_map_nothing by reflexivity. exact IH'.
Qed.

Lemma Object_keys_own (g : object) (k : jsstring) :
  In k (Object_keys g) -> exists ms, own g k = Some ms.
Proof.
  intros H. apply (Permutation_in _ (Object_keys_perm g)) in H.
  destruct (own g k) as [ms|] eqn:E; [eauto|].
  apply own_None in E. contradiction.
Qed.

(** The view model, written out. *)
Lemma prepareContext_written (items : list Item) (g : Grouping)
      (label : option jsstring) :
  groupActorSkills items = Ok g ->
  getCustomClassLabel items = Ok label ->
  (occupational g <> [] -> i18n <> None) ->
  exists occ,
    occupationalGroup i18n enrichHTML (occupational g) = Ok occ
    /\ flat_map (fun gd => map View.item (View.skills gd)) occ
       = occupational g
    /\ Forall (fun gd => View.skills gd <> []) occ
    /\ _prepareContext i18n enrichHTML items
       = Ok {| View.tabLabel := tabLabel i18n label;
               View.groups :=
                 map (fun k =>
                        {| View.className := k;
                           View.skills :=
                             map (classWrapper enrichHTML)
                                 (sort compareMembers (members_of k items)) |})
                     (orderGroupNames (Object_keys (grouped g)) label)
                 ++ occ;
               View.hasGroups :=
                 match map (fun k =>
                        {| View.className := k;
                           View.skills :=
                             map (classWrapper enrichHTML)
                                 (sort compareMembers (members_of k items)) |})
                     (orderGroupNames (Object_keys (grouped g)) label)
                 ++ occ with
                 | [] => false
                 | _ :: _ => true
                 end |}.
Proof.
  intros Hg Hl Hi.
  assert (Hocc : exists occ,
             occupationalGroup i18n enrichHTML (occupational g) = Ok occ
             /\ flat_map (fun gd => map View.item (View.skills gd)) occ
                = occupational g
             /\ Forall (fun gd => View.skills gd <> []) occ).
  { unfold occupationalGroup.
    destruct (occupational g) as [|o os] eqn:Eo.
    - exists []. auto.
    - destruct i18n as [localize|];
        [|exfalso; apply Hi; [discriminate | reflexivity]].
      eexists. split; [reflexivity|]. cbn [flat_map View.skills].
      rewrite app_nil_r, map_map. cbn [occupationalWrapper View.item].
      rewrite map_id. split; [reflexivity|].
      constructor; [discriminate | constructor]. }
  destruct Hocc as [occ [Hocc [Hitems Hne]]].
  exists occ. split; [exact Hocc|]. split; [exact Hitems|].
  split; [exact Hne|].
  unfold _prepareContext. rewrite Hl, Hg. cbn [bind].
  pose proof (groupActorSkills_exact _ Hg) as [_ [_ Hown]].
  erewrite mapM_ok; [cbn [bind]; rewrite Hocc; cbn [bind]; reflexivity|].
  intros k Hk. unfold orderGroupNames in Hk. apply sort_In in Hk.
  apply Object_keys_own in Hk as [ms Hms].
  unfold classGroup, get_property. rewrite Hms.
  rewrite Hown in Hms.
  destruct (members_of k items) eqn:E; [discriminate|].
  cbn [nonempty option_map] in Hms. injection Hms as <-. reflexivity.
Qed.
End ViewFacts.

Lemma flat_map_of_map {A B C : Type} (f : B -> list C) (h : A -> B)
      (l : list A) :
  flat_map f (map h l) = flat_map (fun x => f (h x)) l.
Proof.
  induction l as [|x l IH]; simpl; [reflexivity|]. rewrite IH. reflexivity.
Qed.

Lemma existsb_filter {A : Type} (p : A -> bool) (l : list A) :
  existsb p l = match filter p l with [] => false | _ :: _ => true end.
Proof.
  induction l as [|x l IH]; simpl; [reflexivity|].
  destruct (p x); simpl; [reflexivity | exact IH].
Qed.

Section ViewTheorems.
Context {host : Host}.
Variable i18n : option (jsstring -> jsstring).
Variable enrichHTML : jsstring -> Item -> jsstring.

Lemma tabLabel_not_empty (label : option jsstring) : tabLabel i18n label <> [].
Proof.
  unfold tabLabel. destruct label as [[|c l]|]; try discriminate;
    destruct i18n as [localize|]; try discriminate;
    destruct (localize (js "DCCCS.TabLabel")); discriminate.
Qed.

(** The items of the view model written out are the visible skills. *)
Lemma written_permutation (items : list Item) (g : Grouping)
      (label : option jsstring) (occ : list View.GroupData) :
  groupActorSkills items = Ok g ->
  flat_map (fun gd => map View.item (View.skills gd)) occ = occupational g ->
  Permutation
    (flat_map (fun gd => map View.item (View.skills gd))
       (map (fun k =>
               {| View.className := k;
                  View.skills :=
                    map (classWrapper enrichHTML)
                        (sort compareMembers (members_of k items)) |})
            (orderGroupNames (Object_keys (grouped g)) label)
        ++ occ))
    (filter visible items).
Proof.
  intros Hg Hocc.
  pose proof (groupActorSkills_exact _ Hg) as [Ho [Hnd Hown]].
  rewrite flat_map_app, Hocc, flat_map_of_map. cbn [View.skills].
  etransitivity; [|apply filter_either_perm].
  2:{ intros x _ Hx. destruct (class_member x) as [m|] eqn:Em;
        [|discriminate]. apply (class_member_item x Em). }
  apply Permutation_app.
  - etransitivity;
      [apply (flat_map_pointwise _
                (fun k => map (@item) (members_of k items)))|].
    { intros k _. rewrite map_map. cbn [classWrapper View.item].
      apply Permutation_map, Permutation_sym, sort_perm. }
    etransitivity.
    { apply Permutation_flat_map. unfold orderGroupNames.
      etransitivity; [apply Permutation_sym, sort_perm|].
      apply Object_keys_perm. }
    apply members_by_key; [exact Hnd|].
    intros it m Hin Hm.
    assert (Hmem : In m (members_of (className (parsed m)) items))
      by (apply members_of_In; eauto).
    specialize (Hown (className (parsed m))).
    destruct (members_of (className (parsed m)) items) eqn:E;
      [contradiction|].
    cbn [nonempty option_map] in Hown. apply own_In in Hown.
    apply (in_map fst) in Hown. exact Hown.
  - rewrite Ho. apply Permutation_sym, sort_perm.
Qed.

Lemma prepareContext_permutation (items : list Item) (g : Grouping)
      (label : option jsstring) :
  groupActorSkills items = Ok g ->
  getCustomClassLabel items = Ok label ->
  (occupational g <> [] -> i18n <> None) ->
  exists vm,
    _prepareContext i18n enrichHTML items = Ok vm
    /\ Permutation (displayed vm) (filter visible items).
Proof.
  intros Hg Hl Hi.
  destruct (@prepareContext_written host i18n enrichHTML items g label
              Hg Hl Hi) as [occ [_ [Hocc [_ Hvm]]]].
  eexists. split; [exact Hvm|].
  apply written_permutation; assumption.
Qed.

(** Under which text the view model displays a skill. *)
Lemma prepareContext_display_names (items : list Item) (g : Grouping)
      (label : option jsstring) :
  groupActorSkills items = Ok g ->
  getCustomClassLabel items = Ok label ->
  (occupational g <> [] -> i18n <> None) ->
  exists vm,
    _prepareContext i18n enrichHTML items = Ok vm
    /\ (forall gd w,
           In gd (View.groups vm) -> In w (View.skills gd) ->
           View.displayName w
           = match parsePrefixedSkillName
                     (or_empty (name (View.item w))) with
             | Some p => Some (skillName p)
             | None => name (View.item w)
             end).
Proof.
  intros Hg Hl Hi.
  destruct (@prepareContext_written host i18n enrichHTML items g label
              Hg Hl Hi) as [occ [Hocc [_ [_ Hvm]]]].
  eexists. split; [exact Hvm|]. cbn [View.groups].
  pose proof (groupActorSkills_exact _ Hg) as [Ho _].
  intros gd w Hgd Hw. apply in_app_or in Hgd as [Hgd | Hgd].
  - apply in_map_iff in Hgd as [k [<- _]]. cbn [View.skills] in Hw.
    apply in_map_iff in Hw as [m [<- Hm]].
    apply sort_In, members_of_In in Hm as [it [_ [Hm _]]].
    apply class_member_item in Hm as [Eit [Hp _]].
    cbn [classWrapper View.item View.displayName].
    rewrite Eit, Hp. reflexivity.
  - unfold occupationalGroup in Hocc.
    destruct (occupational g) as [|o os] eqn:Eo;
      [injection Hocc as <-; contradiction|].
    destruct i18n as [localize|]; [|discriminate].
    injection Hocc as <-. destruct Hgd as [<- | []].
    cbn [View.skills] in Hw.
    apply (in_map_iff (occupationalWrapper enrichHTML) (o :: os)) in Hw
      as [it [<- Hit]].
    cbn [occupationalWrapper View.item View.displayName].
    assert (Hin : In it (filter plain_skill items)).
    { apply (Permutation_in _
               (Permutation_sym (sort_perm compareItemNames _))).
      rewrite <- Ho. exact Hit. }
    apply filter_In in Hin as [_ Hps]. unfold plain_skill in Hps.
    destruct (parsePrefixedSkillName (or_empty (name it)));
      [|reflexivity].
    rewrite andb_false_r in Hps. discriminate.
Qed.

(** X14.  Where [groupActorSkills] and [getCustomClassLabel] return, and
    the texts of the interface are there if an occupational skill needs
    one, [_prepareContext] returns a view model; looking a group up by its
    name never fails; the view displays every skill that is neither a
    naming item nor a skill of the reserved class, each once, and nothing
    else; no group of it is empty; [hasGroups] tells whether there is
    such a skill; and the label of the tab is never empty. *)
Theorem prepareContext_displays (items : list Item) (g : Grouping)
        (label : option jsstring) :
  groupActorSkills items = Ok g ->
  getCustomClassLabel items = Ok label ->
  (occupational g <> [] -> i18n <> None) ->
  exists vm,
    _prepareContext i18n enrichHTML items = Ok vm
    /\ Permutation (displayed vm) (filter visible items)
    /\ Forall (fun gd => View.skills gd <> []) (View.groups vm)
    /\ View.hasGroups vm = existsb visible items
    /\ View.tabLabel vm <> [].
Proof.
  intros Hg Hl Hi.
  destruct (@prepareContext_written host i18n enrichHTML items g label
              Hg Hl Hi) as [occ [_ [Hocc [Hne Hvm]]]].
  eexists. split; [exact Hvm|].
  pose proof (@written_permutation items g label occ Hg Hocc) as HP.
  pose proof (groupActorSkills_exact _ Hg) as [_ [_ Hown]].
  set (names := orderGroupNames (Object_keys (grouped g)) label) in *.
  set (h := fun k : jsstring =>
              {| View.className := k;
                 View.skills :=
                   map (classWrapper enrichHTML)
                       (sort compareMembers (members_of k items)) |}) in *.
  assert (Hnames : forall k, In k names -> members_of k items <> []).
  { intros k Hk. unfold names, orderGroupNames in Hk. apply sort_In in Hk.
    apply Object_keys_own in Hk as [ms Hms]. rewrite Hown in Hms.
    destruct (members_of k items); discriminate. }
  assert (HF : Forall (fun gd => View.skills gd <> []) (map h names ++ occ)).
  { apply Forall_app. split; [|exact Hne].
    apply Forall_forall. intros gd Hgd.
    apply in_map_iff in Hgd as [k [<- Hk]]. cbn [h View.skills].
    intros E. apply map_eq_nil in E.
    apply (@sort_nil _ compareMembers) in E. exact (Hnames k Hk E). }
  split; [exact HP|]. split; [exact HF|].
  split; [|apply tabLabel_not_empty].
  cbn [View.hasGroups]. rewrite existsb_filter.
  unfold displayed in HP. cbn [View.groups] in HP.
  destruct (map h names ++ occ) as [|gd gds] eqn:Egs.
  - cbn [flat_map] in HP. apply Permutation_nil in HP. rewrite HP.
    reflexivity.
  - inversion HF as [|? ? Hgd _]; subst.
    destruct (filter visible items) eqn:Ef; [|reflexivity].
    apply Permutation_sym, Permutation_nil in HP. cbn [flat_map] in HP.
    apply app_eq_nil in HP as [HP _]. apply map_eq_nil in HP.
    contradiction.
Qed.

(** X15.  The groups of the view model are the class groups in the order of
    [sortedGroupNames], then the group of the occupational skills if
    there are any; and every skill is displayed under the text its name
    has after the prefix, or under its full name if it has no prefix. *)
Theorem prepareContext_layout (items : list Item) (g : Grouping)
        (label : option jsstring) :
  groupActorSkills items = Ok g ->
  getCustomClassLabel items = Ok label ->
  (occupational g <> [] -> i18n <> None) ->
  exists vm,
    _prepareContext i18n enrichHTML items = Ok vm
    /\ map View.className (View.groups vm)
       = orderGroupNames (Object_keys (grouped g)) label
         ++ match occupational g, i18n with
            | _ :: _, Some localize =>
                [localize (js "DCCCS.OccupationalSkills")]
            | _, _ => []
            end
    /\ (forall gd w,
           In gd (View.groups vm) -> In w (View.skills gd) ->
           View.displayName w
           = match parsePrefixedSkillName
                     (or_empty (name (View.item w))) with
             | Some p => Some (skillName p)
             | None => name (View.item w)
             end).
Proof.
  intros Hg Hl Hi.
  destruct (@prepareContext_display_names items g label Hg Hl Hi)
    as [vm [Hvm Hnames]].
  exists vm. split; [exact Hvm|]. split; [|exact Hnames].
  destruct (@prepareContext_written host i18n enrichHTML items g label
              Hg Hl Hi) as [occ [Hocc [_ [_ Hvm']]]].
  rewrite Hvm in Hvm'. injection Hvm' as ->. cbn [View.groups].
  rewrite map_app, map_map. cbn [View.className]. rewrite map_id.
  f_equal. unfold occupationalGroup in Hocc.
  destruct (occupational g) as [|o os]; [injection Hocc as <-; reflexivity|].
  destruct i18n as [localize|]; [|discriminate].
  injection Hocc as <-. reflexivity.
Qed.

(** X16.  Without a class label the group names are in ascending order of
    the collation, every one of them once. *)
Theorem orderGroupNames_without_label (groupNames : list jsstring)
        (classLabel : option jsstring) :
  truthy classLabel = false ->
  orderGroupNames groupNames classLabel = sort localeCompare groupNames
  /\ Permutation groupNames (orderGroupNames groupNames classLabel)
  /\ StronglySorted (le_by localeCompare)
                    (orderGroupNames groupNames classLabel).
Proof.
  intros Ht.
  assert (E : orderGroupNames groupNames classLabel
              = sort localeCompare groupNames).
  { unfold orderGroupNames. apply sort_ext. intros a b.
    unfold compareGroupNames. rewrite Ht. reflexivity. }
  rewrite E. split; [reflexivity|]. split; [apply sort_perm|].
  apply (@sort_sorted _ localeCompare (fun _ => True)).
  - intros a b _ _ H. apply localeCompare_flip in H. lia.
  - intros a b c _ _ _. apply localeCompare_trans.
  - apply Forall_True.
Qed.
Lemma prepareContext_inv (items : list Item) (vm : View.ViewModel) :
  _prepareContext i18n enrichHTML items = Ok vm ->
  exists g label,
    groupActorSkills items = Ok g
    /\ getCustomClassLabel items = Ok label
    /\ (occupational g <> [] -> i18n <> None).
Proof.
  unfold _prepareContext.
  destruct (getCustomClassLabel items) as [label|] eqn:Hl; [|discriminate].
  destruct (groupActorSkills items) as [g|] eqn:Hg; [|discriminate].
  cbn [bind].
  destruct (mapM _ _) as [cg|]; [|discriminate]. cbn [bind].
  destruct (occupationalGroup i18n enrichHTML (occupational g)) as [occ|] eqn:Ho;
    [|discriminate].
  intros _. exists g, label. split; [reflexivity|]. split; [reflexivity|].
  intros Hne Ei. unfold occupationalGroup in Ho. rewrite Ei in Ho.
  destruct (occupational g); [congruence | discriminate].
Qed.

Lemma findWrapper_some (groups : list View.GroupData) (itemId : jsstring)
      (w : View.SkillWrapper) :
  findWrapper groups itemId = Some w ->
  _id (View.item w) = itemId
  /\ exists gd, In gd groups /\ In w (View.skills gd).
Proof.
  induction groups as [|gd groups IH]; [discriminate|]. cbn [findWrapper].
  destruct (find _ (View.skills gd)) as [w'|] eqn:Ef.
  - intros H. injection H as ->. apply find_some in Ef as [Hin Eid].
    apply jseqb_eq in Eid. split; [exact Eid|].
    exists gd. split; [left; reflexivity | exact Hin].
  - intros H. destruct (IH H) as [Eid [gd' [Hg Hw]]].
    split; [exact Eid|]. exists gd'. split; [right; exact Hg | exact Hw].
Qed.

Lemma findWrapper_none (groups : list View.GroupData) (itemId : jsstring) :
  findWrapper groups itemId = None ->
  forall gd w, In gd groups -> In w (View.skills gd) ->
               _id (View.item w) <> itemId.
Proof.
  induction groups as [|gd groups IH]; intros H gd' w Hg Hw; [contradiction|].
  cbn [findWrapper] in H.
  destruct (find _ (View.skills gd)) as [w'|] eqn:Ef; [discriminate|].
  destruct Hg as [<- | Hg]; [|exact (IH H gd' w Hg Hw)].
  intros Eid. apply (find_none _ _ Ef) in Hw.
  rewrite Eid, jseqb_refl in Hw. discriminate.
Qed.

Lemma chatName_name (it : Item) : chatName it (name it) = name it.
Proof. unfold chatName. destruct (name it) as [[|c l]|]; reflexivity. Qed.

(** X17.  On an actor whose items have distinct ids, the message a click
    on a skill posts is titled with the text the name of the skill has
    after its prefix when the sheet displays the skill in a class group
    and that text is not empty, and with the full name of the item in
    every other case. *)
Theorem chat_title (items : list Item) (vm : View.ViewModel) (it : Item) :
  _prepareContext i18n enrichHTML items = Ok vm ->
  NoDup (map _id items) -> In it items ->
  chatName it (clickedDisplayName vm it)
  = if visible it then
      match parsePrefixedSkillName (or_empty (name it)) with
      | Some {| skillName := c :: l |} => Some (c :: l)
      | _ => name it
      end
    else name it.
Proof.
  intros Hvm Hnd Hin.
  destruct (prepareContext_inv _ Hvm) as [g [label [Hg [Hl Hi]]]].
  destruct (@prepareContext_permutation items g label Hg Hl Hi)
    as [vm1 [E1 HP]].
  destruct (@prepareContext_display_names items g label Hg Hl Hi)
    as [vm2 [E2 Hnames]].
  assert (vm1 = vm) by congruence. assert (vm2 = vm) by congruence.
  subst vm1 vm2. clear E1 E2.
  assert (Hshown : forall gd w, In gd (View.groups vm) ->
                                In w (View.skills gd) ->
                                In (View.item w) (filter visible items)).
  { intros gd w Hgd Hw. apply (Permutation_in _ HP). unfold displayed.
    apply in_flat_map. exists gd. split; [exact Hgd|].
    apply in_map. exact Hw. }
  unfold clickedDisplayName.
  destruct (findWrapper (View.groups vm) (_id it)) as [w|] eqn:Ef.
  - apply findWrapper_some in Ef as [Eid [gd [Hgd Hw]]].
    pose proof (Hshown gd w Hgd Hw) as Hv.
    apply filter_In in Hv as [Hwin Hv].
    assert (View.item w = it)
      by (apply (NoDup_map_In _id items); assumption).
    rewrite (Hnames gd w Hgd Hw). subst it. rewrite Hv.
    destruct (parsePrefixedSkillName (or_empty (name (View.item w))))
      as [[cn wt [|c l]]|]; try reflexivity.
    apply chatName_name.
  - rewrite chatName_name.
    destruct (visible it) eqn:Hv; [exfalso | reflexivity].
    assert (Hd : In it (displayed vm)).
    { apply (Permutation_in _ (Permutation_sym HP)). apply filter_In. auto. }
    unfold displayed in Hd. apply in_flat_map in Hd as [gd [Hgd Hw]].
    apply in_map_iff in Hw as [w [Ew Hw]].
    apply (@findWrapper_none (View.groups vm) (_id it) Ef gd w Hgd Hw).
    rewrite Ew. reflexivity.
Qed.
End ViewTheorems.

(* ================================================================== *)
(** * The wizard *)












(** X19.  A class name of the wizard that ends in a caret and digits is
    read back without them, and the digits as the weight of every entry
    that has no positive weight of its own. *)
Theorem wizard_class_name_with_caret (s : CustomClassBuilder.state)
        (c ds : jsstring) (sk : Skill.t) :
  CustomClassBuilder.className s = c ++ caret :: ds ->
  forallb not_rparen c = true -> trim c <> [] -> is_decimal ds = true ->
  (Skill.weight sk <= 0)%Z ->
  forallb dot (trimStart (Skill.name sk)) = true ->
  exists d,
    CustomClassBuilder.prefixedSkill s sk = Some d
    /\ parsePrefixedSkillName (ItemData.name d)
       = Some {| className := trim c;
                 weight := Number.of_integer (Number.digits_value 0 ds);
                 skillName := trim (Skill.name sk) |}.
Proof.
  intros Ec Hc Hne Hds Hw Hdot.
  unfold CustomClassBuilder.prefixedSkill, CustomClassBuilder.weightSuffix.
  destruct (Z.ltb_spec 0 (Skill.weight sk)) as [Hpos | _]; [lia|].
  eexists. split; [reflexivity|]. cbn [ItemData.name]. rewrite Ec.
  replace (js "(" ++ (c ++ caret :: ds) ++ [] ++ js ")" ++ Skill.name sk)
    with (prefixed_name c (Some ds) (Skill.name sk))
    by (unfold prefixed_name; cbn [weight_text app];
        rewrite <- app_assoc; reflexivity).
  apply parsePrefixedSkillName_shape; auto. discriminate.
Qed.

Section Wizard.
Context {host : Host}.





End Wizard.

Section WizardOnSheet.
Context {host : Host}.






End WizardOnSheet.

Section WizardGroups.
Context {host : Host}.



End WizardGroups.
(* ================================================================== *)
(** * The entries of the wizard *)

Lemma update_app {A : Type} (l1 r : list A) (k : nat) (v : A) :
  update (length l1 + k) v (l1 ++ r) = l1 ++ update k v r.
Proof.
  induction l1 as [|x l1 IH]; [reflexivity|].
  cbn [length Nat.add app update]. rewrite IH. reflexivity.
Qed.

Lemma nth_error_skip {A : Type} (l1 r : list A) (k : nat) :
  nth_error (l1 ++ r) (length l1 + k) = nth_error r k.
Proof.
  induction l1 as [|x l1 IH]; [reflexivity|]. exact IH.
Qed.

Lemma swap_next {A : Type} (l1 l2 : list A) (x y : A) :
  swap (length l1) (length l1 + 1) (l1 ++ x :: y :: l2) = l1 ++ y :: x :: l2.
Proof.
  unfold swap.
  rewrite (nth_error_skip l1 (x :: y :: l2) 1).
  pose proof (nth_error_skip l1 (x :: y :: l2) 0) as E0.
  rewrite Nat.add_0_r in E0. rewrite E0. cbn [nth_error].
  pose proof (update_app l1 (x :: y :: l2) 0 y) as E1.
  rewrite Nat.add_0_r in E1. rewrite E1. cbn [update].
  rewrite (update_app l1 (y :: y :: l2) 1 x). reflexivity.
Qed.

Lemma findIndex_found {A : Type} (p : A -> bool) (l1 l2 : list A) (x : A) :
  (forall y, In y l1 -> p y = false) -> p x = true ->
  findIndex p (l1 ++ x :: l2) = Some (length l1).
Proof.
  intros H Hx. induction l1 as [|y l1 IH]; simpl; [rewrite Hx; reflexivity|].
  rewrite (H y (or_introl eq_refl)), IH; [reflexivity|].
  intros z Hz. apply H. right. exact Hz.
Qed.

Lemma findIndex_inv {A : Type} (p : A -> bool) (l : list A) (i : nat) :
  findIndex p l = Some i ->
  exists l1 x l2, l = l1 ++ x :: l2 /\ length l1 = i /\ p x = true
                  /\ forall y, In y l1 -> p y = false.
Proof.
  revert i. induction l as [|y l IH]; intros i H; [discriminate|].
  simpl in H. destruct (p y) eqn:Ey.
  - injection H as <-. exists [], y, l. repeat split; auto.
    intros z [].
  - destruct (findIndex p l) as [j|] eqn:Ej; [|discriminate].
    injection H as <-.
    destruct (IH j eq_refl) as [l1 [x [l2 [-> [<- [Hx Hl1]]]]]].
    exists (y :: l1), x, l2. repeat split; auto.
    intros z [<- | Hz]; auto.
Qed.

(** Dropping entries keeps their ids distinct. *)
Lemma kept_ids_distinct (keep : Skill.t -> bool) (entries : list Skill.t) :
  NoDup (map Skill.id entries) ->
  NoDup (map Skill.id (filter keep entries)).
Proof.
  intros Hnd. induction entries as [|sk entries IH]; [constructor|].
  cbn [map] in Hnd. inversion Hnd as [|? ? Hfresh Hrest]; subst.
  cbn [filter]. destruct (keep sk); [|exact (IH Hrest)].
  cbn [map]. constructor; [|exact (IH Hrest)].
  intros Hin. apply Hfresh. apply in_map_iff in Hin as [other [Eid Hother]].
  apply filter_In in Hother as [Hother _].
  rewrite <- Eid. apply in_map. exact Hother.
Qed.

Lemma moved_perm (s : CustomClassBuilder.state) (skillId : Z) :
  Permutation (CustomClassBuilder.skills s)
              (CustomClassBuilder.skills
                 (CustomClassBuilder._moveSkillUp s skillId))
  /\ Permutation (CustomClassBuilder.skills s)
                 (CustomClassBuilder.skills
                    (CustomClassBuilder._moveSkillDown s skillId)).
Proof.
  unfold CustomClassBuilder._moveSkillUp, CustomClassBuilder._moveSkillDown.
  destruct (findIndex (fun sk => (Skill.id sk =? skillId)%Z)
                      (CustomClassBuilder.skills s)) as [i|] eqn:E;
    [|split; reflexivity].
  apply findIndex_inv in E as [l1 [x [l2 [El [<- _]]]]].
  split.
  - destruct l1 as [|y l1]; [reflexivity|].
    destruct (@exists_last _ (y :: l1)) as [l1' [prev E1]]; [discriminate|].
    cbn [length CustomClassBuilder.set_skills CustomClassBuilder.skills].
    rewrite El, E1, <- app_assoc. cbn [app].
    assert (Elen : length l1 = length l1').
    { apply (f_equal (@length _)) in E1. rewrite length_app in E1.
      cbn [length] in E1. lia. }
    rewrite Elen. replace (S (length l1')) with (length l1' + 1) by lia.
    rewrite swap_next.
    apply Permutation_app_head. constructor.
  - destruct (Nat.eqb (length l1) (length (CustomClassBuilder.skills s) - 1));
      [reflexivity|].
    cbn [CustomClassBuilder.set_skills CustomClassBuilder.skills].
    rewrite El. destruct l2 as [|y l2]; [|rewrite swap_next;
      apply Permutation_app_head; constructor].
    unfold swap. rewrite (nth_error_skip l1 [x] 1). reflexivity.
Qed.

Lemma ids_fresh_perm (s s' : CustomClassBuilder.state) :
  Permutation (CustomClassBuilder.skills s) (CustomClassBuilder.skills s') ->
  CustomClassBuilder.nextSkillId s' = CustomClassBuilder.nextSkillId s ->
  ids_fresh s -> ids_fresh s'.
Proof.
  intros P En [Hnd Hlt]. split.
  - apply (Permutation_NoDup (Permutation_map Skill.id P)). exact Hnd.
  - intros sk Hin. rewrite En. apply Hlt.
    apply (Permutation_in _ (Permutation_sym P)). exact Hin.
Qed.

Lemma nextStep_skills (s : CustomClassBuilder.state) :
  CustomClassBuilder.skills (CustomClassBuilder._nextStep s)
  = CustomClassBuilder.skills s
  /\ CustomClassBuilder.nextSkillId (CustomClassBuilder._nextStep s)
     = CustomClassBuilder.nextSkillId s.
Proof.
  unfold CustomClassBuilder._nextStep. destruct s as [st cn ic sks pf nid].
  cbn [CustomClassBuilder.step CustomClassBuilder.className
       CustomClassBuilder.skills].
  destruct (st =? 1)%Z.
  - destruct (CustomClassBuilder.blank cn); split; reflexivity.
  - destruct (st =? 2)%Z; [|split; reflexivity].
    destruct sks; [split; reflexivity|].
    destruct (filter _ _); split; reflexivity.
Qed.

Lemma act_ids_fresh (s : CustomClassBuilder.state)
      (a : CustomClassBuilder.action) :
  ids_fresh s -> ids_fresh (CustomClassBuilder.act s a).
Proof.
  intros H. destruct a as [| | |skillId|skillId|skillId];
    cbn [CustomClassBuilder.act].
  - destruct (nextStep_skills s) as [E1 E2].
    apply (@ids_fresh_perm s _); [rewrite E1; reflexivity | exact E2 | exact H].
  - exact H.
  - destruct H as [Hnd Hlt]. split;
      cbn [CustomClassBuilder._addSkill CustomClassBuilder.skills
           CustomClassBuilder.nextSkillId].
    + rewrite map_app. cbn [map Skill.id].
      rewrite <- (rev_involutive (map Skill.id (CustomClassBuilder.skills s)
                                  ++ [CustomClassBuilder.nextSkillId s])).
      apply NoDup_rev. rewrite rev_app_distr. cbn [rev app].
      constructor; [|apply NoDup_rev; exact Hnd].
      rewrite <- in_rev. intros Hin.
      apply in_map_iff in Hin as [sk [Ek Hk]]. apply Hlt in Hk. lia.
    + intros sk Hin. apply in_app_or in Hin as [Hin | [<- | []]].
      * apply Hlt in Hin. lia.
      * cbn [Skill.id]. lia.
  - destruct H as [Hnd Hlt]. split;
      cbn [CustomClassBuilder._removeSkill CustomClassBuilder.set_skills
           CustomClassBuilder.skills CustomClassBuilder.nextSkillId].
    + apply kept_ids_distinct. exact Hnd.
    + intros sk Hin. apply filter_In in Hin as [Hin _]. apply Hlt. exact Hin.
  - apply (@ids_fresh_perm s _); [apply moved_perm | | exact H].
    unfold CustomClassBuilder._moveSkillUp.
    destruct (findIndex _ _) as [[|i]|]; reflexivity.
  - apply (@ids_fresh_perm s _); [apply moved_perm | | exact H].
    unfold CustomClassBuilder._moveSkillDown.
    destruct (findIndex _ _) as [i|]; [|reflexivity].
    destruct (Nat.eqb _ _); reflexivity.
Qed.

(** X24.  The ids of the entries of the wizard stay distinct, and below
    the id of the next entry, under every action; so they are after any
    sequence of actions on a new wizard. *)
Theorem wizard_ids_stay_fresh :
  (forall s a, ids_fresh s -> ids_fresh (CustomClassBuilder.act s a))
  /\ (forall actions,
         ids_fresh (fold_left CustomClassBuilder.act actions
                              CustomClassBuilder.constructor)).
Proof.
  split; [exact act_ids_fresh|].
  assert (H0 : ids_fresh CustomClassBuilder.constructor).
  { split; [constructor | intros sk []]. }
  intros actions. revert H0.
  generalize CustomClassBuilder.constructor.
  induction actions as [|a l IH]; intros s Hs; [exact Hs|].
  cbn [fold_left]. apply IH. apply act_ids_fresh. exact Hs.
Qed.

Lemma other_ids (l1 l2 : list Skill.t) (sk : Skill.t) :
  NoDup (map Skill.id (l1 ++ sk :: l2)) ->
  forall x, In x (l1 ++ l2) -> (Skill.id x =? Skill.id sk)%Z = false.
Proof.
  intros Hnd x Hx. rewrite map_app in Hnd. cbn [map] in Hnd.
  apply NoDup_remove_2 in Hnd. apply Z.eqb_neq. intros E. apply Hnd.
  rewrite <- E, <- map_app. apply in_map. exact Hx.
Qed.

(** X25.  With distinct ids, removing an entry by its id removes that entry
    and leaves the others in their order; moving it up exchanges it with
    the entry before it, and moving it down again puts both back. *)
Theorem wizard_entry_moves (s : CustomClassBuilder.state)
        (l1 l2 : list Skill.t) (sk : Skill.t) :
  ids_fresh s ->
  CustomClassBuilder.skills s = l1 ++ sk :: l2 ->
  CustomClassBuilder.skills (CustomClassBuilder._removeSkill s (Skill.id sk))
  = l1 ++ l2
  /\ (forall l0 prev,
         l1 = l0 ++ [prev] ->
         CustomClassBuilder.skills
           (CustomClassBuilder._moveSkillUp s (Skill.id sk))
         = l0 ++ sk :: prev :: l2
         /\ CustomClassBuilder._moveSkillDown
              (CustomClassBuilder._moveSkillUp s (Skill.id sk)) (Skill.id sk)
            = s)
  /\ (l1 = [] -> CustomClassBuilder._moveSkillUp s (Skill.id sk) = s)
  /\ (l2 = [] -> CustomClassBuilder._moveSkillDown s (Skill.id sk) = s).
Proof.
  intros [Hnd _] El. rewrite El in Hnd.
  pose proof (other_ids l1 l2 sk Hnd) as Hother.
  assert (Hl1 : forall y, In y l1 -> (Skill.id y =? Skill.id sk)%Z = false)
    by (intros y Hy; apply Hother; apply in_or_app; left; exact Hy).
  assert (Hl2 : forall y, In y l2 -> (Skill.id y =? Skill.id sk)%Z = false)
    by (intros y Hy; apply Hother; apply in_or_app; right; exact Hy).
  assert (Hfind : findIndex (fun x => (Skill.id x =? Skill.id sk)%Z)
                            (CustomClassBuilder.skills s)
                  = Some (length l1)).
  { rewrite El. apply findIndex_found; [exact Hl1 | apply Z.eqb_refl]. }
  split; [|split; [|split]].
  - cbn [CustomClassBuilder._removeSkill CustomClassBuilder.set_skills
         CustomClassBuilder.skills].
    rewrite El, filter_app. cbn [filter]. rewrite Z.eqb_refl. cbn [negb].
    rewrite !filter_all; [reflexivity | |].
    + intros y Hy. rewrite (Hl2 y Hy). reflexivity.
    + intros y Hy. rewrite (Hl1 y Hy). reflexivity.
  - intros l0 prev E1. subst l1.
    assert (Eup : CustomClassBuilder._moveSkillUp s (Skill.id sk)
                  = CustomClassBuilder.set_skills s (l0 ++ sk :: prev :: l2)).
    { unfold CustomClassBuilder._moveSkillUp. rewrite Hfind.
      rewrite length_app. cbn [length].
      replace (length l0 + 1) with (S (length l0)) by lia.
      rewrite El, <- app_assoc. cbn [app].
      replace (S (length l0)) with (length l0 + 1) by lia.
      rewrite swap_next. reflexivity. }
    rewrite Eup. split; [reflexivity|].
    unfold CustomClassBuilder._moveSkillDown.
    cbn [CustomClassBuilder.set_skills CustomClassBuilder.skills].
    rewrite findIndex_found; [| |apply Z.eqb_refl].
    2:{ intros y Hy. apply Hl1. apply in_or_app. left. exact Hy. }
    rewrite length_app. cbn [length].
    destruct (Nat.eqb_spec (length l0) (length l0 + S (S (length l2)) - 1));
      [lia|].
    rewrite swap_next. destruct s. cbn in *. rewrite El, <- app_assoc.
    reflexivity.
  - intros ->. unfold CustomClassBuilder._moveSkillUp. rewrite Hfind.
    reflexivity.
  - intros ->. unfold CustomClassBuilder._moveSkillDown. rewrite Hfind, El.
    rewrite length_app. cbn [length].
    replace (length l1 + 1 - 1) with (length l1) by lia.
    rewrite Nat.eqb_refl. reflexivity.
Qed.

(** X26.  At the second step an entry just added, which has no name yet,
    keeps the wizard from going on to the preview. *)
Theorem wizard_new_entry_blocks (s : CustomClassBuilder.state) :
  CustomClassBuilder.step s = 2%Z ->
  CustomClassBuilder._nextStep (CustomClassBuilder._addSkill s)
  = CustomClassBuilder._addSkill s.
Proof.
  intros E. unfold CustomClassBuilder._nextStep.
  cbn [CustomClassBuilder._addSkill CustomClassBuilder.step
       CustomClassBuilder.skills].
  rewrite E. cbn [Z.eqb Pos.eqb].
  destruct (CustomClassBuilder.skills s ++ _) as [|x l] eqn:El;
    [reflexivity|].
  rewrite <- El, filter_app. cbn [filter Skill.name].
  change (CustomClassBuilder.blank []) with true. cbv iota.
  destruct (filter _ (CustomClassBuilder.skills s)); reflexivity.
Qed.

(* ================================================================== *)
(** * The preview of the wizard *)

Section PreviewFacts.
Local Open Scope Z_scope.
Variable collate : jsstring -> jsstring -> Z.
Hypothesis collate_antisym :
  forall a b, Z.sgn (collate b a) = - Z.sgn (collate a b).
Hypothesis collate_trans :
  forall a b c, collate a b <= 0 -> collate b c <= 0 -> collate a c <= 0.

Lemma compareSkills_total :
  forall a b : Skill.t,
    True -> True ->
    CustomClassBuilder.compareSkills collate a b > 0 ->
    CustomClassBuilder.compareSkills collate b a <= 0.
Proof.
  unfold CustomClassBuilder.compareSkills. intros a b _ _.
  destruct (Z.eqb_spec (Skill.weight b) (Skill.weight a)) as [E | E];
    destruct (Z.eqb_spec (Skill.weight a) (Skill.weight b)) as [E' | E'];
    cbn [negb]; try lia.
  intros H. pose proof (collate_antisym (Skill.name a) (Skill.name b)).
  pose proof (Z.sgn_spec (collate (Skill.name a) (Skill.name b))).
  pose proof (Z.sgn_spec (collate (Skill.name b) (Skill.name a))).
  lia.
Qed.

Lemma compareSkills_trans :
  forall a b c : Skill.t,
    True -> True -> True ->
    CustomClassBuilder.compareSkills collate a b <= 0 ->
    CustomClassBuilder.compareSkills collate b c <= 0 ->
    CustomClassBuilder.compareSkills collate a c <= 0.
Proof.
  unfold CustomClassBuilder.compareSkills. intros a b c _ _ _.
  destruct (Z.eqb_spec (Skill.weight b) (Skill.weight a));
    destruct (Z.eqb_spec (Skill.weight c) (Skill.weight b));
    destruct (Z.eqb_spec (Skill.weight c) (Skill.weight a));
    cbn [negb]; try lia.
  apply collate_trans.
Qed.

(** X27.  The entries the wizard previews are its entries, each once, a
    greater weight before a smaller one and, at equal weights, in
    ascending order of the names; entries the comparator does not tell to
    exchange keep their order. *)
Theorem wizard_preview_sorted (s : CustomClassBuilder.state) :
  Permutation (CustomClassBuilder.skills s)
              (CustomClassBuilder.sortedSkills collate s)
  /\ (forall i j a b,
         (i < j)%nat ->
         nth_error (CustomClassBuilder.sortedSkills collate s) i = Some a ->
         nth_error (CustomClassBuilder.sortedSkills collate s) j = Some b ->
         Skill.weight b <= Skill.weight a
         /\ (Skill.weight a = Skill.weight b ->
             collate (Skill.name a) (Skill.name b) <= 0))
  /\ (forall a b,
         precedes a b (CustomClassBuilder.skills s) ->
         CustomClassBuilder.compareSkills collate a b <= 0 ->
         precedes a b (CustomClassBuilder.sortedSkills collate s)).
Proof.
  unfold CustomClassBuilder.sortedSkills.
  split; [apply sort_perm|]. split.
  - intros i j a b Hij Ha Hb.
    assert (Hs : StronglySorted
                   (le_by (CustomClassBuilder.compareSkills collate))
                   (sort (CustomClassBuilder.compareSkills collate)
                         (CustomClassBuilder.skills s))).
    { apply (@sort_sorted _ (CustomClassBuilder.compareSkills collate)
               (fun _ => True) compareSkills_total compareSkills_trans).
      apply Forall_True. }
    pose proof (sorted_nth Hs Hij Ha Hb) as H.
    unfold CustomClassBuilder.compareSkills in H.
    destruct (Z.eqb_spec (Skill.weight b) (Skill.weight a)) as [E | E];
      cbn [negb] in H.
    + split; [lia | intros _; exact H].
    + split; [lia | intros E'; congruence].
  - intros a b Hp Hc. apply sort_stable; assumption.
Qed.
End PreviewFacts.

(* ================================================================== *)
(** * Concrete runs *)

Lemma groupActorSkills_occupational_witness :
  exists g,
    @groupActorSkills ascii_host tavern_items = Ok g
    /\ Permutation (@filter Item (@plain_skill ascii_host) tavern_items)
                   (occupational g)
    /\ precedes (skill_item "climbing" None "") (skill_item "Climbing" None "")
                (occupational g).
Proof.
  assert (E : exists g, @groupActorSkills ascii_host tavern_items = Ok g)
    by (vm_compute; eexists; reflexivity).
  destruct E as [g E]. exists g. split; [exact E|].
  destruct (@groupActorSkills_occupational ascii_host tavern_items g E)
    as [HP [_ HS]].
  split; [exact HP|]. apply HS.
  - exists [skill_item "Swimming" None ""; skill_item "(Barbarian)Rage" None "";
            axe],
           [skill_item "(CUSTOMCLASS)Barbarian" (Some 5%Z)
                       "<p>icon: fa-axe-battle</p>"],
           [skill_item "(Barbarian)rage" None ""].
    reflexivity.
  - vm_compute. reflexivity.
  - vm_compute. reflexivity.
  - vm_compute. intros H. discriminate H.
Defined.

Lemma groupActorSkills_groups_exact_witness :
  exists g,
    @groupActorSkills ascii_host tavern_items = Ok g
    /\ NoDup (map fst (grouped g))
    /\ In (js "Barbarian",
           sort (@compareMembers ascii_host)
                (@members_of ascii_host (js "Barbarian") tavern_items))
          (grouped g).
Proof.
  assert (E : exists g, @groupActorSkills ascii_host tavern_items = Ok g)
    by (vm_compute; eexists; reflexivity).
  destruct E as [g E]. exists g. split; [exact E|].
  destruct (@groupActorSkills_groups_exact ascii_host tavern_items g E)
    as [Hnd Hin].
  split; [exact Hnd|]. apply Hin. split; [|reflexivity].
  vm_compute. intros H. discriminate H.
Defined.

Lemma groupActorSkills_stable_witness :
  exists g ms,
    @groupActorSkills ascii_host tavern_items = Ok g
    /\ In (js "Barbarian", ms) (grouped g)
    /\ precedes
         {| item := skill_item "(Barbarian)Rage" None "";
            parsed := {| className := js "Barbarian"; weight := Finite 0;
                         skillName := js "Rage" |} |}
         {| item := skill_item "(Barbarian)rage" None "";
            parsed := {| className := js "Barbarian"; weight := Finite 0;
                         skillName := js "rage" |} |}
         ms.
Proof.
  assert (E : exists g, @groupActorSkills ascii_host tavern_items = Ok g)
    by (vm_compute; eexists; reflexivity).
  destruct E as [g E]. exists g.
  destruct (@groupActorSkills_stable ascii_host tavern_items g
              (skill_item "(Barbarian)Rage" None "")
              (skill_item "(Barbarian)rage" None "")
              {| item := skill_item "(Barbarian)Rage" None "";
                 parsed := {| className := js "Barbarian"; weight := Finite 0;
                              skillName := js "Rage" |} |}
              {| item := skill_item "(Barbarian)rage" None "";
                 parsed := {| className := js "Barbarian"; weight := Finite 0;
                              skillName := js "rage" |} |} E)
    as [ms [Hin Hp]].
  - exists [skill_item "Swimming" None ""],
           [axe; skill_item "climbing" None "";
            skill_item "(CUSTOMCLASS)Barbarian" (Some 5%Z)
                       "<p>icon: fa-axe-battle</p>";
            skill_item "Climbing" None ""],
           [].
    reflexivity.
  - vm_compute. reflexivity.
  - vm_compute. reflexivity.
  - reflexivity.
  - vm_compute. intros H. discriminate H.
  - exists ms. split; [exact E|]. split; [exact Hin | exact Hp].
Defined.

Lemma groupActorSkills_hidden_witness :
  @groupActorSkills ascii_host
     ([skill_item "Swimming" None ""]
      ++ axe :: [skill_item "(Barbarian)Rage" None ""])
  = @groupActorSkills ascii_host
      ([skill_item "Swimming" None ""]
       ++ [skill_item "(Barbarian)Rage" None ""]).
Proof.
  apply (@groupActorSkills_hidden ascii_host axe). left.
  vm_compute. reflexivity.
Defined.

Lemma other_types_have_no_part_witness :
  @getCustomClassLabel ascii_host ([salesman] ++ axe :: [druid])
  = @getCustomClassLabel ascii_host ([salesman] ++ [druid]).
Proof.
  apply (proj2 (@other_types_have_no_part ascii_host axe [salesman] [druid])).
  vm_compute. reflexivity.
Defined.

Lemma tavern_named : @named ascii_host tavern_items.
Proof.
  intros it Hin _. cbn [tavern_items In] in Hin.
  repeat (destruct Hin as [<- | Hin]; [discriminate|]). contradiction.
Defined.

Lemma getCustomClassLabel_result_witness :
  js "Barbarian" <> [] /\ trim (js "Barbarian") = js "Barbarian".
Proof.
  destruct (proj2 (@getCustomClassLabel_result ascii_host tavern_items
                     tavern_named) (js "Barbarian"))
    as [H1 [H2 _]].
  - vm_compute. reflexivity.
  - split; assumption.
Defined.

Lemma getCustomClassIcon_result_witness :
  exists r, @getCustomClassIcon ascii_host tavern_items = Ok r.
Proof.
  destruct (@getCustomClassIcon_result ascii_host tavern_items tavern_named)
    as [r [Hr _]].
  exists r. exact Hr.
Defined.

Lemma tavern_ids : NoDup (map _id tavern_items).
Proof.
  cbn [tavern_items map].
  repeat (constructor;
          [cbn [In]; intros H;
           repeat (destruct H as [H | H]; [vm_compute in H; discriminate H|]);
           exact H|]).
  constructor.
Defined.

Lemma purgeNamingItems_effect_witness :
  exists purged,
    @purgeNamingItems ascii_host tavern_items = Ok purged
    /\ @getCustomClassLabel ascii_host purged = Ok None
    /\ @groupActorSkills ascii_host purged
       = @groupActorSkills ascii_host tavern_items.
Proof.
  destruct (@purgeNamingItems_effect ascii_host tavern_items
              tavern_named tavern_ids)
    as [purged [H1 [_ [H2 [_ [H3 _]]]]]].
  exists purged. auto.
Defined.

Lemma prepareContext_displays_witness :
  exists vm,
    @_prepareContext ascii_host (Some english) as_written tavern_items = Ok vm
    /\ Permutation (displayed vm)
                   (@filter Item (@visible ascii_host) tavern_items)
    /\ View.hasGroups vm = true.
Proof.
  assert (E : exists g, @groupActorSkills ascii_host tavern_items = Ok g
                        /\ (occupational g <> [] -> Some english <> None))
    by (vm_compute; eexists; split; [reflexivity | discriminate]).
  destruct E as [g [E Hi]].
  destruct (@prepareContext_displays ascii_host (Some english) as_written
              tavern_items g (Some (js "Barbarian")) E)
    as [vm [Hvm [HP [_ [Hh _]]]]].
  - vm_compute. reflexivity.
  - exact Hi.
  - exists vm. split; [exact Hvm|]. split; [exact HP|].
    rewrite Hh. vm_compute. reflexivity.
Defined.

Lemma prepareContext_layout_witness :
  exists vm,
    @_prepareContext ascii_host (Some english) as_written tavern_items = Ok vm
    /\ map View.className (View.groups vm)
       = [js "Barbarian"; js "Occupational Skills"].
Proof.
  let r := eval vm_compute in (@groupActorSkills ascii_host tavern_items) in
  match r with
  | Ok ?g0 =>
      destruct (@prepareContext_layout ascii_host (Some english) as_written
                  tavern_items g0 (Some (js "Barbarian")))
        as [vm [Hvm [Hc _]]]
  end.
  - vm_compute. reflexivity.
  - vm_compute. reflexivity.
  - discriminate.
  - exists vm. split; [exact Hvm|]. rewrite Hc. vm_compute. reflexivity.
Defined.

Lemma orderGroupNames_without_label_witness :
  @orderGroupNames ascii_host [js "Druid"; js "alchemist"; js "Bard"] None
  = [js "alchemist"; js "Bard"; js "Druid"].
Proof.
  rewrite (proj1 (@orderGroupNames_without_label ascii_host
                    [js "Druid"; js "alchemist"; js "Bard"] None eq_refl)).
  vm_compute. reflexivity.
Defined.

Lemma customTab_result_witness :
  exists label icon,
    @customTab ascii_host None tavern_items = Ok (label, icon)
    /\ label = js "Barbarian".
Proof.
  destruct (@customTab_result ascii_host None tavern_items tavern_named)
    as [label [icon [H1 [_ [H2 _]]]]].
  exists label, icon. split; [exact H1|]. apply H2.
  vm_compute. reflexivity.
Defined.





Lemma wizard_class_name_with_caret_witness :
  exists d,
    CustomClassBuilder.prefixedSkill
      (CustomClassBuilder.inputClassName blood_mage (js " Mage^2 "))
      blood_bond = Some d
    /\ parsePrefixedSkillName (ItemData.name d)
       = Some {| className := trim (js "Mage");
                 weight := Number.of_integer
                             (Number.digits_value 0 (js "2"));
                 skillName := trim (js " Blood Bond ") |}.
Proof.
  apply (@wizard_class_name_with_caret
           (CustomClassBuilder.inputClassName blood_mage (js " Mage^2 "))
           (js "Mage") (js "2") blood_bond);
    try (vm_compute; reflexivity).
  - vm_compute. discriminate.
  - vm_compute. intros H. discriminate H.
Defined.




Lemma blood_mage_ids : ids_fresh blood_mage.
Proof.
  split.
  - repeat constructor; cbn [In]; intros H;
      repeat (destruct H as [H | H]; [discriminate H|]); exact H.
  - intros sk [<- | [<- | []]]; reflexivity.
Defined.

Lemma wizard_ids_stay_fresh_witness :
  ids_fresh (CustomClassBuilder.act blood_mage
               (CustomClassBuilder.removeSkill 1)).
Proof.
  apply (proj1 wizard_ids_stay_fresh). exact blood_mage_ids.
Defined.

Lemma wizard_entry_moves_witness :
  CustomClassBuilder._moveSkillDown
    (CustomClassBuilder._moveSkillUp blood_mage (Skill.id blood_bond))
    (Skill.id blood_bond)
  = blood_mage
  /\ CustomClassBuilder.skills
       (CustomClassBuilder._removeSkill blood_mage (Skill.id blood_bond))
     = [leech] ++ [].
Proof.
  destruct (@wizard_entry_moves blood_mage [leech] [] blood_bond
              blood_mage_ids eq_refl)
    as [H1 [H2 _]].
  split; [|exact H1].
  apply (proj2 (H2 [] leech eq_refl)).
Defined.

Lemma wizard_new_entry_blocks_witness :
  CustomClassBuilder._nextStep
    (CustomClassBuilder._addSkill (CustomClassBuilder._prevStep blood_mage))
  = CustomClassBuilder._addSkill (CustomClassBuilder._prevStep blood_mage).
Proof.
  apply (wizard_new_entry_blocks (CustomClassBuilder._prevStep blood_mage)).
  reflexivity.
Defined.

Lemma wizard_preview_sorted_witness :
  CustomClassBuilder.sortedSkills (@localeCompare ascii_host)
    (CustomClassBuilder._addSkill blood_mage)
  = [leech;
     {| Skill.id := 3; Skill.name := []; Skill.description := [];
        Skill.weight := 0 |};
     blood_bond]
  /\ Permutation (CustomClassBuilder.skills
                    (CustomClassBuilder._addSkill blood_mage))
                 (CustomClassBuilder.sortedSkills (@localeCompare ascii_host)
                    (CustomClassBuilder._addSkill blood_mage)).
Proof.
  split; [vm_compute; reflexivity|].
  apply (@wizard_preview_sorted (@localeCompare ascii_host)
           (@localeCompare_antisym ascii_host)
           (@localeCompare_trans ascii_host)
           (CustomClassBuilder._addSkill blood_mage)).
Defined.

Lemma chat_title_witness :
  exists vm,
    @_prepareContext ascii_host (Some english) as_written tavern_items = Ok vm
    /\ chatName (skill_item "(Barbarian)Rage" None "")
                (clickedDisplayName vm (skill_item "(Barbarian)Rage" None ""))
       = Some (js "Rage").
Proof.
  let r := eval vm_compute in
             (@_prepareContext ascii_host (Some english) as_written
                tavern_items) in
  match r with
  | Ok ?vm0 => exists vm0
  end.
  assert (Hvm : @_prepareContext ascii_host (Some english) as_written
                  tavern_items = Ok _)
    by (vm_compute; reflexivity).
  split; [exact Hvm|].
  rewrite (@chat_title ascii_host (Some english) as_written tavern_items _
             (skill_item "(Barbarian)Rage" None "") Hvm tavern_ids).
  - vm_compute. reflexivity.
  - right. left. reflexivity.
Defined.

